(** * relmatch: rule-based record linkage

    A shallow embedding of the Python package [relmatch]
    (registry.py, comparators.py, models.py, engine.py) together with the
    properties of its matching engine.

    Modelling conventions.
    - A Python [float] is an IEEE 754 binary64 number.  A finite one is
      modelled by the rational it denotes ([Q]), and every operation on floats
      that the package performs ([+], [-], [*], [/], [sum], [float(int)]) by
      the exact operation followed by [rnd], the rounding to the nearest
      binary64 number, ties to even.  Equality of floats is [==] on [Q].
      NaN and the infinities are not modelled: the embedding follows the code
      on the runs whose floats, read or computed, are all finite.
      [float(int)] raises [OverflowError] beyond the finite range, as in
      Python; the other operations of the model are not bounded above.
      [sum] adds from left to right, as CPython does up to version 3.11.
    - A Python [str] is modelled by [string]: a sequence of characters with
      code points below 256, compared by code point.  [strip] and [lower]
      follow [str.strip] and [str.lower] on those code points.  Texts with
      other characters are not modelled.
    - A Python [dict] is an association list kept in insertion order with
      unique keys ([dict_set] overwrites in place, like Python).
    - A call that can raise returns a [result]: [Ok v] or [Raise e].
    - Conversions implemented by the Python runtime and not by this package
      (parsing numbers and dates out of text, printing a float) are the fields
      of the class [PyLib]; every theorem holds for every such runtime. *)

From Stdlib Require Import List String Ascii Bool ZArith QArith Qround Qabs Qpower Lia Lqa.
From Stdlib Require Import Permutation Sorted DecimalString Morphisms.
Import ListNotations.

Local Open Scope string_scope.
Local Open Scope list_scope.
Local Open Scope Z_scope.

(** ** Exceptions and results *)

Inductive exn : Type :=
| KeyError (msg : string)
| ValueError (msg : string)
| TypeError (msg : string)
| ZeroDivisionError
| OverflowError
| IndexError.

Inductive result (A : Type) : Type :=
| Ok (a : A)
| Raise (e : exn).

Arguments Ok {A} a.
Arguments Raise {A} e.

Definition bind {A B : Type} (m : result A) (k : A -> result B) : result B :=
  match m with
  | Ok a => k a
  | Raise e => Raise e
  end.

Notation "x <- m ;; k" := (bind m (fun x => k))
  (at level 61, m at next level, right associativity).
Notation "' p <- m ;; k" := (bind m (fun p => k))
  (at level 61, p pattern, m at next level, right associativity).

(** [try: ... except Exception: None] *)
Definition except_none {A : Type} (m : result A) : option A :=
  match m with
  | Ok a => Some a
  | Raise _ => None
  end.

(** ** Rational comparisons as Python writes them *)

(** [a >= b] *)
Definition Qgeb (a b : Q) : bool := Qle_bool b a.
(** [a > b] *)
Definition Qgtb (a b : Q) : bool := negb (Qle_bool a b).
(** [max(a, b)] on two arguments: [b] when [b > a], else [a]. *)
Definition py_max (a b : Q) : Q := if Qgtb b a then b else a.
(** [abs(a)] *)
Definition py_abs (a : Q) : Q := if Qle_bool 0 a then a else Qopp a.
(** [int(q)]: truncation toward zero. *)
Definition Qtrunc (q : Q) : Z := if Qle_bool 0 q then Qfloor q else Qceiling q.

(** ** Binary64 arithmetic *)

(** The exponent [k] with [2 ** k <= a < 2 ** (k + 1)], for a positive [a] *)
Definition floor_log2 (a : Q) : Z :=
  let k := Z.log2 (Qnum a) - Z.log2 (Zpos (Qden a)) in
  if Qle_bool (2 ^ k) a then k else k - 1.

(** The integer nearest to [q], the even one of the two when [q] lies halfway *)
Definition round_half_even (q : Q) : Z :=
  let f := Qfloor q in
  match Qcompare (q - inject_Z f) (1 # 2) with
  | Lt => f
  | Gt => f + 1
  | Eq => if Z.even f then f else f + 1
  end.

(** The exponent of the last place of the binary64 numbers around [a]:
    53 significant bits, and [2 ** -1074] for the subnormal numbers *)
Definition ulp_exponent (a : Q) : Z := Z.max (floor_log2 a - 52) (-1074).

(** A positive number rounded to 53 significant bits *)
Definition round_pos (a : Q) : Q :=
  let e := ulp_exponent a in
  (inject_Z (round_half_even (a / 2 ^ e)) * 2 ^ e)%Q.

(** The binary64 number nearest to [x], ties to even *)
Definition rnd (x : Q) : Q :=
  let x := Qred x in
  match Qcompare x 0 with
  | Eq => 0%Q
  | Gt => Qred (round_pos x)
  | Lt => Qred (- round_pos (- x))
  end.

(** [sys.float_info.max] *)
Definition max_double : Q := inject_Z ((2 ^ 53 - 1) * 2 ^ 971).

(** The rounded number is finite: not beyond [max_double]. *)
Definition finite64 (x : Q) : bool := Qle_bool (Qabs x) max_double.

(** [x + y], [x - y], [x * y] on floats, and [x / y] for a divisor that is
    not zero *)
Definition fadd (x y : Q) : Q := rnd (x + y).
Definition fsub (x y : Q) : Q := rnd (x - y).
Definition fmul (x y : Q) : Q := rnd (x * y).
Definition fdiv (x y : Q) : Q := rnd (x / y).

(** ** Values, text and dictionaries *)

Inductive Value : Type :=
| VNone
| VBool (b : bool)
| VInt (n : Z)
| VFloat (q : Q)
| VStr (s : string).

Class PyLib : Type := {
  (** [float(s)] on a text that denotes a finite float; [None] stands for
      [ValueError] (texts read as NaN or as an infinity are not modelled) *)
  float_of_str : string -> option Q;
  (** [int(s)] on text; [None] stands for [ValueError] *)
  int_of_str : string -> option Z;
  (** [str(x)] on a float *)
  float_repr : Q -> string;
  (** [datetime.fromisoformat(s).date()] as a day number *)
  date_fromisoformat : string -> option Z;
  (** [datetime.strptime(s, fmt).date()] as a day number *)
  date_strptime : string -> string -> option Z;
  (** [dateutil.parser.parse(s).date()] as a day number, [None] when the
      module is absent or the text is refused *)
  dateutil_parse : string -> option Z
}.

Definition PyDict (V : Type) : Type := list (string * V).

Fixpoint dict_get {V : Type} (d : PyDict V) (k : string) : option V :=
  match d with
  | [] => None
  | (k', v) :: d' => if String.eqb k' k then Some v else dict_get d' k
  end.

(** [d[k] = v]: overwrite in place, or append a new key at the end. *)
Fixpoint dict_set {V : Type} (d : PyDict V) (k : string) (v : V) : PyDict V :=
  match d with
  | [] => [(k, v)]
  | (k', v') :: d' =>
      if String.eqb k' k then (k', v) :: d' else (k', v') :: dict_set d' k v
  end.

Definition dict_keys {V : Type} (d : PyDict V) : list string := map fst d.
Definition dict_values {V : Type} (d : PyDict V) : list V := map snd d.

(** [k in s] on a set of strings *)
Definition str_mem (k : string) (s : list string) : bool :=
  existsb (String.eqb k) s.

(** [d.get(k)] and [d.get(k, default)] on a record *)
Definition get_value (d : PyDict Value) (k : string) : Value :=
  match dict_get d k with
  | Some v => v
  | None => VNone
  end.

Definition get_value_or (d : PyDict Value) (k : string) (default : Value) : Value :=
  match dict_get d k with
  | Some v => v
  | None => default
  end.

(** [c.isspace()] on a code point below 256: the ASCII controls 9-13 and
    28-31, the space, NEXT LINE (133) and NO-BREAK SPACE (160) *)
Definition is_space (c : ascii) : bool :=
  let n := Z.of_nat (nat_of_ascii c) in
  ((9 <=? n) && (n <=? 13)) || ((28 <=? n) && (n <=? 32)) || (n =? 133) || (n =? 160).

(** [c.lower()] on a code point below 256: the letters A-Z and the Latin-1
    capitals 192-222, the multiplication sign 215 apart, move up by 32 *)
Definition lower_char (c : ascii) : ascii :=
  let n := Z.of_nat (nat_of_ascii c) in
  if ((65 <=? n) && (n <=? 90)) || ((192 <=? n) && (n <=? 222) && negb (n =? 215))
  then ascii_of_nat (nat_of_ascii c + 32) else c.

Fixpoint lstrip_chars (l : list ascii) : list ascii :=
  match l with
  | [] => []
  | c :: l' => if is_space c then lstrip_chars l' else l
  end.

(** [s.strip()] *)
Definition strip (s : string) : string :=
  string_of_list_ascii
    (rev (lstrip_chars (rev (lstrip_chars (list_ascii_of_string s))))).

(** [s.lower()] *)
Definition lower (s : string) : string :=
  string_of_list_ascii (map lower_char (list_ascii_of_string s)).

(** [len(s)] *)
Definition len (s : string) : Z := Z.of_nat (String.length s).

(** [str(n)] on an int *)
Definition str_of_int (n : Z) : string := NilZero.string_of_int (Z.to_int n).

(** [str(v)] *)
Definition str `{PyLib} (v : Value) : string :=
  match v with
  | VNone => "None"
  | VBool true => "True"
  | VBool false => "False"
  | VInt n => str_of_int n
  | VFloat q => float_repr q
  | VStr s => s
  end.

(** [bool(v)] *)
Definition py_bool (v : Value) : bool :=
  match v with
  | VNone => false
  | VBool b => b
  | VInt n => negb (n =? 0)
  | VFloat q => negb (Qeq_bool q 0)
  | VStr s => negb (String.eqb s EmptyString)
  end.

(** [float(n)] on an int: the nearest float, [OverflowError] when that is
    not finite *)
Definition float_of_int (n : Z) : result Q :=
  let x := rnd (inject_Z n) in
  if finite64 x then Ok x else Raise OverflowError.

(** [float(v)] *)
Definition py_float `{PyLib} (v : Value) : result Q :=
  match v with
  | VNone => Raise (TypeError "float() argument must be a string or a real number")
  | VBool b => Ok (if b then 1%Q else 0%Q)
  | VInt n => float_of_int n
  | VFloat q => Ok q
  | VStr s =>
      match float_of_str s with
      | Some q => Ok q
      | None => Raise (ValueError "could not convert string to float")
      end
  end.

(** [int(v)] *)
Definition py_int `{PyLib} (v : Value) : result Z :=
  match v with
  | VNone => Raise (TypeError "int() argument must be a string or a real number")
  | VBool b => Ok (if b then 1 else 0)
  | VInt n => Ok n
  | VFloat q => Ok (Qtrunc q)
  | VStr s =>
      match int_of_str s with
      | Some n => Ok n
      | None => Raise (ValueError "invalid literal for int()")
      end
  end.

(** The number a value stands for in a comparison ([bool] is an [int]). *)
Definition as_number (v : Value) : option Q :=
  match v with
  | VBool b => Some (if b then 1%Q else 0%Q)
  | VInt n => Some (inject_Z n)
  | VFloat q => Some q
  | _ => None
  end.

(** [a == b] on values *)
Definition py_eq (a b : Value) : bool :=
  match a, b with
  | VNone, VNone => true
  | VStr s, VStr t => String.eqb s t
  | _, _ =>
      match as_number a, as_number b with
      | Some x, Some y => Qeq_bool x y
      | _, _ => false
      end
  end.

(** ** Sorting

    [sorted] and [list.sort] are stable and use only [<] on the keys, so
    their output is the unique stable arrangement; insertion from the right
    computes it. *)

Fixpoint insert_by {A : Type} (lt : A -> A -> bool) (x : A) (l : list A) : list A :=
  match l with
  | [] => [x]
  | y :: l' => if lt y x then y :: insert_by lt x l' else x :: l
  end.

Definition sort_by {A : Type} (lt : A -> A -> bool) (l : list A) : list A :=
  fold_right (insert_by lt) [] l.

(** [sorted(names)] on strings *)
Definition sorted_str (l : list string) : list string := sort_by String.ltb l.

(** [xs[:k]] for an int [k]: a negative [k] counts from the end. *)
Definition slice_to {A : Type} (xs : list A) (k : Z) : list A :=
  if k <? 0
  then firstn (Z.to_nat (Z.max 0 (Z.of_nat (List.length xs) + k))) xs
  else firstn (Z.to_nat k) xs.

(** ** difflib.SequenceMatcher (Python standard library), as [cmp_ratio]
    uses it: [isjunk=None], [autojunk=True].

    The package calls into difflib, so its [ratio] is embedded as well, loop
    by loop from CPython's [Lib/difflib.py]: [__chain_b],
    [find_longest_match], [get_matching_blocks], [ratio]. *)

Module difflib.

(** [Match(a, b, size)] *)
Definition Match : Type := (Z * Z * Z)%type.

Definition size (m : Match) : Z := snd m.

(** [s[i]] for an index inside the sequence *)
Definition item (s : list ascii) (i : Z) : ascii :=
  nth (Z.to_nat i) s "000"%char.

(** [range(lo, hi)] *)
Definition range (lo hi : Z) : list Z :=
  map (fun k => lo + Z.of_nat k) (seq 0 (Z.to_nat (hi - lo))).

(** [b2j.setdefault(elt, []).append(i)] *)
Fixpoint b2j_append (b2j : list (ascii * list Z)) (elt : ascii) (i : Z)
  : list (ascii * list Z) :=
  match b2j with
  | [] => [(elt, [i])]
  | (e, indices) :: rest =>
      if Ascii.eqb e elt then (e, indices ++ [i]) :: rest
      else (e, indices) :: b2j_append rest elt i
  end.

(** [for i, elt in enumerate(b)] *)
Fixpoint chain_loop (b : list ascii) (i : Z) (b2j : list (ascii * list Z))
  : list (ascii * list Z) :=
  match b with
  | [] => b2j
  | elt :: b' => chain_loop b' (i + 1) (b2j_append b2j elt i)
  end.

(** [__chain_b]: no junk ([isjunk] is [None]); popular elements are purged
    when [len(b) >= 200]. *)
Definition chain_b (b : list ascii) : list (ascii * list Z) :=
  let b2j := chain_loop b 0 [] in
  let n := Z.of_nat (List.length b) in
  if 200 <=? n then
    let ntest := n / 100 + 1 in
    filter (fun entry => negb (ntest <? Z.of_nat (List.length (snd entry)))) b2j
  else b2j.

(** [b2j.get(c, nothing)] *)
Fixpoint b2j_get (b2j : list (ascii * list Z)) (c : ascii) : list Z :=
  match b2j with
  | [] => []
  | (e, indices) :: rest => if Ascii.eqb e c then indices else b2j_get rest c
  end.

(** [bjunk.__contains__]: the junk set is empty. *)
Definition isbjunk (c : ascii) : bool := false.

(** [j2len.get(j, 0)]; the newest binding of a key comes first. *)
Fixpoint j2len_get (j2len : list (Z * Z)) (j : Z) : Z :=
  match j2len with
  | [] => 0
  | (j', k) :: rest => if j' =? j then k else j2len_get rest j
  end.

Record SequenceMatcher : Type := {
  a : list ascii;
  b : list ascii;
  b2j : list (ascii * list Z)
}.

Definition new (a b : list ascii) : SequenceMatcher :=
  {| a := a; b := b; b2j := chain_b b |}.

(** [for j in b2j.get(a[i], nothing)], with its [continue] and [break] *)
Fixpoint inner_loop (js : list Z) (i blo bhi : Z) (j2len newj2len : list (Z * Z))
  (best : Match) : list (Z * Z) * Match :=
  match js with
  | [] => (newj2len, best)
  | j :: js' =>
      if j <? blo then inner_loop js' i blo bhi j2len newj2len best
      else if bhi <=? j then (newj2len, best)
      else
        let k := j2len_get j2len (j - 1) + 1 in
        let newj2len' := (j, k) :: newj2len in
        let best' := if k >? size best then (i - k + 1, j - k + 1, k) else best in
        inner_loop js' i blo bhi j2len newj2len' best'
  end.

(** [for i in range(alo, ahi)] *)
Fixpoint outer_loop (sm : SequenceMatcher) (rows : list Z) (blo bhi : Z)
  (j2len : list (Z * Z)) (best : Match) : Match :=
  match rows with
  | [] => best
  | i :: rows' =>
      let '(newj2len, best') :=
        inner_loop (b2j_get (b2j sm) (item (a sm) i)) i blo bhi j2len [] best in
      outer_loop sm rows' blo bhi newj2len best'
  end.

(** The two [while] loops that grow a match backwards; [junk] selects the
    test on [isbjunk] (its negation in the first pass). *)
Fixpoint extend_back (fuel : nat) (sm : SequenceMatcher) (junk : bool)
  (alo blo : Z) (best : Match) : Match :=
  match fuel with
  | O => best
  | S fuel' =>
      let '(besti, bestj, bestsize) := best in
      if (besti >? alo) && (bestj >? blo)
         && Bool.eqb (isbjunk (item (b sm) (bestj - 1))) junk
         && Ascii.eqb (item (a sm) (besti - 1)) (item (b sm) (bestj - 1))
      then extend_back fuel' sm junk alo blo (besti - 1, bestj - 1, bestsize + 1)
      else best
  end.

(** The two [while] loops that grow a match forwards. *)
Fixpoint extend_fwd (fuel : nat) (sm : SequenceMatcher) (junk : bool)
  (ahi bhi : Z) (best : Match) : Match :=
  match fuel with
  | O => best
  | S fuel' =>
      let '(besti, bestj, bestsize) := best in
      if (besti + bestsize <? ahi) && (bestj + bestsize <? bhi)
         && Bool.eqb (isbjunk (item (b sm) (bestj + bestsize))) junk
         && Ascii.eqb (item (a sm) (besti + bestsize)) (item (b sm) (bestj + bestsize))
      then extend_fwd fuel' sm junk ahi bhi (besti, bestj, bestsize + 1)
      else best
  end.

(** A [while] loop of [find_longest_match] moves an index by one each turn
    between [alo] and [ahi]: [ahi - alo] turns are enough. *)
Definition while_fuel (alo ahi : Z) : nat := Z.to_nat (ahi - alo).

Definition find_longest_match (sm : SequenceMatcher) (alo ahi blo bhi : Z) : Match :=
  let best := outer_loop sm (range alo ahi) blo bhi [] (alo, blo, 0) in
  let best := extend_back (while_fuel alo ahi) sm false alo blo best in
  let best := extend_fwd (while_fuel alo ahi) sm false ahi bhi best in
  let best := extend_back (while_fuel alo ahi) sm true alo blo best in
  let best := extend_fwd (while_fuel alo ahi) sm true ahi bhi best in
  best.

(** [while queue:]; the head of [queue] is the end of the Python list (where
    [pop] and [append] work). *)
Fixpoint blocks_loop (fuel : nat) (sm : SequenceMatcher)
  (queue : list (Z * Z * Z * Z)) (matching_blocks : list Match) : list Match :=
  match fuel with
  | O => matching_blocks
  | S fuel' =>
      match queue with
      | [] => matching_blocks
      | (alo, ahi, blo, bhi) :: queue =>
          let x := find_longest_match sm alo ahi blo bhi in
          let '(i, j, k) := x in
          if k =? 0 then blocks_loop fuel' sm queue matching_blocks
          else
            let matching_blocks := matching_blocks ++ [x] in
            let queue :=
              if (alo <? i) && (blo <? j) then (alo, i, blo, j) :: queue else queue in
            let queue :=
              if (i + k <? ahi) && (j + k <? bhi) then (i + k, ahi, j + k, bhi) :: queue
              else queue in
            blocks_loop fuel' sm queue matching_blocks
      end
  end.

(** [(i1, j1, k1) < (i2, j2, k2)] on tuples *)
Definition match_ltb (x y : Match) : bool :=
  let '(i1, j1, k1) := x in
  let '(i2, j2, k2) := y in
  if negb (i1 =? i2) then i1 <? i2
  else if negb (j1 =? j2) then j1 <? j2
  else k1 <? k2.

(** The loop that merges adjacent blocks; the state is
    [(i1, j1, k1, non_adjacent)]. *)
Fixpoint collapse (blocks : list Match) (cur : Match) (non_adjacent : list Match)
  : Match * list Match :=
  match blocks with
  | [] => (cur, non_adjacent)
  | (i2, j2, k2) :: rest =>
      let '(i1, j1, k1) := cur in
      if (i1 + k1 =? i2) && (j1 + k1 =? j2)
      then collapse rest (i1, j1, k1 + k2) non_adjacent
      else
        let non_adjacent :=
          if k1 =? 0 then non_adjacent else non_adjacent ++ [cur] in
        collapse rest (i2, j2, k2) non_adjacent
  end.

(** Every pass of the [while queue:] loop takes one entry and puts back
    entries that cover strictly less of [a]; [2 * len(a) + 1] passes empty the
    queue (lemma [blocks_loop_fuel]). *)
Definition queue_fuel (la : Z) : nat := Z.to_nat (2 * la + 1).

Definition get_matching_blocks (sm : SequenceMatcher) : list Match :=
  let la := Z.of_nat (List.length (a sm)) in
  let lb := Z.of_nat (List.length (b sm)) in
  let matching_blocks := blocks_loop (queue_fuel la) sm [(0, la, 0, lb)] [] in
  let matching_blocks := sort_by match_ltb matching_blocks in
  let '(cur, non_adjacent) := collapse matching_blocks (0, 0, 0) [] in
  let non_adjacent :=
    if size cur =? 0 then non_adjacent else non_adjacent ++ [cur] in
  non_adjacent ++ [(la, lb, 0)].

(** [sum(...)] over ints *)
Definition sum_Z (l : list Z) : Z := fold_left Z.add l 0.

(** [2.0 * matches / length]: both ints are converted to floats *)
Definition _calculate_ratio (matches length : Z) : Q :=
  if negb (length =? 0)
  then fdiv (fmul 2 (rnd (inject_Z matches))) (rnd (inject_Z length))
  else 1%Q.

Definition ratio (sm : SequenceMatcher) : Q :=
  let matches := sum_Z (map size (get_matching_blocks sm)) in
  _calculate_ratio matches (Z.of_nat (List.length (a sm)) + Z.of_nat (List.length (b sm))).

End difflib.

Definition chars (s : string) : list ascii := list_ascii_of_string s.

(** ** models.py *)

Inductive Cardinality : Type := ONE_TO_MANY | MANY_TO_ONE.

Definition Cardinality_eqb (x y : Cardinality) : bool :=
  match x, y with
  | ONE_TO_MANY, ONE_TO_MANY | MANY_TO_ONE, MANY_TO_ONE => true
  | _, _ => false
  end.

(** [sum(xs)] on floats: left to right from [0] *)
Definition py_sum (xs : list Q) : Q := fold_left fadd xs 0%Q.

Record FieldComparatorConfig : Type := {
  left_field : string;
  right_field : string;
  comparator : string;
  weight : Q;
  params : option (PyDict Value);
  must : bool;
  threshold : option Q
}.

Record Rule : Type := {
  name : string;
  description : option string;
  priority : Z;
  cardinality : Cardinality;
  match_threshold : Q;
  stop_on_first_rule_match : bool;
  fields : list FieldComparatorConfig
}.

Record RuleSet : Type := { rules : list Rule }.

(** [Field(1.0, ge=0.0)] on [weight] *)
Definition _validate_weight (v : Q) : result Q :=
  if Qgeb v 0 then Ok v
  else Raise (ValueError "Input should be greater than or equal to 0").

Definition _validate_threshold (v : option Q) : result (option Q) :=
  match v with
  | None => Ok v
  | Some t =>
      if negb (Qle_bool 0 t && Qle_bool t 1)
      then Raise (ValueError "threshold must be between 0 and 1")
      else Ok v
  end.

(** [Field(0.8, ge=0.0, le=1.0)] on [match_threshold] *)
Definition _validate_match_threshold (v : Q) : result Q :=
  if Qgeb v 0 && Qle_bool v 1 then Ok v
  else Raise (ValueError "Input should be between 0 and 1").

Definition _validate_fields_non_empty (v : list FieldComparatorConfig)
  : result (list FieldComparatorConfig) :=
  match v with
  | [] => Raise (ValueError "Rule must define at least one field comparator")
  | _ =>
      let total_weight := py_sum (map weight v) in
      if Qle_bool total_weight 0
      then Raise (ValueError "Sum of weights must be > 0")
      else Ok v
  end.

(** [(r.priority, r.name) < (r'.priority, r'.name)] *)
Definition rule_key_ltb (r r' : Rule) : bool :=
  if negb (priority r =? priority r') then priority r <? priority r'
  else String.ltb (name r) (name r').

Definition _validate_rules_non_empty (v : list Rule) : result (list Rule) :=
  match v with
  | [] => Raise (ValueError "RuleSet must contain at least one rule")
  | _ => Ok (sort_by rule_key_ltb v)
  end.

(** [FieldComparatorConfig(...)]: the validated constructor *)
Definition FieldComparatorConfig_new (c : FieldComparatorConfig)
  : result FieldComparatorConfig :=
  _ <- _validate_weight (weight c) ;;
  _ <- _validate_threshold (threshold c) ;;
  Ok c.

Fixpoint for_each {A B : Type} (f : A -> result B) (l : list A) : result (list B) :=
  match l with
  | [] => Ok []
  | x :: l' => y <- f x ;; ys <- for_each f l' ;; Ok (y :: ys)
  end.

(** [Rule(...)]: the validated constructor *)
Definition Rule_new (r : Rule) : result Rule :=
  _ <- _validate_match_threshold (match_threshold r) ;;
  _ <- for_each FieldComparatorConfig_new (fields r) ;;
  _ <- _validate_fields_non_empty (fields r) ;;
  Ok r.

(** [RuleSet(rules=v)] on a list of [Rule] objects: the field validator
    runs on the list and its return value is stored. *)
Definition RuleSet_new (v : list Rule) : result RuleSet :=
  sorted_rules <- _validate_rules_non_empty v ;;
  Ok {| rules := sorted_rules |}.

Inductive Detail : Type :=
| DValue (v : Value)
| DStrings (l : list string).

Definition Details : Type := PyDict Detail.

Record FieldScore : Type := {
  fs_left_field : string;
  fs_right_field : string;
  fs_comparator : string;
  fs_weight : Q;
  score : Q;
  passed : bool;
  details : Details
}.

Record PairScore : Type := {
  left_id : string;
  right_id : string;
  rule_name : string;
  total_score : Q;
  matched : bool;
  field_scores : list FieldScore;
  weight_sum : Q
}.

Record EngineResult : Type := {
  res_cardinality : Cardinality;
  indexed_by : string;
  matches_index : PyDict (list PairScore);
  unmatched_left_ids : list string;
  unmatched_right_ids : list string
}.

(** ** registry.py *)

(** The [context] mapping the engine hands to a comparator *)
Record Context : Type := {
  ctx_left : PyDict Value;
  ctx_right : PyDict Value;
  ctx_rule : Rule
}.

Definition ComparatorFunc : Type :=
  Value -> Value -> option Context -> option (PyDict Value) -> result (Q * Details).

Module ComparatorRegistry.

Record t : Type := {
  _name_to_comparator : PyDict ComparatorFunc;
  _name_to_description : PyDict string
}.

Definition new : t := {| _name_to_comparator := []; _name_to_description := [] |}.

Definition register (self : t) (name : string) (func : ComparatorFunc)
  (description : option string) : result t :=
  let normalized := lower (strip name) in
  if String.eqb normalized EmptyString
  then Raise (ValueError "Comparator name cannot be empty")
  else
    Ok {| _name_to_comparator := dict_set (_name_to_comparator self) normalized func;
          _name_to_description :=
            match description with
            | Some d =>
                if String.eqb d EmptyString then _name_to_description self
                else dict_set (_name_to_description self) normalized d
            | None => _name_to_description self
            end |}.

Definition names (self : t) : list string :=
  sorted_str (dict_keys (_name_to_comparator self)).

Definition get (self : t) (name : string) : result ComparatorFunc :=
  let normalized := lower (strip name) in
  match dict_get (_name_to_comparator self) normalized with
  | Some func => Ok func
  | None =>
      let available := String.concat ", " (sorted_str (dict_keys (_name_to_comparator self))) in
      Raise (KeyError (String.append "Comparator '"
                        (String.append name
                           (String.append "' not found. Available: " available))))
  end.

Definition describe (self : t) (name : string) : option string :=
  dict_get (_name_to_description self) (lower (strip name)).

Definition evaluate (self : t) (name : string) (left_value right_value : Value)
  (context : option Context) (params : option (PyDict Value)) : result (Q * Details) :=
  comparator <- get self name ;;
  comparator left_value right_value context params.

End ComparatorRegistry.

(** ** comparators.py *)

Section Comparators.

Context `{PyLib}.

Definition _to_string (value : Value) : option string :=
  match value with
  | VNone => None
  | _ => Some (str value)
  end.

Definition _normalize_text (value : Value) (case_insensitive strip_flag : bool)
  : option string :=
  match _to_string value with
  | None => None
  | Some s =>
      let s := if strip_flag then strip s else s in
      let s := if case_insensitive then lower s else s in
      Some s
  end.

Definition _safe_float (value : Value) : option Q :=
  match value with
  | VNone => None
  | _ => except_none (py_float value)
  end.

(** [for fmt in (...): try: return strptime(s, fmt)] *)
Fixpoint try_formats (s : string) (fmts : list string) : option Z :=
  match fmts with
  | [] => None
  | fmt :: rest =>
      match date_strptime s fmt with
      | Some d => Some d
      | None => try_formats s rest
      end
  end.

(** A date is the number of its day; no value of a record is a [date]
    object, so the [isinstance] shortcut is never taken. *)
Definition _parse_date (value : Value) : option Z :=
  match value with
  | VNone => None
  | _ =>
      match _to_string value with
      | None => None
      | Some s =>
          let s := strip s in
          match date_fromisoformat s with
          | Some d => Some d
          | None =>
              match try_formats s ["%Y-%m-%d"; "%m/%d/%Y"; "%d/%m/%Y"; "%Y/%m/%d"] with
              | Some d => Some d
              | None => dateutil_parse s
              end
          end
      end
  end.

(** [params = {}] when [params is None] *)
Definition params_or_empty (params : option (PyDict Value)) : PyDict Value :=
  match params with
  | Some p => p
  | None => []
  end.

Definition cmp_exact (left right : Value) (_context : option Context)
  (_params : option (PyDict Value)) : result (Q * Details) :=
  if py_eq left right && negb (match left with VNone => true | _ => false end)
  then Ok (1%Q, [("match", DValue (VBool true))])
  else Ok (0%Q, [("match", DValue (VBool false))]).

Definition cmp_icase_exact (left right : Value) (_context : option Context)
  (params : option (PyDict Value)) : result (Q * Details) :=
  let li := _normalize_text left true true in
  let ri := _normalize_text right true true in
  match li, ri with
  | Some li, Some ri =>
      if String.eqb li ri then Ok (1%Q, [("match", DValue (VBool true))])
      else Ok (0%Q, [("match", DValue (VBool false))])
  | _, _ => Ok (0%Q, [("reason", DValue (VStr "missing"))])
  end.

Definition cmp_ratio (left right : Value) (_context : option Context)
  (params : option (PyDict Value)) : result (Q * Details) :=
  let params := params_or_empty params in
  let case_insensitive := py_bool (get_value_or params "case_insensitive" (VBool true)) in
  let li := _normalize_text left case_insensitive true in
  let ri := _normalize_text right case_insensitive true in
  match li, ri with
  | Some li, Some ri =>
      let ratio := difflib.ratio (difflib.new (chars li) (chars ri)) in
      Ok (ratio, [("ratio", DValue (VFloat ratio))])
  | _, _ => Ok (0%Q, [("reason", DValue (VStr "missing"))])
  end.

Definition is_alnum (c : ascii) : bool :=
  let n := Z.of_nat (nat_of_ascii c) in
  ((48 <=? n) && (n <=? 57)) || ((65 <=? n) && (n <=? 90)) || ((97 <=? n) && (n <=? 122)).

(** The scan of [re.split] for the pattern [[^0-9a-zA-Z]+]: [cur] holds the
    piece being read (reversed), [in_sep] tells that the previous character
    belonged to a separator. *)
Fixpoint split_scan (l : list ascii) (cur : list ascii) (in_sep : bool) : list string :=
  match l with
  | [] => [string_of_list_ascii (rev cur)]
  | c :: l' =>
      if is_alnum c then split_scan l' (c :: cur) false
      else if in_sep then split_scan l' cur true
      else string_of_list_ascii (rev cur) :: split_scan l' [] true
  end.

Definition re_split_non_alnum (s : string) : list string :=
  split_scan (chars s) [] false.

(** Sets of strings are duplicate-free lists. *)
Definition set_of (l : list string) : list string := nodup string_dec l.
Definition set_inter (x y : list string) : list string :=
  filter (fun t => str_mem t y) x.
Definition set_union (x y : list string) : list string := set_of (x ++ y).

Definition _tokens (s : string) (min_token_len : Z) : list string :=
  let raw := re_split_non_alnum s in
  set_of (filter (fun t => len t >=? min_token_len) raw).

Definition is_empty {A : Type} (l : list A) : bool :=
  match l with
  | [] => true
  | _ => false
  end.

(** [x / y] on two floats, or on two ints whose quotient is in the range of
    the floats *)
Definition py_div (x y : Q) : result Q :=
  if Qeq_bool y 0 then Raise ZeroDivisionError else Ok (fdiv x y).

Definition cmp_jaccard (left right : Value) (_context : option Context)
  (params : option (PyDict Value)) : result (Q * Details) :=
  let params := params_or_empty params in
  let case_insensitive := py_bool (get_value_or params "case_insensitive" (VBool true)) in
  min_token_len <- py_int (get_value_or params "min_token_len" (VInt 2)) ;;
  let li := _normalize_text left case_insensitive true in
  let ri := _normalize_text right case_insensitive true in
  match li, ri with
  | Some li, Some ri =>
      let lt := _tokens li min_token_len in
      let rt := _tokens ri min_token_len in
      if is_empty lt && is_empty rt
      then Ok (0%Q, [("reason", DValue (VStr "no_tokens"))])
      else
        let intersection := set_inter lt rt in
        let union := set_union lt rt in
        score <- py_div (inject_Z (Z.of_nat (List.length intersection)))
                        (inject_Z (Z.of_nat (List.length union))) ;;
        Ok (score, [("intersection", DStrings (sorted_str intersection));
                    ("union_size", DValue (VInt (Z.of_nat (List.length union))))])
  | _, _ => Ok (0%Q, [("reason", DValue (VStr "missing"))])
  end.

(** [s in t] on strings *)
Fixpoint str_in (s t : string) : bool :=
  if String.prefix s t then true
  else
    match t with
    | EmptyString => false
    | String _ t' => str_in s t'
    end.

Definition cmp_contains (left right : Value) (_context : option Context)
  (params : option (PyDict Value)) : result (Q * Details) :=
  let params := params_or_empty params in
  let case_insensitive := py_bool (get_value_or params "case_insensitive" (VBool true)) in
  let direction := str (get_value_or params "direction" (VStr "left_in_right")) in
  let li := _normalize_text left case_insensitive true in
  let ri := _normalize_text right case_insensitive true in
  match li, ri with
  | Some li, Some ri =>
      if String.eqb direction "left_in_right" then
        let found := str_in li ri in
        Ok ((if found then 1%Q else 0%Q),
            [("found", DValue (VBool found)); ("direction", DValue (VStr direction))])
      else if String.eqb direction "right_in_left" then
        let found := str_in ri li in
        Ok ((if found then 1%Q else 0%Q),
            [("found", DValue (VBool found)); ("direction", DValue (VStr direction))])
      else
        Ok (0%Q, [("reason", DValue (VStr "bad_direction"));
                  ("direction", DValue (VStr direction))])
  | _, _ => Ok (0%Q, [("reason", DValue (VStr "missing"))])
  end.

Definition cmp_numeric_distance (left right : Value) (_context : option Context)
  (params : option (PyDict Value)) : result (Q * Details) :=
  let params := params_or_empty params in
  max_distance <- py_float (get_value_or params "max_distance" (VFloat 1)) ;;
  let lf := _safe_float left in
  let rf := _safe_float right in
  match lf, rf with
  | Some lf, Some rf =>
      let diff := py_abs (fsub lf rf) in
      q <- py_div diff max_distance ;;
      let score := py_max 0 (fsub 1 q) in
      Ok (score, [("difference", DValue (VFloat diff));
                  ("max_distance", DValue (VFloat max_distance))])
  | _, _ => Ok (0%Q, [("reason", DValue (VStr "not_numeric"))])
  end.

Definition cmp_date_distance_days (left right : Value) (_context : option Context)
  (params : option (PyDict Value)) : result (Q * Details) :=
  let params := params_or_empty params in
  max_days <- py_int (get_value_or params "max_days" (VInt 1)) ;;
  let ld := _parse_date left in
  let rd := _parse_date right in
  match ld, rd with
  | Some ld, Some rd =>
      let days := Z.abs (ld - rd) in
      q <- py_div (inject_Z days) (inject_Z max_days) ;;
      let score := py_max 0 (fsub 1 q) in
      Ok (score, [("days", DValue (VInt days)); ("max_days", DValue (VInt max_days))])
  | _, _ => Ok (0%Q, [("reason", DValue (VStr "not_date"))])
  end.

Definition register_default_comparators (registry : ComparatorRegistry.t)
  : result ComparatorRegistry.t :=
  registry <- ComparatorRegistry.register registry "exact" cmp_exact
                (Some "Exact equality comparison (case sensitive)") ;;
  registry <- ComparatorRegistry.register registry "icase_exact" cmp_icase_exact
                (Some "Exact equality ignoring case and surrounding spaces") ;;
  registry <- ComparatorRegistry.register registry "ratio" cmp_ratio
                (Some "SequenceMatcher similarity ratio (0..1)") ;;
  registry <- ComparatorRegistry.register registry "jaccard" cmp_jaccard
                (Some "Jaccard similarity of token sets") ;;
  registry <- ComparatorRegistry.register registry "contains" cmp_contains
                (Some "Substring containment with direction and case options") ;;
  registry <- ComparatorRegistry.register registry "numeric_distance" cmp_numeric_distance
                (Some "Numeric distance scaled to 0..1 by max_distance") ;;
  ComparatorRegistry.register registry "date_distance_days" cmp_date_distance_days
    (Some "Date distance in days scaled by max_days").

(** [default_registry] after [register_default_comparators(default_registry)];
    the seven registrations succeed (lemma [default_registry_registered]). *)
Definition default_registry : ComparatorRegistry.t :=
  match register_default_comparators ComparatorRegistry.new with
  | Ok registry => registry
  | Raise _ => ComparatorRegistry.new
  end.

End Comparators.

(** ** engine.py *)

Module MatchingEngine.

Section Engine.

Context `{PyLib}.

(** The engine object: [self.registry] *)
Record t : Type := { registry : ComparatorRegistry.t }.

(** [MatchingEngine(registry)]: [registry or default_registry] *)
Definition new (registry : option ComparatorRegistry.t) : t :=
  {| registry := match registry with
                 | Some r => r
                 | None => default_registry
                 end |}.

(** The body of [for fc in rule.fields], with the loop's three variables *)
Fixpoint score_fields (self : t) (left right : PyDict Value) (rule : Rule)
  (fcs : list FieldComparatorConfig) (field_scores : list FieldScore)
  (weighted_sum : Q) (all_must_pass : bool)
  : result (list FieldScore * Q * bool) :=
  match fcs with
  | [] => Ok (field_scores, weighted_sum, all_must_pass)
  | fc :: rest =>
      let left_value := get_value left (left_field fc) in
      let right_value := get_value right (right_field fc) in
      '(score, details) <-
        ComparatorRegistry.evaluate (registry self) (comparator fc) left_value right_value
          (Some {| ctx_left := left; ctx_right := right; ctx_rule := rule |})
          (Some (params_or_empty (params fc))) ;;
      let passed :=
        Qgeb score (match threshold fc with
                    | Some t => t
                    | None => 0%Q
                    end) in
      let all_must_pass := if must fc && negb passed then false else all_must_pass in
      let weighted_sum := fadd weighted_sum (fmul score (weight fc)) in
      let field_scores :=
        field_scores ++ [{| fs_left_field := left_field fc;
                            fs_right_field := right_field fc;
                            fs_comparator := comparator fc;
                            fs_weight := weight fc;
                            score := score;
                            passed := passed;
                            details := details |}] in
      score_fields self left right rule rest field_scores weighted_sum all_must_pass
  end.

Definition _score_pair (self : t) (left right : PyDict Value) (rule : Rule)
  : result PairScore :=
  let total_weight := py_sum (map weight (fields rule)) in
  '(field_scores, weighted_sum, all_must_pass) <-
    score_fields self left right rule (fields rule) [] 0%Q true ;;
  let total_score :=
    if Qgtb total_weight 0 then fdiv weighted_sum total_weight else 0%Q in
  let matched := all_must_pass && Qgeb total_score (match_threshold rule) in
  Ok {| left_id := str (get_value_or left "id" (VStr "<no-id>"));
        right_id := str (get_value_or right "id" (VStr "<no-id>"));
        rule_name := name rule;
        total_score := total_score;
        matched := matched;
        field_scores := field_scores;
        weight_sum := total_weight |}.

(** [for rule in rules]: [inl] is the early [return], [inr best] the state
    when the loop runs to its end. *)
Fixpoint rules_loop (self : t) (left right : PyDict Value) (rules : list Rule)
  (best : option PairScore) : result (PairScore + option PairScore) :=
  match rules with
  | [] => Ok (inr best)
  | rule :: rest =>
      pair_score <- _score_pair self left right rule ;;
      if matched pair_score then Ok (inl pair_score)
      else
        let best :=
          match best with
          | None => Some pair_score
          | Some b =>
              if Qgtb (total_score pair_score) (total_score b) then Some pair_score
              else best
          end in
        rules_loop self left right rest best
  end.

Definition _evaluate_rules_for_pair (self : t) (left right : PyDict Value)
  (rules : list Rule) : result PairScore :=
  r <- rules_loop self left right rules None ;;
  match r with
  | inl pair_score => Ok pair_score
  | inr (Some best) => Ok best
  | inr None =>
      match rules with
      | rule0 :: _ => _score_pair self left right rule0
      | [] => Raise IndexError
      end
  end.

(** [(-s.total_score, s.rule_name) < (-s'.total_score, s'.rule_name)] *)
Definition match_key_ltb (s s' : PairScore) : bool :=
  if negb (Qeq_bool (- total_score s) (- total_score s'))
  then Qgtb (- total_score s') (- total_score s)
  else String.ltb (rule_name s) (rule_name s').

(** [{str(r.get(id_field)): r for r in records}] *)
Definition id_map (records : list (PyDict Value)) (id_field : string)
  : PyDict (PyDict Value) :=
  fold_left (fun d r => dict_set d (str (get_value r id_field)) r) records [].

Definition with_unmatched_left (res : EngineResult) (ids : list string) : EngineResult :=
  {| res_cardinality := res_cardinality res;
     indexed_by := indexed_by res;
     matches_index := matches_index res;
     unmatched_left_ids := ids;
     unmatched_right_ids := unmatched_right_ids res |}.

Definition with_unmatched_right (res : EngineResult) (ids : list string) : EngineResult :=
  {| res_cardinality := res_cardinality res;
     indexed_by := indexed_by res;
     matches_index := matches_index res;
     unmatched_left_ids := unmatched_left_ids res;
     unmatched_right_ids := ids |}.

Definition with_matches (res : EngineResult) (key : string) (matches : list PairScore)
  : EngineResult :=
  {| res_cardinality := res_cardinality res;
     indexed_by := indexed_by res;
     matches_index := dict_set (matches_index res) key matches;
     unmatched_left_ids := unmatched_left_ids res;
     unmatched_right_ids := unmatched_right_ids res |}.

(** The part of the loop body after [scores] is filled: filter, sort, cut. *)
Definition keep_matches (scores : list PairScore) (top_k : option Z) : list PairScore :=
  let matches := filter matched scores in
  let matches := sort_by match_key_ltb matches in
  match top_k with
  | Some k => slice_to matches k
  | None => matches
  end.

(** [for left in left_list] of the left-indexed branch *)
Fixpoint index_left_loop (self : t) (lefts right_list : list (PyDict Value))
  (rules : list Rule) (left_id_field : string) (top_k : option Z)
  (res : EngineResult) : result EngineResult :=
  match lefts with
  | [] => Ok res
  | record :: rest =>
      let left := record in
      let left_id := str (get_value left left_id_field) in
      scores <- for_each (fun right => _evaluate_rules_for_pair self left right rules)
                  right_list ;;
      let matches := filter matched scores in
      if is_empty matches then
        index_left_loop self rest right_list rules left_id_field top_k
          (with_unmatched_left res (unmatched_left_ids res ++ [left_id]))
      else
        index_left_loop self rest right_list rules left_id_field top_k
          (with_matches res left_id (keep_matches scores top_k))
  end.

(** [for right in right_list] of the right-indexed branch *)
Fixpoint index_right_loop (self : t) (rights left_list : list (PyDict Value))
  (rules : list Rule) (right_id_field : string) (top_k : option Z)
  (res : EngineResult) : result EngineResult :=
  match rights with
  | [] => Ok res
  | record :: rest =>
      let right := record in
      let right_id := str (get_value right right_id_field) in
      scores <- for_each (fun left => _evaluate_rules_for_pair self left right rules)
                  left_list ;;
      let matches := filter matched scores in
      if is_empty matches then
        index_right_loop self rest left_list rules right_id_field top_k
          (with_unmatched_right res (unmatched_right_ids res ++ [right_id]))
      else
        index_right_loop self rest left_list rules right_id_field top_k
          (with_matches res right_id (keep_matches scores top_k))
  end.

Definition match_ (self : t) (left_records right_records : list (PyDict Value))
  (ruleset : RuleSet) (cardinality : Cardinality)
  (left_id_field right_id_field : string) (top_k : option Z) : result EngineResult :=
  let left_list := left_records in
  let right_list := right_records in
  let rules := rules ruleset in
  let index_side := if Cardinality_eqb cardinality ONE_TO_MANY then "left" else "right" in
  let res := {| res_cardinality := cardinality;
                indexed_by := index_side;
                matches_index := [];
                unmatched_left_ids := [];
                unmatched_right_ids := [] |} in
  let left_map := id_map left_list left_id_field in
  let right_map := id_map right_list right_id_field in
  if String.eqb index_side "left" then
    res <- index_left_loop self left_list right_list rules left_id_field top_k res ;;
    let matched_right_ids :=
      flat_map (fun lst => map right_id lst) (dict_values (matches_index res)) in
    Ok (with_unmatched_right res
          (filter (fun rid => negb (str_mem rid matched_right_ids)) (dict_keys right_map)))
  else
    res <- index_right_loop self right_list left_list rules right_id_field top_k res ;;
    let matched_left_ids :=
      flat_map (fun lst => map left_id lst) (dict_values (matches_index res)) in
    Ok (with_unmatched_left res
          (filter (fun lid => negb (str_mem lid matched_left_ids)) (dict_keys left_map))).

End Engine.

End MatchingEngine.

(** ** A concrete runtime for evaluating examples

    Integers in plain decimal notation are the only texts read as numbers;
    no text is read as a date. *)

Definition digit_of (c : ascii) : option Z :=
  let n := Z.of_nat (nat_of_ascii c) in
  if (48 <=? n) && (n <=? 57) then Some (n - 48) else None.

Fixpoint digits_value (l : list ascii) (acc : Z) : option Z :=
  match l with
  | [] => Some acc
  | c :: l' =>
      match digit_of c with
      | Some d => digits_value l' (10 * acc + d)
      | None => None
      end
  end.

Definition basic_int_of_str (s : string) : option Z :=
  match chars (strip s) with
  | [] => None
  | "-"%char :: (_ :: _ as l) => option_map Z.opp (digits_value l 0)
  | l => digits_value l 0
  end.

(** [float(s)] on such a text: the nearest float; a text whose number is
    beyond the finite floats is not read (Python reads it as an infinity). *)
Definition basic_float_of_str (s : string) : option Q :=
  match basic_int_of_str s with
  | Some n => let x := rnd (inject_Z n) in if finite64 x then Some x else None
  | None => None
  end.

#[export] Instance BasicLib : PyLib := {|
  float_of_str := basic_float_of_str;
  int_of_str := basic_int_of_str;
  float_repr := fun q => String.append (str_of_int (Qnum q))
                           (String.append "/" (str_of_int (Zpos (Qden q))));
  date_fromisoformat := fun _ => None;
  date_strptime := fun _ _ => None;
  dateutil_parse := fun _ => None
|}.

(** * Vocabulary of the properties

    The predicates and functions the theorems are stated with, and the data
    the examples run on. *)

Section Vocabulary.

Context `{PyLib}.

Import MatchingEngine.








(** Rule [r] scores the pair without matching it. *)
Definition scores_unmatched (self : t) (left right : PyDict Value) (r : Rule)
  (ps : PairScore) : Prop :=
  _score_pair self left right r = Ok ps /\ matched ps = false.

(** [b], at position [i], is the first of the highest scores of [scores]. *)
Definition first_highest (scores : list PairScore) (i : nat) (b : PairScore) : Prop :=
  nth_error scores i = Some b
  /\ forall j ps, nth_error scores j = Some ps ->
       (total_score ps <= total_score b)%Q
       /\ ((j < i)%nat -> (total_score ps < total_score b)%Q).

(** How rule selection settles a pair under a list of rules: on the score
    of the first rule, in list order, that matches the pair; or, when no rule
    matches it, on the first of the highest scores. *)
Definition chosen_in_order (self : t) (left right : PyDict Value) (rules : list Rule)
  (ps : PairScore) : Prop :=
  (matched ps = true
   /\ exists pre r post,
        rules = pre ++ r :: post
        /\ Forall (fun r' => exists ps', scores_unmatched self left right r' ps') pre
        /\ _score_pair self left right r = Ok ps)
  \/ (matched ps = false
      /\ exists scores i,
           Forall2 (scores_unmatched self left right) rules scores
           /\ first_highest scores i ps).

(** [str(r.get(id_field))] *)
Definition record_id (id_field : string) (r : PyDict Value) : string :=
  str (get_value r id_field).

(** The scores of one left record against every right record, and of one
    right record against every left record *)
Definition score_left (self : t) (right_list : list (PyDict Value)) (rules : list Rule)
  (left : PyDict Value) : result (list PairScore) :=
  for_each (fun right => _evaluate_rules_for_pair self left right rules) right_list.

Definition score_right (self : t) (left_list : list (PyDict Value)) (rules : list Rule)
  (right : PyDict Value) : result (list PairScore) :=
  for_each (fun left => _evaluate_rules_for_pair self left right rules) left_list.

(** An index record with no matched pair *)
Definition no_match (score_against : PyDict Value -> result (list PairScore))
  (record : PyDict Value) : bool :=
  match score_against record with
  | Ok scores => is_empty (filter matched scores)
  | Raise _ => false
  end.

(** The records that key the index, their id field, and the scoring of one
    of them against the other side *)
Definition index_records (cardinality : Cardinality)
  (left_records right_records : list (PyDict Value)) : list (PyDict Value) :=
  match cardinality with
  | ONE_TO_MANY => left_records
  | MANY_TO_ONE => right_records
  end.

(** The record of a pair that keys the index *)
Definition index_record (cardinality : Cardinality) (left right : PyDict Value)
  : PyDict Value :=
  match cardinality with
  | ONE_TO_MANY => left
  | MANY_TO_ONE => right
  end.

Definition index_id_field (cardinality : Cardinality)
  (left_id_field right_id_field : string) : string :=
  match cardinality with
  | ONE_TO_MANY => left_id_field
  | MANY_TO_ONE => right_id_field
  end.

Definition score_index (self : t) (cardinality : Cardinality)
  (left_records right_records : list (PyDict Value)) (rules : list Rule)
  : PyDict Value -> result (list PairScore) :=
  match cardinality with
  | ONE_TO_MANY => score_left self right_records rules
  | MANY_TO_ONE => score_right self left_records rules
  end.

(** Ascending [(priority, name)] *)
Definition rule_key_le (r r' : Rule) : Prop :=
  priority r < priority r'
  \/ (priority r = priority r' /\ String.leb (name r) (name r') = true).

(** Descending [total_score], then ascending [rule_name] *)
Definition pair_order (s s' : PairScore) : Prop :=
  (total_score s' < total_score s)%Q
  \/ ((total_score s == total_score s')%Q
      /\ String.leb (rule_name s) (rule_name s') = true).

(** The text of the [KeyError] raised by [get] *)
Definition not_found_message (name : string) (registered : list string) : string :=
  String.append "Comparator '"
    (String.append name
       (String.append "' not found. Available: " (String.concat ", " registered))).

(** No comparator is registered under the normalized [name]. *)
Definition unregistered (registry : ComparatorRegistry.t) (name : string) : Prop :=
  dict_get (ComparatorRegistry._name_to_comparator registry) (lower (strip name)) = None.

(** The exception [e] left a comparator call that binding [fc] of rule [r]
    makes on some pair: a failed lookup, or the comparator itself. *)
Definition raised_by_binding (self : t) (r : Rule) (fc : FieldComparatorConfig)
  (e : exn) : Prop :=
  In fc (fields r)
  /\ ((unregistered (registry self) (comparator fc)
       /\ e = KeyError (not_found_message (comparator fc)
                          (ComparatorRegistry.names (registry self))))
      \/ exists func l r' c p,
           dict_get (ComparatorRegistry._name_to_comparator (registry self))
             (lower (strip (comparator fc))) = Some func
           /\ func l r' c p = Raise e).






Definition case_flag (params : option (PyDict Value)) : bool :=
  py_bool (get_value_or (params_or_empty params) "case_insensitive" (VBool true)).

Definition direction_of (params : option (PyDict Value)) : string :=
  str (get_value_or (params_or_empty params) "direction" (VStr "left_in_right")).

(** The name under which the registry files a comparator *)
Definition normalized (name : string) : string := lower (strip name).

(** A text of whitespace only *)
Definition blank (s : string) : Prop := Forall (fun c => is_space c = true) (chars s).

(** The seven registrations of [register_default_comparators] *)
Definition builtin_comparators : list (string * (ComparatorFunc * string)) :=
  [("exact", (cmp_exact, "Exact equality comparison (case sensitive)"));
   ("icase_exact", (cmp_icase_exact, "Exact equality ignoring case and surrounding spaces"));
   ("ratio", (cmp_ratio, "SequenceMatcher similarity ratio (0..1)"));
   ("jaccard", (cmp_jaccard, "Jaccard similarity of token sets"));
   ("contains", (cmp_contains, "Substring containment with direction and case options"));
   ("numeric_distance", (cmp_numeric_distance, "Numeric distance scaled to 0..1 by max_distance"));
   ("date_distance_days", (cmp_date_distance_days, "Date distance in days scaled by max_days"))].

Definition builtin_name (name : string) : Prop :=
  In (normalized name) (map fst builtin_comparators).

(** [s] occurs inside [t]. *)
Definition substring_of (s t : string) : Prop :=
  exists pre post, t = String.append pre (String.append s post).

(** [w] is a whole word of [s]: a run of letters and digits that no letter
    or digit precedes or follows. *)
Definition word_of (w s : string) : Prop :=
  exists pre post,
    chars s = pre ++ chars w ++ post
    /\ forallb is_alnum (chars w) = true
    /\ is_alnum (last pre " "%char) = false
    /\ is_alnum (hd " "%char post) = false.

(** What the validators of [FieldComparatorConfig] and [Rule] ask for *)
Definition valid_binding (fc : FieldComparatorConfig) : Prop :=
  (0 <= weight fc)%Q
  /\ match threshold fc with
     | Some t => (0 <= t <= 1)%Q
     | None => True
     end.

Definition valid_rule (r : Rule) : Prop :=
  (0 <= match_threshold r <= 1)%Q
  /\ Forall valid_binding (fields r)
  /\ fields r <> []
  /\ (0 < py_sum (map weight (fields r)))%Q.

(** The rules of a list that carry the sort key [(priority, name)] *)
Definition with_key (prio : Z) (rule_name : string) (v : list Rule) : list Rule :=
  filter (fun r => (priority r =? prio) && String.eqb (name r) rule_name) v.


(** The side a run is indexed by, as [indexed_by] spells it *)
Definition index_side (cardinality : Cardinality) : string :=
  match cardinality with
  | ONE_TO_MANY => "left"
  | MANY_TO_ONE => "right"
  end.

(** The id a pair score carries for the index side, and for the other side *)
Definition index_id (cardinality : Cardinality) (ps : PairScore) : string :=
  match cardinality with
  | ONE_TO_MANY => left_id ps
  | MANY_TO_ONE => right_id ps
  end.

Definition opposite_id (cardinality : Cardinality) (ps : PairScore) : string :=
  match cardinality with
  | ONE_TO_MANY => right_id ps
  | MANY_TO_ONE => left_id ps
  end.

(** The records of the side opposite to the index, their id field, and the
    unmatched list of that side *)
Definition opposite_records (cardinality : Cardinality)
  (left_records right_records : list (PyDict Value)) : list (PyDict Value) :=
  match cardinality with
  | ONE_TO_MANY => right_records
  | MANY_TO_ONE => left_records
  end.

Definition opposite_id_field (cardinality : Cardinality)
  (left_id_field right_id_field : string) : string :=
  match cardinality with
  | ONE_TO_MANY => right_id_field
  | MANY_TO_ONE => left_id_field
  end.

Definition opposite_unmatched (cardinality : Cardinality) (res : EngineResult) : list string :=
  match cardinality with
  | ONE_TO_MANY => unmatched_right_ids res
  | MANY_TO_ONE => unmatched_left_ids res
  end.

Definition index_unmatched (cardinality : Cardinality) (res : EngineResult) : list string :=
  match cardinality with
  | ONE_TO_MANY => unmatched_left_ids res
  | MANY_TO_ONE => unmatched_right_ids res
  end.

End Vocabulary.

(** ** Example data *)

(** The float that a decimal literal of a rule file denotes *)
Definition float_literal (q : Q) : Q := rnd q.

Definition binding (field comparator_name : string) (w : Q) (must_flag : bool)
  (thr : option Q) : FieldComparatorConfig :=
  {| left_field := field; right_field := field; comparator := comparator_name;
     weight := w; params := None; must := must_flag; threshold := thr |}.

Definition rule_of (rule_name : string) (prio : Z) (thr : Q)
  (bindings : list FieldComparatorConfig) : Rule :=
  {| name := rule_name; description := None; priority := prio;
     cardinality := ONE_TO_MANY; match_threshold := thr;
     stop_on_first_rule_match := true; fields := bindings |}.

Definition person (id email full_name : string) : PyDict Value :=
  [("id", VStr id); ("email", VStr email); ("name", VStr full_name)].

Definition engine : MatchingEngine.t := MatchingEngine.new None.


(** Rules for one pair: [a_name] fails its [must] when the names differ,
    [b_email] matches equal e-mails with its flag off, [c_unknown] names a
    comparator nobody registered, [d_ratio] asks for near-equal e-mails. *)
Definition rule_name_exact : Rule :=
  rule_of "a_name" 1 (1 # 2) [binding "name" "exact" 1 true (Some 1%Q)].

Definition rule_email_unflagged : Rule :=
  {| name := "b_email"; description := None; priority := 2;
     cardinality := ONE_TO_MANY; match_threshold := float_literal (8 # 10);
     stop_on_first_rule_match := false;
     fields := [binding "email" "icase_exact" 1 false None] |}.

Definition rule_unknown_comparator : Rule :=
  rule_of "c_unknown" 3 (1 # 2) [binding "email" "soundex" 1 false None].

Definition rule_email_ratio : Rule :=
  rule_of "d_ratio" 4 (float_literal (9 # 10)) [binding "email" "ratio" 1 false None].

Definition email_ruleset : RuleSet := {| rules := [rule_email_unflagged] |}.

(** Records whose identifier lives under ["key"], not ["id"] *)
Definition keyed (key email : string) : PyDict Value :=
  [("key", VStr key); ("email", VStr email)].

Definition ruleset_name_then_unknown : RuleSet :=
  {| rules := [rule_name_exact; rule_unknown_comparator] |}.

Definition ruleset_email_then_unknown : RuleSet :=
  {| rules := [rule_email_unflagged; rule_unknown_comparator] |}.

(** Texts with characters beyond ASCII: a no-break space (code point 160)
    and a next-line control (133), and the word [ecole] written with a
    capital E acute (201) behind a no-break space, and with a small e acute
    (233) before capitals *)
Definition latin1_blank : string := String "160"%char (String "133"%char " ").
Definition ecole_padded : string := String "160"%char (String "201"%char "cole").
Definition ecole_capitals : string := String "233"%char "COLE".
Definition ecole : string := String "233"%char "cole".




(** A runtime that also reads dates written [YYYY-MM-DD], as the day number
    [date.toordinal()] gives; used by the examples on dates. *)

Definition is_leap (y : Z) : bool :=
  (y mod 4 =? 0) && (negb (y mod 100 =? 0) || (y mod 400 =? 0)).

Definition days_in_month (y m : Z) : Z :=
  if m =? 2 then (if is_leap y then 29 else 28)
  else if (m =? 4) || (m =? 6) || (m =? 9) || (m =? 11) then 30 else 31.

Definition toordinal (y m d : Z) : Z :=
  let before_year := (y - 1) * 365 + (y - 1) / 4 - (y - 1) / 100 + (y - 1) / 400 in
  let before_month :=
    fold_left Z.add (map (days_in_month y) (difflib.range 1 m)) 0 in
  before_year + before_month + d.

Definition iso_date (s : string) : option Z :=
  match chars s with
  | [y1; y2; y3; y4; "-"%char; m1; m2; "-"%char; d1; d2] =>
      match digits_value [y1; y2; y3; y4] 0, digits_value [m1; m2] 0, digits_value [d1; d2] 0 with
      | Some y, Some m, Some d =>
          if (1 <=? y) && (1 <=? m) && (m <=? 12) && (1 <=? d) && (d <=? days_in_month y m)
          then Some (toordinal y m d) else None
      | _, _, _ => None
      end
  | _ => None
  end.

Definition IsoDateLib : PyLib := {|
  float_of_str := basic_float_of_str;
  int_of_str := basic_int_of_str;
  float_repr := fun q => String.append (str_of_int (Qnum q))
                           (String.append "/" (str_of_int (Zpos (Qden q))));
  date_fromisoformat := iso_date;
  date_strptime := fun _ _ => None;
  dateutil_parse := fun _ => None
|}.

(** * Properties *)

(** ** Results *)

Lemma bind_Ok {A B : Type} (m : result A) (k : A -> result B) (b : B) :
  bind m k = Ok b -> exists a, m = Ok a /\ k a = Ok b.
Proof.
  destruct m as [a | e]; simpl; intros Hk; [eauto | discriminate].
Qed.

Lemma bind_Raise {A B : Type} (m : result A) (k : A -> result B) (e : exn) :
  bind m k = Raise e -> m = Raise e \/ exists a, m = Ok a /\ k a = Raise e.
Proof.
  destruct m as [a | e']; simpl; intros Hk; [right; eauto | left; congruence].
Qed.

Lemma for_each_Ok {A B : Type} (f : A -> result B) (l : list A) (ys : list B) :
  for_each f l = Ok ys -> Forall2 (fun x y => f x = Ok y) l ys.
Proof.
  revert ys; induction l as [| x l IH]; simpl; intros ys Hys.
  - injection Hys as <-. constructor.
  - apply bind_Ok in Hys as (y & Hy & Hys).
    apply bind_Ok in Hys as (ys' & Hys' & Hys).
    injection Hys as <-. constructor; auto.
Qed.

Lemma for_each_Raise {A B : Type} (f : A -> result B) (l : list A) (x : A) (e : exn) :
  In x l -> f x = Raise e -> exists e' x', In x' l /\ f x' = Raise e' /\ for_each f l = Raise e'.
Proof.
  induction l as [| y l IH]; simpl; [tauto |].
  intros Hin Hx. destruct (f y) as [b |e'] eqn:Hy.
  - destruct Hin as [-> | Hin]; [congruence |].
    destruct (IH Hin Hx) as (e' & x' & Hin' & Hx' & ->).
    exists e', x'. simpl. auto.
  - exists e', y. simpl. auto.
Qed.


(** ** Order on rationals and strings *)


Lemma Qgtb_lt (a b : Q) : Qgtb a b = true <-> (b < a)%Q.
Proof.
  unfold Qgtb. rewrite negb_true_iff. split.
  - intros Hle. apply Qnot_le_lt. intros Hab. apply Qle_bool_iff in Hab. congruence.
  - intros Hlt. destruct (Qle_bool a b) eqn:Hle; [| reflexivity].
    apply Qle_bool_iff in Hle. exfalso. exact (Qlt_not_le _ _ Hlt Hle).
Qed.

Lemma Qgtb_false_le (a b : Q) : Qgtb a b = false <-> (a <= b)%Q.
Proof.
  unfold Qgtb. rewrite negb_false_iff. apply Qle_bool_iff.
Qed.

Lemma ascii_compare_trans (x y z : ascii) (c : comparison) :
  Ascii.compare x y = c -> Ascii.compare y z = c -> Ascii.compare x z = c.
Proof.
  unfold Ascii.compare. intros Hxy Hyz. destruct c.
  - apply N.compare_eq_iff in Hxy, Hyz. apply N.compare_eq_iff. congruence.
  - rewrite N.compare_lt_iff in *. lia.
  - rewrite N.compare_gt_iff in *. lia.
Qed.

Lemma string_compare_refl (s : string) : String.compare s s = Eq.
Proof.
  induction s as [| c s IH]; simpl; [reflexivity |].
  unfold Ascii.compare. rewrite N.compare_refl. exact IH.
Qed.

Lemma string_compare_lt_trans (s t u : string) :
  String.compare s t = Lt -> String.compare t u = Lt -> String.compare s u = Lt.
Proof.
  revert t u; induction s as [| x s IH]; intros [| y t] [| z u]; simpl;
    try discriminate; auto.
  destruct (Ascii.compare x y) eqn:Hxy; try discriminate;
    destruct (Ascii.compare y z) eqn:Hyz; try discriminate; intros Hst Htu.
  - apply Ascii.compare_eq_iff in Hxy, Hyz. subst.
    unfold Ascii.compare. rewrite N.compare_refl. eauto.
  - apply Ascii.compare_eq_iff in Hxy. subst. rewrite Hyz. reflexivity.
  - apply Ascii.compare_eq_iff in Hyz. subst. rewrite Hxy. reflexivity.
  - rewrite (ascii_compare_trans _ _ _ _ Hxy Hyz). reflexivity.
Qed.

Lemma string_ltb_asym (s t : string) : String.ltb s t = true -> String.ltb t s = false.
Proof.
  unfold String.ltb. rewrite (String.compare_antisym t s).
  destruct (String.compare s t); simpl; congruence.
Qed.

Lemma string_ltb_false_leb (s t : string) : String.ltb t s = false <-> String.leb s t = true.
Proof.
  unfold String.ltb, String.leb. rewrite (String.compare_antisym t s).
  destruct (String.compare s t); simpl; split; congruence.
Qed.

Lemma string_leb_trans (s t u : string) :
  String.leb s t = true -> String.leb t u = true -> String.leb s u = true.
Proof.
  unfold String.leb.
  destruct (String.compare s t) eqn:Hst; try discriminate;
    destruct (String.compare t u) eqn:Htu; try discriminate; intros _ _.
  - apply String.compare_eq_iff in Hst, Htu. subst. now rewrite string_compare_refl.
  - apply String.compare_eq_iff in Hst. subst. now rewrite Htu.
  - apply String.compare_eq_iff in Htu. subst. now rewrite Hst.
  - now rewrite (string_compare_lt_trans _ _ _ Hst Htu).
Qed.

(** ** Binary64 rounding *)

Lemma two_pos (e : Z) : (0 < 2 ^ e)%Q.
Proof. apply Qpower_0_lt. reflexivity. Qed.

Lemma two_mono (a b : Z) : a <= b -> (2 ^ a <= 2 ^ b)%Q.
Proof. intros Hab. apply Qpower_le_compat_l; [exact Hab | discriminate]. Qed.

Lemma two_mono_lt (a b : Z) : a < b -> (2 ^ a < 2 ^ b)%Q.
Proof. intros Hab. apply Qpower_lt_compat_l; [exact Hab | reflexivity]. Qed.

Lemma two_succ (a : Z) : (2 ^ (a + 1) == 2 * 2 ^ a)%Q.
Proof. rewrite Qpower_plus by discriminate. rewrite Qpower_1_r. ring. Qed.

Lemma two_inject (n : Z) : 0 <= n -> (inject_Z (2 ^ n) == 2 ^ n)%Q.
Proof. intros Hn. now rewrite Zpower_Qpower. Qed.

Lemma floor_log2_spec (a : Q) :
  (0 < a)%Q -> (2 ^ floor_log2 a <= a)%Q /\ (a < 2 ^ (floor_log2 a + 1))%Q.
Proof.
  intros Ha. destruct a as [n d]. unfold floor_log2. cbn [Qnum Qden].
  assert (Hn : 0 < n) by (unfold Qlt in Ha; simpl in Ha; lia).
  set (ln := Z.log2 n). set (ld := Z.log2 (Z.pos d)).
  assert (Hln : 0 <= ln) by apply Z.log2_nonneg.
  assert (Hld : 0 <= ld) by apply Z.log2_nonneg.
  destruct (Z.log2_spec n Hn) as (Hn1 & Hn2). fold ln in Hn1, Hn2.
  destruct (Z.log2_spec (Z.pos d) ltac:(lia)) as (Hd1 & Hd2). fold ld in Hd1, Hd2.
  assert (Hqn1 : (2 ^ ln <= inject_Z n)%Q).
  { rewrite <- two_inject by lia. now rewrite <- Zle_Qle. }
  assert (Hqn2 : (inject_Z n < 2 ^ (ln + 1))%Q).
  { rewrite <- two_inject by lia. now rewrite <- Zlt_Qlt. }
  assert (Hqd1 : (2 ^ ld <= inject_Z (Z.pos d))%Q).
  { rewrite <- two_inject by lia. now rewrite <- Zle_Qle. }
  assert (Hqd2 : (inject_Z (Z.pos d) < 2 ^ (ld + 1))%Q).
  { rewrite <- two_inject by lia. now rewrite <- Zlt_Qlt. }
  assert (Hdpos : (0 < inject_Z (Z.pos d))%Q) by reflexivity.
  assert (Hnd : (n # d == inject_Z n / inject_Z (Z.pos d))%Q) by apply Qmake_Qdiv.
  assert (Hlo : (2 ^ (ln - ld - 1) < n # d)%Q).
  { rewrite Hnd. apply Qlt_shift_div_l; [exact Hdpos |].
    apply Qlt_le_trans with (2 ^ (ln - ld - 1) * 2 ^ (ld + 1))%Q.
    - apply Qmult_lt_l; [apply two_pos | exact Hqd2].
    - rewrite <- Qpower_plus by discriminate.
      replace (ln - ld - 1 + (ld + 1)) with ln by lia. exact Hqn1. }
  assert (Hhi : (n # d < 2 ^ (ln - ld + 1))%Q).
  { rewrite Hnd. apply Qlt_shift_div_r; [exact Hdpos |].
    apply Qlt_le_trans with (2 ^ (ln + 1))%Q; [exact Hqn2 |].
    apply Qle_trans with (2 ^ (ln - ld + 1) * 2 ^ ld)%Q.
    - rewrite <- Qpower_plus by discriminate.
      replace (ln - ld + 1 + ld) with (ln + 1) by lia. apply Qle_refl.
    - apply Qmult_le_l; [apply two_pos | exact Hqd1]. }
  destruct (Qle_bool (2 ^ (ln - ld)) (n # d)) eqn:Hk.
  - apply Qle_bool_iff in Hk. split; [exact Hk | exact Hhi].
  - split; [apply Qlt_le_weak; exact Hlo |].
    replace (ln - ld - 1 + 1) with (ln - ld) by lia.
    apply Qnot_le_lt. intros Hle. apply Qle_bool_iff in Hle. congruence.
Qed.

Lemma floor_log2_mono (a b : Q) :
  (0 < a)%Q -> (a <= b)%Q -> floor_log2 a <= floor_log2 b.
Proof.
  intros Ha Hab.
  destruct (floor_log2_spec a Ha) as (Ha1 & _).
  destruct (floor_log2_spec b) as (_ & Hb2); [lra |].
  assert (Hlt : (2 ^ floor_log2 a < 2 ^ (floor_log2 b + 1))%Q) by lra.
  destruct (Z_lt_le_dec (floor_log2 b) (floor_log2 a)) as [Hgt | Hle]; [| exact Hle].
  exfalso. assert (Hge : (2 ^ (floor_log2 b + 1) <= 2 ^ floor_log2 a)%Q)
    by (apply two_mono; lia). lra.
Qed.

Lemma ulp_exponent_mono (a b : Q) :
  (0 < a)%Q -> (a <= b)%Q -> ulp_exponent a <= ulp_exponent b.
Proof.
  intros Ha Hab. unfold ulp_exponent. pose proof (floor_log2_mono a b Ha Hab). lia.
Qed.

(** ** Rounding to an integer *)

Lemma round_half_even_bounds (q : Q) :
  Qfloor q <= round_half_even q <= Qfloor q + 1.
Proof.
  unfold round_half_even. destruct (Qcompare _ _); [destruct (Z.even _) | |]; lia.
Qed.

Lemma round_half_even_Z (z : Z) : round_half_even (inject_Z z) = z.
Proof.
  unfold round_half_even. rewrite Qfloor_Z.
  destruct (Qcompare_spec (inject_Z z - inject_Z z) (1 # 2)) as [Hc | Hc | Hc];
    [exfalso; lra | reflexivity | exfalso; lra].
Qed.

Lemma round_half_even_mono (p q : Q) :
  (p <= q)%Q -> round_half_even p <= round_half_even q.
Proof.
  intros Hpq. pose proof (Qfloor_resp_le p q Hpq) as Hfl.
  pose proof (round_half_even_bounds p). pose proof (round_half_even_bounds q).
  destruct (Z.eq_dec (Qfloor p) (Qfloor q)) as [Heq | Hne]; [| lia].
  unfold round_half_even. rewrite <- Heq.
  destruct (Qcompare_spec (p - inject_Z (Qfloor p)) (1 # 2)) as [Hp | Hp | Hp];
    destruct (Qcompare_spec (q - inject_Z (Qfloor p)) (1 # 2)) as [Hq | Hq | Hq];
    try destruct (Z.even (Qfloor p)); try lia; exfalso; lra.
Qed.

Lemma round_half_even_comp (p q : Q) : (p == q)%Q -> round_half_even p = round_half_even q.
Proof.
  intros Hpq. apply Z.le_antisymm; apply round_half_even_mono; rewrite Hpq; apply Qle_refl.
Qed.

Lemma round_half_even_nonneg (q : Q) : (0 <= q)%Q -> 0 <= round_half_even q.
Proof.
  intros Hq. pose proof (round_half_even_mono 0 q Hq) as Hm.
  change 0%Q with (inject_Z 0) in Hm. now rewrite round_half_even_Z in Hm.
Qed.

(** ** Rounding a positive number *)

Lemma round_pos_nonneg (a : Q) : (0 < a)%Q -> (0 <= round_pos a)%Q.
Proof.
  intros Ha. unfold round_pos.
  apply Qmult_le_0_compat; [| apply Qlt_le_weak, two_pos].
  change 0%Q with (inject_Z 0). rewrite <- Zle_Qle. apply round_half_even_nonneg.
  apply Qle_shift_div_l; [apply two_pos | lra].
Qed.

(** The scaled number lies below [2 ** 53] *)
Lemma scaled_below (a : Q) :
  (0 < a)%Q -> (a / 2 ^ ulp_exponent a < 2 ^ 53)%Q.
Proof.
  intros Ha. destruct (floor_log2_spec a Ha) as (_ & Hhi).
  apply Qlt_shift_div_r; [apply two_pos |].
  rewrite <- Qpower_plus by discriminate.
  apply Qlt_le_trans with (2 ^ (floor_log2 a + 1))%Q; [exact Hhi |].
  apply two_mono. unfold ulp_exponent. lia.
Qed.

(** and, outside the subnormal range, from [2 ** 52] on *)
Lemma scaled_above (a : Q) :
  (0 < a)%Q -> -1074 < ulp_exponent a -> (2 ^ 52 <= a / 2 ^ ulp_exponent a)%Q.
Proof.
  intros Ha He. destruct (floor_log2_spec a Ha) as (Hlo & _).
  apply Qle_shift_div_l; [apply two_pos |].
  rewrite <- Qpower_plus by discriminate.
  apply Qle_trans with (2 ^ floor_log2 a)%Q; [| exact Hlo].
  apply two_mono. unfold ulp_exponent in *. lia.
Qed.

Lemma round_pos_mono (a b : Q) :
  (0 < a)%Q -> (a <= b)%Q -> (round_pos a <= round_pos b)%Q.
Proof.
  intros Ha Hab. assert (Hb : (0 < b)%Q) by lra.
  pose proof (ulp_exponent_mono a b Ha Hab) as He. unfold round_pos.
  set (ea := ulp_exponent a) in *. set (eb := ulp_exponent b) in *.
  destruct (Z.eq_dec ea eb) as [Heq | Hne].
  - rewrite <- Heq. apply Qmult_le_compat_r; [| apply Qlt_le_weak, two_pos].
    rewrite <- Zle_Qle. apply round_half_even_mono.
    apply Qmult_le_compat_r; [exact Hab |]. apply Qlt_le_weak, Qinv_lt_0_compat, two_pos.
  - assert (Hlt : ea + 1 <= eb) by lia.
    assert (Hma : round_half_even (a / 2 ^ ea) <= 2 ^ 53).
    { pose proof (scaled_below a Ha) as Hs. fold ea in Hs.
      assert (Hle : (a / 2 ^ ea <= inject_Z (2 ^ 53))%Q) by (rewrite two_inject by lia; lra).
      apply round_half_even_mono in Hle. now rewrite round_half_even_Z in Hle. }
    assert (Hmb : 2 ^ 52 <= round_half_even (b / 2 ^ eb)).
    { assert (Hs : (2 ^ 52 <= b / 2 ^ eb)%Q).
      { apply scaled_above; [exact Hb |]. fold eb. unfold ea, ulp_exponent in *. lia. }
      assert (Hle : (inject_Z (2 ^ 52) <= b / 2 ^ eb)%Q) by (rewrite two_inject by lia; lra).
      apply round_half_even_mono in Hle. now rewrite round_half_even_Z in Hle. }
    apply Qle_trans with (inject_Z (2 ^ 53) * 2 ^ ea)%Q.
    { apply Qmult_le_compat_r; [now rewrite <- Zle_Qle | apply Qlt_le_weak, two_pos]. }
    apply Qle_trans with (inject_Z (2 ^ 52) * 2 ^ eb)%Q.
    { rewrite !two_inject by lia. rewrite <- !Qpower_plus by discriminate.
      apply two_mono. lia. }
    apply Qmult_le_compat_r; [now rewrite <- Zle_Qle | apply Qlt_le_weak, two_pos].
Qed.

(** ** Rounding *)

Lemma rnd_comp (x y : Q) : (x == y)%Q -> rnd x = rnd y.
Proof. intros Hxy. unfold rnd. now rewrite (Qred_complete x y Hxy). Qed.

#[export] Instance rnd_Proper : Proper (Qeq ==> Qeq) rnd.
Proof. intros x y Hxy. now rewrite (rnd_comp x y Hxy). Qed.

Lemma rnd_pos_eq (x : Q) : (0 < x)%Q -> (rnd x == round_pos (Qred x))%Q.
Proof.
  intros Hx. unfold rnd.
  assert (Hgt : Qcompare (Qred x) 0 = Gt) by (apply Qgt_alt; rewrite Qred_correct; exact Hx).
  rewrite Hgt. apply Qred_correct.
Qed.

Lemma rnd_neg_eq (x : Q) : (x < 0)%Q -> (rnd x == - round_pos (- Qred x))%Q.
Proof.
  intros Hx. unfold rnd.
  assert (Hlt : Qcompare (Qred x) 0 = Lt) by (apply Qlt_alt; rewrite Qred_correct; exact Hx).
  rewrite Hlt. apply Qred_correct.
Qed.

Lemma rnd_zero (x : Q) : (x == 0)%Q -> rnd x = 0%Q.
Proof.
  intros Hx. unfold rnd.
  assert (Heq : Qcompare (Qred x) 0 = Eq) by (apply Qeq_alt; rewrite Qred_correct; exact Hx).
  now rewrite Heq.
Qed.

Lemma rnd_nonneg (x : Q) : (0 <= x)%Q -> (0 <= rnd x)%Q.
Proof.
  intros Hx. destruct (Qeq_dec x 0) as [Hz | Hz]; [rewrite (rnd_zero x Hz); apply Qle_refl |].
  assert (Hpos : (0 < x)%Q) by (apply Qle_lteq in Hx as [Hlt | Heq]; [exact Hlt | now symmetry in Heq]).
  rewrite rnd_pos_eq by exact Hpos. apply round_pos_nonneg. now rewrite Qred_correct.
Qed.

Lemma rnd_opp (x : Q) : (rnd (- x) == - rnd x)%Q.
Proof.
  destruct (Q_dec x 0) as [[Hlt | Hgt] | Heq].
  - rewrite rnd_pos_eq by lra. rewrite (rnd_neg_eq x Hlt). rewrite Qred_opp. ring.
  - rewrite rnd_neg_eq by lra. rewrite (rnd_pos_eq x Hgt). rewrite Qred_opp.
    assert (Hinv : (- - Qred x)%Q = Qred x) by (destruct (Qred x) as [n d]; unfold Qopp; simpl; now rewrite Z.opp_involutive).
    now rewrite Hinv.
  - rewrite (rnd_zero x Heq). rewrite rnd_zero by (rewrite Heq; reflexivity). reflexivity.
Qed.

Lemma rnd_nonpos (x : Q) : (x <= 0)%Q -> (rnd x <= 0)%Q.
Proof.
  intros Hx. assert (Hn : (0 <= rnd (- x))%Q) by (apply rnd_nonneg; lra).
  rewrite rnd_opp in Hn. lra.
Qed.

(** Rounding keeps the order. *)
Lemma rnd_mono (x y : Q) : (x <= y)%Q -> (rnd x <= rnd y)%Q.
Proof.
  intros Hxy. destruct (Q_dec x 0) as [[Hx | Hx] | Hx].
  - destruct (Q_dec y 0) as [[Hy | Hy] | Hy].
    + rewrite (rnd_neg_eq x Hx), (rnd_neg_eq y Hy).
      apply Qopp_le_compat. apply round_pos_mono; rewrite !Qred_correct; lra.
    + apply Qle_trans with 0%Q; [apply rnd_nonpos | apply rnd_nonneg]; lra.
    + apply Qle_trans with 0%Q; [apply rnd_nonpos | apply rnd_nonneg]; lra.
  - assert (Hy : (0 < y)%Q) by lra.
    rewrite (rnd_pos_eq x Hx), (rnd_pos_eq y Hy).
    apply round_pos_mono; rewrite !Qred_correct; lra.
  - rewrite (rnd_zero x Hx). apply rnd_nonneg. lra.
Qed.

Lemma rnd_1 : rnd 1 = 1%Q.
Proof. reflexivity. Qed.

Lemma rnd_0 : rnd 0 = 0%Q.
Proof. reflexivity. Qed.

Lemma rnd_le_1 (x : Q) : (x <= 1)%Q -> (rnd x <= 1)%Q.
Proof. intros Hx. apply rnd_mono in Hx. now rewrite rnd_1 in Hx. Qed.

Lemma rnd_ge_1 (x : Q) : (1 <= x)%Q -> (1 <= rnd x)%Q.
Proof. intros Hx. apply rnd_mono in Hx. now rewrite rnd_1 in Hx. Qed.

(** ** The numbers [rnd] returns *)

Lemma floor_log2_unique (a : Q) (k : Z) :
  (2 ^ k <= a)%Q -> (a < 2 ^ (k + 1))%Q -> floor_log2 a = k.
Proof.
  intros Hlo Hhi.
  assert (Ha : (0 < a)%Q) by (pose proof (two_pos k); lra).
  destruct (floor_log2_spec a Ha) as (Hlo' & Hhi').
  destruct (Z.lt_trichotomy (floor_log2 a) k) as [Hlt | [Heq | Hgt]]; [| exact Heq |]; exfalso.
  - assert (Hle : (2 ^ (floor_log2 a + 1) <= 2 ^ k)%Q) by (apply two_mono; lia). lra.
  - assert (Hle : (2 ^ (k + 1) <= 2 ^ floor_log2 a)%Q) by (apply two_mono; lia). lra.
Qed.

(** A number [m * 2 ** e] with at most 53 significant bits, [e] not below
    the least exponent, is its own rounding. *)
Lemma round_pos_fixed (a : Q) (m e : Z) :
  (a == inject_Z m * 2 ^ e)%Q -> 0 < m <= 2 ^ 53 -> -1074 <= e ->
  (round_pos a == a)%Q.
Proof.
  assert (Hgen : forall a m e,
             (a == inject_Z m * 2 ^ e)%Q -> 0 < m < 2 ^ 53 -> -1074 <= e ->
             (2 ^ 52 <= m \/ e = -1074) -> (round_pos a == a)%Q).
  { clear a m e. intros a m e Ha Hm He Hcase.
    assert (Hmq : (0 < inject_Z m)%Q) by (change 0%Q with (inject_Z 0); rewrite <- Zlt_Qlt; lia).
    assert (Hmhi : (inject_Z m < 2 ^ 53)%Q)
      by (rewrite <- (two_inject 53) by lia; rewrite <- Zlt_Qlt; lia).
    pose proof (two_pos e) as Hpe.
    assert (Hapos : (0 < a)%Q) by (rewrite Ha; apply Qmult_lt_0_compat; assumption).
    assert (Hulp : ulp_exponent a = e).
    { unfold ulp_exponent. destruct Hcase as [Hnorm | Hsub].
      - assert (Hfl : floor_log2 a = 52 + e).
        { apply floor_log2_unique; rewrite Ha.
          - rewrite Qpower_plus by discriminate.
            apply Qmult_le_compat_r; [| lra].
            rewrite <- (two_inject 52) by lia. rewrite <- Zle_Qle. exact Hnorm.
          - replace (52 + e + 1) with (53 + e) by lia. rewrite Qpower_plus by discriminate.
            apply Qmult_lt_compat_r; assumption. }
        lia.
      - destruct (floor_log2_spec a Hapos) as (Hlo & _).
        assert (Hlt : (2 ^ floor_log2 a < 2 ^ (53 + e))%Q).
        { eapply Qle_lt_trans; [exact Hlo |]. rewrite Ha, Qpower_plus by discriminate.
          apply Qmult_lt_compat_r; assumption. }
        destruct (Z_lt_le_dec (floor_log2 a) (53 + e)) as [Hok | Hbad]; [lia |].
        exfalso. pose proof (two_mono _ _ Hbad). lra. }
    unfold round_pos. rewrite Hulp.
    assert (Hdiv : (a / 2 ^ e == inject_Z m)%Q) by (rewrite Ha; field; lra).
    rewrite (round_half_even_comp _ _ Hdiv), round_half_even_Z. now rewrite Ha. }
  intros Ha Hm He. destruct (Z.eq_dec m (2 ^ 53)) as [-> | Hne].
  - apply (Hgen a (2 ^ 52) (e + 1)); [| lia | lia | left; lia].
    assert (H53 : (inject_Z (2 ^ 53) == 2 * inject_Z (2 ^ 52))%Q) by reflexivity.
    rewrite Ha, two_succ, H53. ring.
  - destruct (Z_lt_le_dec m (2 ^ 52)) as [Hsmall | Hbig].
    + (* fewer bits than a full significand: shift them up, or stay subnormal *)
      destruct (Z.eq_dec e (-1074)) as [-> | Hne'].
      * apply (Hgen a m (-1074)); [exact Ha | lia | lia | now right].
      * (* [m * 2 ** e = (2 * m) * 2 ** (e - 1)]: induction on the shift *)
        assert (Hshift : forall n : nat, forall m e,
                   (a == inject_Z m * 2 ^ e)%Q -> 0 < m < 2 ^ 53 ->
                   -1074 <= e -> (Z.to_nat (e + 1074) <= n)%nat -> (round_pos a == a)%Q).
        { clear m e Ha Hm He Hne Hsmall Hne'.
          induction n as [| n IH]; intros m e Ha Hm He Hn.
          - apply (Hgen a m e); [exact Ha | lia | lia | right; lia].
          - destruct (Z_lt_le_dec m (2 ^ 52)) as [Hsmall | Hbig].
            + destruct (Z.eq_dec e (-1074)) as [-> | Hne].
              * apply (Hgen a m (-1074)); [exact Ha | lia | lia | now right].
              * apply (IH (2 * m) (e - 1)); [| lia | lia | lia].
                rewrite Ha. replace e with (e - 1 + 1) at 1 by lia.
                rewrite two_succ, inject_Z_mult. ring.
            + apply (Hgen a m e); [exact Ha | lia | lia | now left]. }
        apply (Hshift (Z.to_nat (e + 1074)) m e); [exact Ha | lia | lia | lia].
    + apply (Hgen a m e); [exact Ha | lia | lia | now left].
Qed.

(** What [round_pos] returns: [m * 2 ** e] with [0 <= m <= 2 ** 53]. *)
Lemma round_pos_shape (a : Q) :
  (0 < a)%Q ->
  exists m e, round_pos a = (inject_Z m * 2 ^ e)%Q /\ 0 <= m <= 2 ^ 53 /\ -1074 <= e.
Proof.
  intros Ha. exists (round_half_even (a / 2 ^ ulp_exponent a)), (ulp_exponent a).
  split; [reflexivity |]. split; [| unfold ulp_exponent; lia]. split.
  - apply round_half_even_nonneg. apply Qle_shift_div_l; [apply two_pos | lra].
  - pose proof (scaled_below a Ha) as Hs.
    assert (Hle : (a / 2 ^ ulp_exponent a <= inject_Z (2 ^ 53))%Q)
      by (rewrite two_inject by lia; lra).
    apply round_half_even_mono in Hle. now rewrite round_half_even_Z in Hle.
Qed.

(** Rounding twice is rounding once. *)
Lemma rnd_idem (x : Q) : (rnd (rnd x) == rnd x)%Q.
Proof.
  assert (Hpos : forall x, (0 < x)%Q -> (rnd (rnd x) == rnd x)%Q).
  { clear x. intros x Hx.
    pose proof (rnd_pos_eq x Hx) as Hr.
    assert (Hx' : (0 < Qred x)%Q) by now rewrite Qred_correct.
    destruct (round_pos_shape (Qred x) Hx') as (m & e & Hshape & Hm & He).
    destruct (Z.eq_dec m 0) as [-> | Hm0].
    - assert (Hz : (rnd x == 0)%Q) by (rewrite Hr, Hshape; ring).
      rewrite (rnd_comp _ _ Hz). rewrite Hz. reflexivity.
    - assert (Hrpos : (0 < rnd x)%Q).
      { rewrite Hr, Hshape. apply Qmult_lt_0_compat; [| apply two_pos].
        change 0%Q with (inject_Z 0). rewrite <- Zlt_Qlt. lia. }
      rewrite (rnd_pos_eq _ Hrpos).
      assert (Heq : (Qred (rnd x) == inject_Z m * 2 ^ e)%Q)
        by (rewrite Qred_correct, Hr, Hshape; reflexivity).
      rewrite (round_pos_fixed _ m e Heq) by lia. apply Qred_correct. }
  destruct (Q_dec x 0) as [[Hlt | Hgt] | Heq].
  - assert (Hx : (0 < - x)%Q) by lra. specialize (Hpos _ Hx).
    rewrite (rnd_comp (rnd (- x)) (- rnd x) (rnd_opp x)) in Hpos.
    rewrite !rnd_opp in Hpos. lra.
  - now apply Hpos.
  - rewrite (rnd_zero x Heq). reflexivity.
Qed.

(** Integers up to [2 ** 53] are floats. *)
Lemma rnd_inject_Z (n : Z) : Z.abs n <= 2 ^ 53 -> (rnd (inject_Z n) == inject_Z n)%Q.
Proof.
  assert (Hpos : forall n, 0 < n <= 2 ^ 53 -> (rnd (inject_Z n) == inject_Z n)%Q).
  { clear n. intros n Hn.
    assert (Hq : (0 < inject_Z n)%Q) by (change 0%Q with (inject_Z 0); rewrite <- Zlt_Qlt; lia).
    rewrite (rnd_pos_eq _ Hq).
    assert (Heq : (Qred (inject_Z n) == inject_Z n * 2 ^ 0)%Q)
      by (rewrite Qred_correct; change (2 ^ 0)%Q with 1%Q; ring).
    rewrite (round_pos_fixed _ n 0 Heq) by lia. apply Qred_correct. }
  intros Hn. destruct (Z.lt_trichotomy n 0) as [Hlt | [-> | Hgt]].
  - assert (H := Hpos (- n) ltac:(lia)). rewrite inject_Z_opp in H.
    rewrite rnd_opp in H. lra.
  - reflexivity.
  - apply Hpos. lia.
Qed.

(** Doubling is exact (no overflow in this model). *)
Lemma rnd_double (x : Q) : (rnd (2 * rnd x) == 2 * rnd x)%Q.
Proof.
  assert (Hpos : forall x, (0 < x)%Q -> (rnd (2 * rnd x) == 2 * rnd x)%Q).
  { clear x. intros x Hx.
    pose proof (rnd_pos_eq x Hx) as Hr.
    assert (Hx' : (0 < Qred x)%Q) by now rewrite Qred_correct.
    destruct (round_pos_shape (Qred x) Hx') as (m & e & Hshape & Hm & He).
    destruct (Z.eq_dec m 0) as [-> | Hm0].
    - assert (Hz : (2 * rnd x == 0)%Q) by (rewrite Hr, Hshape; ring).
      rewrite (rnd_comp _ _ Hz). rewrite Hz. reflexivity.
    - assert (Hrpos : (0 < 2 * rnd x)%Q).
      { rewrite Hr, Hshape.
        assert (0 < inject_Z m * 2 ^ e)%Q; [| lra].
        apply Qmult_lt_0_compat; [| apply two_pos].
        change 0%Q with (inject_Z 0). rewrite <- Zlt_Qlt. lia. }
      rewrite (rnd_pos_eq _ Hrpos).
      assert (Heq : (Qred (2 * rnd x) == inject_Z m * 2 ^ (e + 1))%Q)
        by (rewrite Qred_correct, Hr, Hshape, two_succ; ring).
      rewrite (round_pos_fixed _ m (e + 1) Heq) by lia. apply Qred_correct. }
  destruct (Q_dec x 0) as [[Hlt | Hgt] | Heq].
  - assert (Hx : (0 < - x)%Q) by lra. specialize (Hpos _ Hx).
    assert (Hopp : (2 * rnd (- x) == - (2 * rnd x))%Q) by (rewrite rnd_opp; ring).
    rewrite (rnd_comp _ _ Hopp) in Hpos. rewrite rnd_opp in Hpos. rewrite Hopp in Hpos. lra.
  - now apply Hpos.
  - rewrite (rnd_zero x Heq). reflexivity.
Qed.

(** Doubling commutes with rounding above the subnormal numbers. *)
Lemma rnd_scale2 (x : Q) : (2 ^ (-1022) <= x)%Q -> (rnd (2 * x) == 2 * rnd x)%Q.
Proof.
  intros Hx. pose proof (two_pos (-1022)) as Hp.
  assert (Hxpos : (0 < x)%Q) by lra.
  assert (H2pos : (0 < 2 * x)%Q) by lra.
  rewrite (rnd_pos_eq _ H2pos), (rnd_pos_eq _ Hxpos).
  set (a := Qred x). set (a2 := Qred (2 * x)).
  assert (Ha : (a == x)%Q) by apply Qred_correct.
  assert (Ha2 : (a2 == 2 * a)%Q) by (unfold a2; rewrite Qred_correct, Ha; reflexivity).
  assert (Hapos : (0 < a)%Q) by lra.
  destruct (floor_log2_spec a Hapos) as (Hlo & Hhi).
  assert (Hfl : floor_log2 a2 = floor_log2 a + 1).
  { apply floor_log2_unique; rewrite Ha2.
    - rewrite two_succ. lra.
    - rewrite (two_succ (floor_log2 a + 1)). lra. }
  assert (Hge : -1022 <= floor_log2 a).
  { destruct (Z_lt_le_dec (floor_log2 a) (-1022)) as [Hlt | Hok]; [| exact Hok].
    exfalso. assert (Hle : (2 ^ (floor_log2 a + 1) <= 2 ^ (-1022))%Q) by (apply two_mono; lia).
    lra. }
  unfold round_pos, ulp_exponent. rewrite Hfl.
  replace (Z.max (floor_log2 a + 1 - 52) (-1074)) with (Z.max (floor_log2 a - 52) (-1074) + 1)
    by lia.
  set (e := Z.max (floor_log2 a - 52) (-1074)).
  pose proof (two_pos e) as Hpe.
  assert (Hdiv : (a2 / 2 ^ (e + 1) == a / 2 ^ e)%Q).
  { rewrite Ha2, two_succ. field. lra. }
  rewrite (round_half_even_comp _ _ Hdiv), two_succ. ring.
Qed.

(** The float just below 1.0, and the least float that 1.0 can lose *)
Lemma rnd_below_1 (x : Q) : (x <= 1 - 2 ^ (-53))%Q -> (rnd x <= 1 - 2 ^ (-53))%Q.
Proof.
  intros Hx. apply rnd_mono in Hx.
  assert (Hr : (rnd (1 - 2 ^ (-53)) == 1 - 2 ^ (-53))%Q) by (vm_compute; reflexivity).
  now rewrite Hr in Hx.
Qed.

Lemma rnd_ge_ulp (x : Q) : (2 ^ (-53) <= x)%Q -> (2 ^ (-53) <= rnd x)%Q.
Proof.
  intros Hx. apply rnd_mono in Hx.
  assert (Hr : (rnd (2 ^ (-53)) == 2 ^ (-53))%Q) by (vm_compute; reflexivity).
  now rewrite Hr in Hx.
Qed.

(** A proper quotient of two ints up to [2 ** 53] is rounded neither to 0
    nor to 1. *)
Lemma rnd_ratio_inside (i u : Z) :
  0 < i < u -> u <= 2 ^ 53 ->
  (2 ^ (-53) <= rnd (inject_Z i / inject_Z u) <= 1 - 2 ^ (-53))%Q.
Proof.
  intros Hi Hu.
  assert (Hup : (0 < inject_Z u)%Q) by (change 0%Q with (inject_Z 0); rewrite <- Zlt_Qlt; lia).
  assert (Hi1 : (1 <= inject_Z i)%Q) by (change 1%Q with (inject_Z 1); rewrite <- Zle_Qle; lia).
  assert (Hiu : (inject_Z i + 1 <= inject_Z u)%Q).
  { change 1%Q with (inject_Z 1). rewrite <- inject_Z_plus, <- Zle_Qle. lia. }
  assert (Hu53 : (inject_Z u <= 2 ^ 53)%Q).
  { rewrite <- (two_inject 53) by lia. now rewrite <- Zle_Qle. }
  assert (He : (2 ^ (-53) * 2 ^ 53 == 1)%Q) by reflexivity.
  pose proof (two_pos (-53)) as Hep.
  assert (Heu : (2 ^ (-53) * inject_Z u <= 1)%Q).
  { rewrite <- He. apply Qmult_le_l; assumption. }
  split.
  - apply rnd_ge_ulp. apply Qle_shift_div_l; [exact Hup |]. lra.
  - apply rnd_below_1. apply Qle_shift_div_r; [exact Hup |]. lra.
Qed.

Lemma rnd_ratio_strict (i u : Z) :
  0 < i < u -> u <= 2 ^ 53 ->
  (0 < rnd (inject_Z i / inject_Z u) < 1)%Q.
Proof.
  intros Hi Hu. pose proof (rnd_ratio_inside i u Hi Hu). pose proof (two_pos (-53)). lra.
Qed.

(** ** Sorting *)

Section SortFacts.

Variable A : Type.
Variable lt : A -> A -> bool.

(** [x] may stand before [y] in a sorted list: not [y < x]. *)
Definition before (x y : A) : Prop := lt y x = false.

Hypothesis lt_asym : forall x y, lt x y = true -> lt y x = false.
Hypothesis before_trans : forall x y z, before x y -> before y z -> before x z.

Lemma insert_by_Permutation (x : A) (l : list A) :
  Permutation (x :: l) (insert_by lt x l).
Proof.
  induction l as [| y l IH]; simpl; [reflexivity |].
  destruct (lt y x); [| reflexivity].
  rewrite perm_swap. now constructor.
Qed.

Lemma sort_by_Permutation (l : list A) : Permutation l (sort_by lt l).
Proof.
  induction l as [| x l IH]; simpl; [constructor |].
  rewrite <- insert_by_Permutation. now constructor.
Qed.

Lemma insert_by_sorted (x : A) (l : list A) :
  StronglySorted before l -> StronglySorted before (insert_by lt x l).
Proof.
  induction 1 as [| y l Hl IH Hy]; simpl.
  - repeat constructor.
  - destruct (lt y x) eqn:Hyx.
    + constructor; [exact IH |].
      rewrite <- insert_by_Permutation. constructor; [| exact Hy].
      unfold before. auto.
    + constructor; [constructor; assumption |].
      constructor; [exact Hyx |].
      eapply Forall_impl; [| exact Hy]. intros z Hz. eapply before_trans; eauto.
Qed.

Lemma sort_by_sorted (l : list A) : StronglySorted before (sort_by lt l).
Proof.
  induction l as [| x l IH]; simpl; [constructor | now apply insert_by_sorted].
Qed.

End SortFacts.

Arguments before {A} lt x y /.

(** ** difflib: the longest match lies inside its window *)

Section LongestMatchBounds.

Import difflib.

Variable sm : SequenceMatcher.
Variables alo ahi blo bhi : Z.

(** An entry of the [j2len] built on row [i] *)
Definition entry_ok (i : Z) (entry : Z * Z) : Prop :=
  let '(j, v) := entry in
  blo <= j < bhi /\ 1 <= v /\ v <= i - alo + 1 /\ v <= j - blo + 1.

Definition best_ok (best : Match) : Prop :=
  let '(besti, bestj, bestsize) := best in
  alo <= besti /\ blo <= bestj /\ 0 <= bestsize
  /\ besti + bestsize <= ahi /\ bestj + bestsize <= bhi.

Lemma j2len_get_bound (i j : Z) (j2len : list (Z * Z)) :
  alo <= i -> blo <= j ->
  Forall (entry_ok (i - 1)) j2len ->
  0 <= j2len_get j2len (j - 1) <= i - alo /\ j2len_get j2len (j - 1) <= j - blo.
Proof.
  intros Hi Hj. induction 1 as [| [j' v] j2len Hentry _ IH]; simpl; [lia |].
  destruct (j' =? j - 1) eqn:He; [| exact IH].
  apply Z.eqb_eq in He. unfold entry_ok in Hentry. lia.
Qed.

Lemma inner_loop_ok (i : Z) (j2len : list (Z * Z)) (js : list Z) :
  alo <= i < ahi ->
  Forall (entry_ok (i - 1)) j2len ->
  forall newj2len best,
    Forall (entry_ok i) newj2len -> best_ok best ->
    Forall (entry_ok i) (fst (inner_loop js i blo bhi j2len newj2len best))
    /\ best_ok (snd (inner_loop js i blo bhi j2len newj2len best)).
Proof.
  intros Hi Hj2len. induction js as [| j js IH]; simpl; intros newj2len best Hnew Hbest.
  - auto.
  - destruct (j <? blo) eqn:Hlo; [now apply IH |].
    destruct (bhi <=? j) eqn:Hhi; [auto |].
    apply Z.ltb_ge in Hlo. apply Z.leb_gt in Hhi.
    destruct (j2len_get_bound i j j2len) as (Hk1 & Hk2); [lia | lia | assumption |].
    apply IH.
    + constructor; [| exact Hnew]. unfold entry_ok. lia.
    + destruct (j2len_get j2len (j - 1) + 1 >? size best) eqn:Hgt; [| exact Hbest].
      unfold best_ok. lia.
Qed.

Lemma range_unfold (lo hi : Z) :
  range lo hi = if lo <? hi then lo :: range (lo + 1) hi else [].
Proof.
  unfold range. destruct (lo <? hi) eqn:Hlt.
  - apply Z.ltb_lt in Hlt.
    replace (Z.to_nat (hi - lo)) with (S (Z.to_nat (hi - (lo + 1)))) by lia.
    simpl. f_equal; [lia |]. rewrite <- seq_shift, map_map.
    apply map_ext. intros k. lia.
  - apply Z.ltb_ge in Hlt. replace (Z.to_nat (hi - lo)) with 0%nat by lia. reflexivity.
Qed.

Lemma outer_loop_ok (n : nat) :
  forall i j2len best,
    Z.of_nat n = ahi - i -> alo <= i ->
    Forall (entry_ok (i - 1)) j2len -> best_ok best ->
    best_ok (outer_loop sm (range i ahi) blo bhi j2len best).
Proof.
  induction n as [| n IH]; intros i j2len best Hn Hi Hj2len Hbest;
    rewrite range_unfold.
  - replace (i <? ahi) with false by (symmetry; apply Z.ltb_ge; lia). exact Hbest.
  - replace (i <? ahi) with true by (symmetry; apply Z.ltb_lt; lia). simpl.
    destruct (inner_loop_ok i j2len (b2j_get (b2j sm) (item (a sm) i))) with
      (newj2len := @nil (Z * Z)) (best := best) as (Hnew & Hbest');
      [lia | assumption | constructor | assumption |].
    destruct (inner_loop _ i blo bhi j2len [] best) as [newj2len best'].
    apply IH; [lia | lia | | exact Hbest'].
    replace (i + 1 - 1) with i by lia. exact Hnew.
Qed.

Lemma extend_back_ok (fuel : nat) (junk : bool) :
  forall best, best_ok best -> best_ok (extend_back fuel sm junk alo blo best).
Proof.
  induction fuel as [| fuel IH]; simpl; intros [[besti bestj] bestsize] Hbest; [exact Hbest |].
  destruct (_ && _) eqn:Hcond; [| exact Hbest].
  repeat rewrite andb_true_iff in Hcond. destruct Hcond as (((Hi & Hj) & _) & _).
  apply IH. unfold best_ok in *. lia.
Qed.

Lemma extend_fwd_ok (fuel : nat) (junk : bool) :
  forall best, best_ok best -> best_ok (extend_fwd fuel sm junk ahi bhi best).
Proof.
  induction fuel as [| fuel IH]; simpl; intros [[besti bestj] bestsize] Hbest; [exact Hbest |].
  destruct (_ && _) eqn:Hcond; [| exact Hbest].
  repeat rewrite andb_true_iff in Hcond. destruct Hcond as (((Hi & Hj) & _) & _).
  apply IH. unfold best_ok in *. lia.
Qed.

Lemma find_longest_match_ok :
  alo <= ahi -> blo <= bhi -> best_ok (find_longest_match sm alo ahi blo bhi).
Proof.
  intros Ha Hb. unfold find_longest_match.
  do 2 (apply extend_fwd_ok, extend_back_ok).
  apply (outer_loop_ok (Z.to_nat (ahi - alo))); [lia | lia | constructor |].
  unfold best_ok. lia.
Qed.

End LongestMatchBounds.

(** ** difflib: the loops end before their fuel does *)

Section LoopFuel.

Import difflib.

#[local] Arguments Z.mul : simpl never.
#[local] Arguments Z.add : simpl never.
#[local] Arguments Z.sub : simpl never.

Variable sm : SequenceMatcher.

Lemma extend_back_fuel (junk : bool) (alo blo : Z) (fuel : nat) :
  forall fuel' best,
    fst (fst best) - alo <= Z.of_nat fuel ->
    fst (fst best) - alo <= Z.of_nat fuel' ->
    extend_back fuel sm junk alo blo best = extend_back fuel' sm junk alo blo best.
Proof.
  induction fuel as [| fuel IH]; intros [| fuel'] [[besti bestj] bestsize]; simpl;
    intros Hf Hf'; try reflexivity.
  - destruct (besti >? alo) eqn:Hgt; [lia | reflexivity].
  - destruct (besti >? alo) eqn:Hgt; [lia | reflexivity].
  - destruct (_ && _) eqn:Hcond; [| reflexivity].
    repeat rewrite andb_true_iff in Hcond. destruct Hcond as (((Hi & _) & _) & _).
    apply IH; simpl; lia.
Qed.

Lemma extend_fwd_fuel (junk : bool) (ahi bhi : Z) (fuel : nat) :
  forall fuel' best,
    ahi - (fst (fst best) + snd best) <= Z.of_nat fuel ->
    ahi - (fst (fst best) + snd best) <= Z.of_nat fuel' ->
    extend_fwd fuel sm junk ahi bhi best = extend_fwd fuel' sm junk ahi bhi best.
Proof.
  induction fuel as [| fuel IH]; intros [| fuel'] [[besti bestj] bestsize]; simpl;
    intros Hf Hf'; try reflexivity.
  - destruct (besti + bestsize <? ahi) eqn:Hlt; [lia | reflexivity].
  - destruct (besti + bestsize <? ahi) eqn:Hlt; [lia | reflexivity].
  - destruct (_ && _) eqn:Hcond; [| reflexivity].
    repeat rewrite andb_true_iff in Hcond. destruct Hcond as (((Hi & _) & _) & _).
    apply IH; simpl; lia.
Qed.

(** A window of the queue *)
Definition window_ok (w : Z * Z * Z * Z) : Prop :=
  let '(alo, ahi, blo, bhi) := w in alo <= ahi /\ blo <= bhi.

Definition a_span (w : Z * Z * Z * Z) : Z := let '(alo, ahi, _, _) := w in ahi - alo.
Definition b_span (w : Z * Z * Z * Z) : Z := let '(_, _, blo, bhi) := w in bhi - blo.

Definition list_sum_Z (l : list Z) : Z := fold_right Z.add 0 l.

Definition queue_weight (queue : list (Z * Z * Z * Z)) : Z :=
  list_sum_Z (map (fun w => 2 * a_span w + 1) queue).

Lemma queue_weight_pos (queue : list (Z * Z * Z * Z)) :
  Forall window_ok queue -> 0 <= queue_weight queue /\ (queue <> [] -> 0 < queue_weight queue).
Proof.
  unfold queue_weight. induction 1 as [| [[[alo ahi] blo] bhi] queue Hw _ IH]; simpl.
  - split; [lia | congruence].
  - unfold window_ok in Hw. split; [lia |]. intros _. lia.
Qed.

(** One pass of [while queue:] on a non-empty queue *)
Definition queue_step (w : Z * Z * Z * Z) (queue : list (Z * Z * Z * Z))
  : list (Z * Z * Z * Z) :=
  let '(alo, ahi, blo, bhi) := w in
  let '(i, j, k) := find_longest_match sm alo ahi blo bhi in
  if k =? 0 then queue
  else
    let queue := if (alo <? i) && (blo <? j) then (alo, i, blo, j) :: queue else queue in
    if (i + k <? ahi) && (j + k <? bhi) then (i + k, ahi, j + k, bhi) :: queue else queue.

Lemma blocks_loop_step (fuel : nat) (w : Z * Z * Z * Z) (queue : list (Z * Z * Z * Z))
  (matching_blocks : list Match) :
  blocks_loop (S fuel) sm (w :: queue) matching_blocks
  = blocks_loop fuel sm (queue_step w queue)
      (if size (let '(alo, ahi, blo, bhi) := w in find_longest_match sm alo ahi blo bhi)
          =? 0
       then matching_blocks
       else matching_blocks
              ++ [let '(alo, ahi, blo, bhi) := w in find_longest_match sm alo ahi blo bhi]).
Proof.
  destruct w as [[[alo ahi] blo] bhi]. simpl.
  destruct (find_longest_match sm alo ahi blo bhi) as [[i j] k]. simpl.
  destruct (k =? 0); reflexivity.
Qed.

Lemma queue_step_ok (w : Z * Z * Z * Z) (queue : list (Z * Z * Z * Z)) :
  window_ok w -> Forall window_ok queue ->
  Forall window_ok (queue_step w queue)
  /\ queue_weight (queue_step w queue) < queue_weight (w :: queue)
  /\ list_sum_Z (map a_span (queue_step w queue))
     + size (let '(alo, ahi, blo, bhi) := w in find_longest_match sm alo ahi blo bhi)
     <= list_sum_Z (map a_span (w :: queue))
  /\ list_sum_Z (map b_span (queue_step w queue))
     + size (let '(alo, ahi, blo, bhi) := w in find_longest_match sm alo ahi blo bhi)
     <= list_sum_Z (map b_span (w :: queue))
  /\ 0 <= size (let '(alo, ahi, blo, bhi) := w in find_longest_match sm alo ahi blo bhi).
Proof.
  destruct w as [[[alo ahi] blo] bhi]. intros (Ha & Hb) Hq.
  pose proof (find_longest_match_ok sm alo ahi blo bhi Ha Hb) as Hbest.
  unfold queue_step, queue_weight. destruct (find_longest_match sm alo ahi blo bhi) as [[i j] k].
  unfold best_ok in Hbest. simpl size.
  destruct (k =? 0) eqn:Hk; [simpl; split; [exact Hq | lia] |].
  apply Z.eqb_neq in Hk.
  destruct ((alo <? i) && (blo <? j)) eqn:Hleft;
    destruct ((i + k <? ahi) && (j + k <? bhi)) eqn:Hright;
    repeat rewrite andb_true_iff in *; repeat rewrite Z.ltb_lt in *; simpl;
    (split; [repeat constructor; try exact Hq; simpl; lia | lia]).
Qed.

Lemma blocks_loop_fuel (fuel : nat) :
  forall fuel' queue matching_blocks,
    Forall window_ok queue ->
    queue_weight queue <= Z.of_nat fuel ->
    queue_weight queue <= Z.of_nat fuel' ->
    blocks_loop fuel sm queue matching_blocks = blocks_loop fuel' sm queue matching_blocks.
Proof.
  induction fuel as [| fuel IH]; intros fuel' queue mb Hq Hf Hf'.
  - destruct (queue_weight_pos queue Hq) as (_ & Hpos).
    destruct queue as [| w queue]; [destruct fuel'; reflexivity |].
    specialize (Hpos ltac:(discriminate)). lia.
  - destruct queue as [| w queue]; [destruct fuel'; reflexivity |].
    destruct (queue_weight_pos (w :: queue) Hq) as (_ & Hpos).
    specialize (Hpos ltac:(discriminate)).
    destruct fuel' as [| fuel']; [lia |].
    inversion Hq as [| ? ? Hw Hq']; subst.
    destruct (queue_step_ok w queue Hw Hq') as (Hok & Hlt & _).
    rewrite !blocks_loop_step. apply IH; [exact Hok | lia | lia].
Qed.

(** [get_matching_blocks] hands the loop as much fuel as it can use: with
    any larger amount the same blocks come out. *)
Lemma queue_fuel_enough (fuel : nat) :
  (queue_fuel (Z.of_nat (List.length (a sm))) <= fuel)%nat ->
  blocks_loop fuel sm
    [(0, Z.of_nat (List.length (a sm)), 0, Z.of_nat (List.length (b sm)))] []
  = blocks_loop (queue_fuel (Z.of_nat (List.length (a sm)))) sm
      [(0, Z.of_nat (List.length (a sm)), 0, Z.of_nat (List.length (b sm)))] [].
Proof.
  intros Hfuel. unfold queue_fuel in *.
  apply blocks_loop_fuel; [repeat constructor; lia | |];
    unfold queue_weight; simpl; lia.
Qed.

Lemma sum_Z_fold (l : list Z) : forall acc, fold_left Z.add l acc = acc + list_sum_Z l.
Proof.
  induction l as [| x l IH]; simpl; intros acc; [lia |]. rewrite IH. lia.
Qed.

Lemma sum_Z_list_sum (l : list Z) : sum_Z l = list_sum_Z l.
Proof. unfold sum_Z. now rewrite sum_Z_fold. Qed.

Lemma list_sum_Z_app (l l' : list Z) : list_sum_Z (l ++ l') = list_sum_Z l + list_sum_Z l'.
Proof. induction l as [| x l IH]; simpl; lia. Qed.

Lemma list_sum_Z_perm (l l' : list Z) : Permutation l l' -> list_sum_Z l = list_sum_Z l'.
Proof. induction 1; simpl; lia. Qed.

(** The sizes of a list of blocks, summed *)
Definition total_size (blocks : list Match) : Z := list_sum_Z (map size blocks).

Lemma blocks_loop_total (fuel : nat) :
  forall queue matching_blocks,
    Forall window_ok queue ->
    0 <= total_size matching_blocks ->
    0 <= total_size (blocks_loop fuel sm queue matching_blocks)
    /\ total_size (blocks_loop fuel sm queue matching_blocks)
       <= total_size matching_blocks + list_sum_Z (map a_span queue)
    /\ total_size (blocks_loop fuel sm queue matching_blocks)
       <= total_size matching_blocks + list_sum_Z (map b_span queue).
Proof.
  assert (Hspan : forall queue, Forall window_ok queue ->
            0 <= list_sum_Z (map a_span queue) /\ 0 <= list_sum_Z (map b_span queue)).
  { induction 1 as [| [[[alo ahi] blo] bhi] queue Hw _ IH]; simpl; [lia |].
    unfold window_ok in Hw. lia. }
  induction fuel as [| fuel IH]; intros queue mb Hq Hmb.
  - simpl. destruct (Hspan queue Hq). lia.
  - destruct queue as [| w queue]; [simpl; lia |].
    inversion Hq as [| ? ? Hw Hq']; subst.
    destruct (queue_step_ok w queue Hw Hq') as (Hok & _ & Ha & Hb & Hk).
    rewrite blocks_loop_step.
    set (x := let '(alo, ahi, blo, bhi) := w in find_longest_match sm alo ahi blo bhi) in *.
    assert (Hmb' : total_size (if size x =? 0 then mb else mb ++ [x]) = total_size mb + size x).
    { destruct (size x =? 0) eqn:Hz; [apply Z.eqb_eq in Hz; lia |].
      unfold total_size. rewrite map_app, list_sum_Z_app. simpl. lia. }
    destruct (IH (queue_step w queue) (if size x =? 0 then mb else mb ++ [x]) Hok)
      as (H0 & H1 & H2); [lia |].
    rewrite Hmb' in H1, H2. repeat split; [exact H0 | lia | lia].
Qed.

Lemma collapse_total (blocks : list Match) :
  forall cur non_adjacent,
    size (fst (collapse blocks cur non_adjacent))
    + total_size (snd (collapse blocks cur non_adjacent))
    = size cur + total_size non_adjacent + total_size blocks.
Proof.
  induction blocks as [| [[i2 j2] k2] blocks IH]; intros [[i1 j1] k1] na; simpl;
    [unfold total_size; simpl; lia |].
  destruct (_ && _).
  - rewrite IH. unfold total_size. simpl. lia.
  - rewrite IH. unfold total_size. simpl.
    destruct (k1 =? 0) eqn:Hk; [apply Z.eqb_eq in Hk; lia |].
    rewrite map_app, list_sum_Z_app. simpl. lia.
Qed.

Lemma matches_total :
  sum_Z (map size (get_matching_blocks sm))
  = total_size (blocks_loop (queue_fuel (Z.of_nat (List.length (a sm)))) sm
                  [(0, Z.of_nat (List.length (a sm)), 0, Z.of_nat (List.length (b sm)))] []).
Proof.
  unfold get_matching_blocks.
  set (blocks := blocks_loop _ sm _ []).
  pose proof (collapse_total (sort_by match_ltb blocks) (0, 0, 0) []) as Hc.
  destruct (collapse (sort_by match_ltb blocks) (0, 0, 0) []) as [cur na].
  simpl in Hc. rewrite sum_Z_list_sum.
  assert (Hsort : total_size (sort_by match_ltb blocks) = total_size blocks).
  { unfold total_size. apply list_sum_Z_perm, Permutation_map.
    symmetry. apply sort_by_Permutation. }
  rewrite map_app, list_sum_Z_app. simpl.
  destruct (size cur =? 0) eqn:Hz.
  - apply Z.eqb_eq in Hz. fold (total_size na). unfold total_size at 2 in Hc. simpl in Hc. lia.
  - rewrite map_app, list_sum_Z_app. simpl. fold (total_size na).
    unfold total_size at 2 in Hc. simpl in Hc. lia.
Qed.

Lemma matches_bound :
  0 <= sum_Z (map size (get_matching_blocks sm))
  /\ 2 * sum_Z (map size (get_matching_blocks sm))
     <= Z.of_nat (List.length (a sm)) + Z.of_nat (List.length (b sm)).
Proof.
  rewrite matches_total.
  destruct (blocks_loop_total (queue_fuel (Z.of_nat (List.length (a sm))))
              [(0, Z.of_nat (List.length (a sm)), 0, Z.of_nat (List.length (b sm)))] [])
    as (H0 & Ha & Hb); [repeat constructor; lia | unfold total_size; simpl; lia |].
  unfold total_size at 2 in Ha. unfold total_size at 2 in Hb. simpl in Ha, Hb. lia.
Qed.

End LoopFuel.

Lemma inject_Z_ge_1 (n : Z) : 1 <= n -> (1 <= inject_Z n)%Q.
Proof. intros Hn. change 1%Q with (inject_Z 1). now rewrite <- Zle_Qle. Qed.

Lemma inject_Z_nonneg (n : Z) : 0 <= n -> (0 <= inject_Z n)%Q.
Proof. intros Hn. change 0%Q with (inject_Z 0). now rewrite <- Zle_Qle. Qed.

(** The two converted ints of [_calculate_ratio] *)
Lemma calculate_ratio_floats (matches length : Z) :
  0 <= matches -> 2 * matches <= length -> length <> 0 ->
  (0 <= 2 * rnd (inject_Z matches) <= rnd (inject_Z length))%Q
  /\ (1 <= rnd (inject_Z length))%Q.
Proof.
  intros Hm Hl Hz.
  assert (Hlen : (1 <= rnd (inject_Z length))%Q) by (apply rnd_ge_1, inject_Z_ge_1; lia).
  split; [| exact Hlen]. split.
  - pose proof (rnd_nonneg (inject_Z matches) (inject_Z_nonneg _ Hm)). lra.
  - destruct (Z.eq_dec matches 0) as [-> | Hne].
    + change (rnd (inject_Z 0)) with 0%Q. lra.
    + rewrite <- rnd_scale2.
      * apply rnd_mono.
        assert (He : (2 * inject_Z matches == inject_Z (2 * matches))%Q)
          by (rewrite inject_Z_mult; reflexivity).
        rewrite He, <- Zle_Qle. exact Hl.
      * apply Qle_trans with 1%Q; [| apply inject_Z_ge_1; lia].
        change 1%Q with (2 ^ 0)%Q. apply two_mono. lia.
Qed.

Lemma calculate_ratio_bounds (matches length : Z) :
  0 <= matches -> 2 * matches <= length ->
  (0 <= difflib._calculate_ratio matches length <= 1)%Q.
Proof.
  intros Hm Hl. unfold difflib._calculate_ratio.
  destruct (length =? 0) eqn:Hz; simpl; [split; discriminate |].
  apply Z.eqb_neq in Hz.
  destruct (calculate_ratio_floats matches length Hm Hl Hz) as ((Hlo & Hhi) & Hlen).
  unfold fdiv, fmul. rewrite (rnd_comp _ _ (Qdiv_comp _ _ (rnd_double _) _ _ (Qeq_refl _))).
  split.
  - apply rnd_nonneg. apply Qle_shift_div_l; lra.
  - apply rnd_le_1. apply Qle_shift_div_r; lra.
Qed.

(** [2.0 * n / (n + n)] is [1.0]. *)
Lemma ratio_of_all (n : Z) :
  0 < n ->
  (fdiv (fmul 2 (rnd (inject_Z n))) (rnd (inject_Z (n + n))) == 1)%Q.
Proof.
  intros Hn.
  assert (Hone : (1 <= rnd (inject_Z n))%Q) by (apply rnd_ge_1, inject_Z_ge_1; lia).
  assert (Hsum : (rnd (inject_Z (n + n)) == 2 * rnd (inject_Z n))%Q).
  { assert (He : (inject_Z (n + n) == 2 * inject_Z n)%Q) by (rewrite inject_Z_plus; ring).
    rewrite (rnd_comp _ _ He). apply rnd_scale2.
    apply Qle_trans with 1%Q; [| apply inject_Z_ge_1; lia].
    change 1%Q with (2 ^ 0)%Q. apply two_mono. lia. }
  unfold fdiv, fmul.
  assert (Hq : (rnd (2 * rnd (inject_Z n)) / rnd (inject_Z (n + n)) == 1)%Q).
  { rewrite rnd_double, Hsum. field. lra. }
  now rewrite (rnd_comp _ _ Hq).
Qed.

Lemma ratio_bounds (sm : difflib.SequenceMatcher) : (0 <= difflib.ratio sm <= 1)%Q.
Proof.
  unfold difflib.ratio. destruct (matches_bound sm). now apply calculate_ratio_bounds.
Qed.

(** ** difflib: a sequence against itself *)

Section ChainB.

Import difflib.

(** The positions of [c] in [l], counted from [i], in ascending order *)
Fixpoint positions (c : ascii) (l : list ascii) (i : Z) : list Z :=
  match l with
  | [] => []
  | x :: l' => if Ascii.eqb x c then i :: positions c l' (i + 1) else positions c l' (i + 1)
  end.

Lemma b2j_append_get (b2j : list (ascii * list Z)) (elt : ascii) (i : Z) (c : ascii) :
  b2j_get (b2j_append b2j elt i) c
  = if Ascii.eqb elt c then b2j_get b2j c ++ [i] else b2j_get b2j c.
Proof.
  induction b2j as [| [e indices] rest IH]; simpl.
  - destruct (Ascii.eqb elt c); reflexivity.
  - destruct (Ascii.eqb e elt) eqn:He; simpl.
    + apply Ascii.eqb_eq in He. subst e. destruct (Ascii.eqb elt c); reflexivity.
    + rewrite IH. destruct (Ascii.eqb e c) eqn:Hc; [| reflexivity].
      apply Ascii.eqb_eq in Hc. subst e. now rewrite Ascii.eqb_sym, He.
Qed.

Lemma chain_loop_get (l : list ascii) (c : ascii) :
  forall i b2j, b2j_get (chain_loop l i b2j) c = b2j_get b2j c ++ positions c l i.
Proof.
  induction l as [| x l IH]; simpl; intros i b2j; [now rewrite app_nil_r |].
  rewrite IH, b2j_append_get. destruct (Ascii.eqb x c); [| reflexivity].
  now rewrite <- app_assoc.
Qed.

Lemma b2j_append_keys_In (b2j : list (ascii * list Z)) (elt : ascii) (i : Z) (x : ascii) :
  In x (map fst (b2j_append b2j elt i)) -> x = elt \/ In x (map fst b2j).
Proof.
  induction b2j as [| [e indices] rest IH]; simpl.
  - intuition.
  - destruct (Ascii.eqb e elt); simpl; [tauto |].
    intros [-> | Hx]; [auto |]. destruct (IH Hx); auto.
Qed.

Lemma b2j_append_keys (b2j : list (ascii * list Z)) (elt : ascii) (i : Z) :
  NoDup (map fst b2j) -> NoDup (map fst (b2j_append b2j elt i)).
Proof.
  induction b2j as [| [e indices] rest IH]; simpl; intros Hnd.
  - repeat constructor. simpl. tauto.
  - inversion Hnd as [| ? ? He Hrest]; subst.
    destruct (Ascii.eqb e elt) eqn:Heq; simpl; [constructor; assumption |].
    constructor; [| now apply IH].
    intros Hin. apply b2j_append_keys_In in Hin as [-> | Hin]; [| contradiction].
    rewrite Ascii.eqb_refl in Heq. discriminate.
Qed.

Lemma chain_loop_keys (l : list ascii) :
  forall i b2j, NoDup (map fst b2j) -> NoDup (map fst (chain_loop l i b2j)).
Proof.
  induction l as [| x l IH]; simpl; intros i b2j Hnd; [exact Hnd |].
  apply IH. now apply b2j_append_keys.
Qed.

Lemma b2j_get_absent (b2j : list (ascii * list Z)) (c : ascii) :
  ~ In c (map fst b2j) -> b2j_get b2j c = [].
Proof.
  induction b2j as [| [e indices] rest IH]; simpl; intros Hc; [reflexivity |].
  destruct (Ascii.eqb e c) eqn:He; [apply Ascii.eqb_eq in He; tauto | tauto].
Qed.

Lemma b2j_get_filter (p : ascii * list Z -> bool) (b2j : list (ascii * list Z)) (c : ascii) :
  NoDup (map fst b2j) ->
  b2j_get (filter p b2j) c = [] \/ b2j_get (filter p b2j) c = b2j_get b2j c.
Proof.
  induction b2j as [| [e indices] rest IH]; simpl; intros Hnd; [auto |].
  inversion Hnd as [| ? ? He Hrest]; subst.
  destruct (p (e, indices)); simpl; destruct (Ascii.eqb e c) eqn:Hc; auto.
  left. apply b2j_get_absent. apply Ascii.eqb_eq in Hc. subst e.
  intros Hin. apply He. apply in_map_iff in Hin as (x & Hx & Hin).
  apply filter_In in Hin as (Hin & _). rewrite <- Hx. now apply in_map.
Qed.

(** What [b2j.get(c, nothing)] is after [__chain_b]: every position of [c],
    or nothing when [c] does not occur or was purged as popular. *)
Lemma chain_b_get (l : list ascii) (c : ascii) :
  b2j_get (chain_b l) c = [] \/ b2j_get (chain_b l) c = positions c l 0.
Proof.
  unfold chain_b.
  assert (Hall : b2j_get (chain_loop l 0 []) c = positions c l 0)
    by (now rewrite chain_loop_get).
  destruct (200 <=? Z.of_nat (List.length l)); [| now right].
  rewrite <- Hall. apply b2j_get_filter. apply chain_loop_keys. constructor.
Qed.

Lemma positions_In (c : ascii) (l : list ascii) :
  forall i j, In j (positions c l i) <->
              i <= j < i + Z.of_nat (List.length l) /\ item l (j - i) = c.
Proof.
  unfold item. induction l as [| x l IH]; intros i j.
  - simpl. split; [tauto | lia].
  - cbn [positions List.length]. split.
    + intros Hin.
      assert (Hcase : (x = c /\ j = i) \/ In j (positions c l (i + 1))).
      { destruct (Ascii.eqb x c) eqn:Hx; [| now right].
        apply Ascii.eqb_eq in Hx. destruct Hin as [<- | Hin]; auto. }
      destruct Hcase as [(-> & ->) | Hj].
      * split; [lia |]. now rewrite Z.sub_diag.
      * apply IH in Hj as (Hr & Hc). split; [lia |].
        replace (Z.to_nat (j - i)) with (S (Z.to_nat (j - (i + 1)))) by lia. exact Hc.
    + intros (Hr & Hc). destruct (Z.eq_dec j i) as [-> | Hne].
      * rewrite Z.sub_diag in Hc. simpl in Hc. subst x. rewrite Ascii.eqb_refl. now left.
      * assert (Hj : In j (positions c l (i + 1))).
        { apply IH. split; [lia |].
          replace (Z.to_nat (j - i)) with (S (Z.to_nat (j - (i + 1)))) in Hc by lia.
          exact Hc. }
        destruct (Ascii.eqb x c); [now right | exact Hj].
Qed.

Lemma positions_sorted (c : ascii) (l : list ascii) :
  forall i, StronglySorted Z.lt (positions c l i).
Proof.
  induction l as [| x l IH]; simpl; intros i; [constructor |].
  destruct (Ascii.eqb x c); [| apply IH].
  constructor; [apply IH |]. apply Forall_forall. intros j Hj.
  apply positions_In in Hj. lia.
Qed.

End ChainB.

Section SelfMatch.

Import difflib.

#[local] Arguments Z.mul : simpl never.
#[local] Arguments Z.add : simpl never.
#[local] Arguments Z.sub : simpl never.

Lemma gtb_le (x y : Z) : x <= y -> (x >? y) = false.
Proof. rewrite Z.gtb_ltb. apply Z.ltb_ge. Qed.

Lemma gtb_elim (x y : Z) : if x >? y then y < x else x <= y.
Proof. rewrite Z.gtb_ltb. destruct (Z.ltb_spec y x); lia. Qed.

Variable s : list ascii.

(** Position [i] holds an element that [b2j] kept. *)
Definition kept (i : Z) : bool := negb (is_empty (b2j_get (chain_b s) (item s i))).

(** The length of the run of kept positions that ends just before [k] *)
Fixpoint kept_run (k : nat) : Z :=
  match k with
  | O => 0
  | S k' => if kept (Z.of_nat k') then kept_run k' + 1 else 0
  end.

Definition run_to (i : Z) : Z := kept_run (Z.to_nat i).

Lemma run_to_succ (i : Z) :
  0 <= i -> run_to (i + 1) = if kept i then run_to i + 1 else 0.
Proof.
  intros Hi. unfold run_to.
  replace (Z.to_nat (i + 1)) with (S (Z.to_nat i)) by lia. simpl.
  now rewrite Z2Nat.id by exact Hi.
Qed.

Lemma run_to_nonneg (i : Z) : 0 <= run_to i.
Proof.
  unfold run_to. induction (Z.to_nat i) as [| k IH]; simpl; [lia |].
  destruct (kept (Z.of_nat k)); lia.
Qed.

(** What the rows above row [i] left in [j2len] *)
Definition j2len_above (i : Z) (j2len : list (Z * Z)) : Prop :=
  (forall j, 0 <= j ->
     j2len_get j2len (j - 1) <= run_to i /\ j2len_get j2len (j - 1) <= run_to j)
  /\ j2len_get j2len (i - 1) = run_to i.

(** The entries written on row [i] *)
Definition entries_on (i : Z) (newj2len : list (Z * Z)) : Prop :=
  Forall (fun entry => snd entry <= run_to (i + 1)
                       /\ snd entry <= run_to (fst entry + 1)
                       /\ 0 <= fst entry) newj2len.

Lemma entries_on_get (i : Z) (newj2len : list (Z * Z)) :
  entries_on i newj2len ->
  forall j, 0 <= j ->
    j2len_get newj2len (j - 1) <= run_to (i + 1) /\ j2len_get newj2len (j - 1) <= run_to j.
Proof.
  intros Hall j Hj. induction Hall as [| [j' v] l (H1 & H2 & H3) _ IH]; simpl.
  - split; apply run_to_nonneg.
  - destruct (j' =? j - 1) eqn:He; [| exact IH].
    apply Z.eqb_eq in He. simpl in H1, H2. subst j'.
    replace (j - 1 + 1) with j in H2 by lia. auto.
Qed.

Lemma inner_loop_self (i : Z) (j2len : list (Z * Z)) :
  0 <= i < Z.of_nat (List.length s) -> kept i = true -> j2len_above i j2len ->
  forall js newj2len bb bk,
    StronglySorted Z.lt js ->
    (forall j, In j js -> 0 <= j < Z.of_nat (List.length s) /\ kept j = true) ->
    entries_on i newj2len ->
    (forall i', 0 <= i' <= i -> run_to i' <= bk) ->
    (In i js
     \/ (run_to (i + 1) <= bk /\ j2len_get newj2len i = run_to (i + 1)
         /\ forall j, In j js -> i < j)) ->
    entries_on i
      (fst (inner_loop js i 0 (Z.of_nat (List.length s)) j2len newj2len (bb, bb, bk)))
    /\ j2len_get
         (fst (inner_loop js i 0 (Z.of_nat (List.length s)) j2len newj2len (bb, bb, bk))) i
       = run_to (i + 1)
    /\ exists bb' bk',
         snd (inner_loop js i 0 (Z.of_nat (List.length s)) j2len newj2len (bb, bb, bk))
         = (bb', bb', bk')
         /\ forall i', 0 <= i' <= i + 1 -> run_to i' <= bk'.
Proof.
  intros Hi Hkept (Hget & Hdiag).
  assert (Hrun : run_to (i + 1) = run_to i + 1)
    by (rewrite run_to_succ by lia; now rewrite Hkept).
  induction js as [| j js IH]; intros newj2len bb bk Hsorted Hjs Hnew Hbk Hcase.
  - simpl. destruct Hcase as [[] | (Hb & Hg & _)].
    split; [exact Hnew |]. split; [exact Hg |]. exists bb, bk. split; [reflexivity |].
    intros i' Hi'. destruct (Z.eq_dec i' (i + 1)) as [-> | Hne]; [exact Hb |].
    apply Hbk. lia.
  - inversion Hsorted as [| ? ? Hsorted' Hhead]; subst.
    rewrite Forall_forall in Hhead.
    destruct (Hjs j (or_introl eq_refl)) as (Hj & Hkj).
    assert (Hrj : run_to (j + 1) = run_to j + 1)
      by (rewrite run_to_succ by lia; now rewrite Hkj).
    destruct (Hget j ltac:(lia)) as (Hk1 & Hk2).
    cbn [inner_loop].
    replace (j <? 0) with false by (symmetry; apply Z.ltb_ge; lia).
    replace (Z.of_nat (List.length s) <=? j) with false by (symmetry; apply Z.leb_gt; lia).
    cbn [size snd].
    set (k := j2len_get j2len (j - 1) + 1) in *.
    assert (Hnew' : entries_on i ((j, k) :: newj2len)).
    { constructor; [| exact Hnew]. simpl. unfold k. lia. }
    assert (Hjs' : forall j', In j' js ->
                     0 <= j' < Z.of_nat (List.length s) /\ kept j' = true)
      by (intros j' Hj'; apply Hjs; now right).
    destruct (Z.lt_trichotomy j i) as [Hlt | [Heq | Hgt]].
    + assert (Hin : In i js).
      { destruct Hcase as [[Heq | Hin] | (_ & _ & Hall)]; [lia | exact Hin |].
        specialize (Hall j (or_introl eq_refl)). lia. }
      assert (Hle : k <= bk).
      { specialize (Hbk (j + 1) ltac:(lia)). unfold k. lia. }
      rewrite (gtb_le k bk) by lia.
      apply IH; auto.
    + subst j.
      assert (Hk : k = run_to (i + 1)) by (unfold k; lia).
      assert (Hafter : forall j, In j js -> i < j) by (intros j' Hj'; now apply Hhead).
      assert (Hgeti : j2len_get ((i, k) :: newj2len) i = run_to (i + 1))
        by (simpl; now rewrite Z.eqb_refl).
      pose proof (gtb_elim k bk) as Hupd. destruct (k >? bk).
      * apply IH; auto.
        -- intros i' Hi'. specialize (Hbk i' Hi'). lia.
        -- right. split; [lia | auto].
      * apply IH; auto. right. split; [lia | auto].
    + assert (Hright : run_to (i + 1) <= bk /\ j2len_get newj2len i = run_to (i + 1)
                       /\ forall j', In j' (j :: js) -> i < j').
      { destruct Hcase as [[Heq | Hin] | Hr]; [lia | | exact Hr].
        specialize (Hhead i Hin). lia. }
      destruct Hright as (Hb & Hg & Hall).
      rewrite (gtb_le k bk) by (unfold k; lia).
      apply IH; auto. right. split; [exact Hb |]. split.
      * simpl. replace (j =? i) with false by (symmetry; apply Z.eqb_neq; lia). exact Hg.
      * intros j' Hj'. apply Hall. now right.
Qed.

Lemma row_cases (i : Z) :
  0 <= i < Z.of_nat (List.length s) ->
  (b2j_get (chain_b s) (item s i) = [] /\ kept i = false)
  \/ (b2j_get (chain_b s) (item s i) = positions (item s i) s 0
      /\ kept i = true
      /\ In i (positions (item s i) s 0)
      /\ forall j, In j (positions (item s i) s 0) ->
           0 <= j < Z.of_nat (List.length s) /\ kept j = true).
Proof.
  intros Hi.
  assert (Hin : In i (positions (item s i) s 0)).
  { apply positions_In. split; [lia |]. now rewrite Z.sub_0_r. }
  unfold kept. destruct (chain_b_get s (item s i)) as [Hnil | Hall].
  - left. now rewrite Hnil.
  - right. rewrite Hall. split; [reflexivity |].
    assert (Hne : is_empty (positions (item s i) s 0) = false)
      by (destruct (positions (item s i) s 0); [destruct Hin | reflexivity]).
    split; [now rewrite Hne |]. split; [exact Hin |].
    intros j Hj. apply positions_In in Hj as (Hr & Hc). rewrite Z.sub_0_r in Hc.
    split; [lia |]. now rewrite Hc, Hall, Hne.
Qed.

Lemma outer_loop_self (m : nat) :
  forall i j2len bb bk,
    Z.of_nat m = Z.of_nat (List.length s) - i -> 0 <= i ->
    j2len_above i j2len ->
    (forall i', 0 <= i' <= i -> run_to i' <= bk) ->
    exists bb' bk',
      outer_loop (new s s) (range i (Z.of_nat (List.length s)))
        0 (Z.of_nat (List.length s)) j2len (bb, bb, bk) = (bb', bb', bk').
Proof.
  induction m as [| m IH]; intros i j2len bb bk Hm Hi Habove Hbk; rewrite range_unfold.
  - replace (i <? Z.of_nat (List.length s)) with false by (symmetry; apply Z.ltb_ge; lia).
    simpl. eauto.
  - replace (i <? Z.of_nat (List.length s)) with true by (symmetry; apply Z.ltb_lt; lia).
    cbn [outer_loop new a b b2j].
    destruct (row_cases i ltac:(lia)) as [(Hnil & Hk) | (Hall & Hk & Hin & Hjs)].
    + rewrite Hnil. cbn [inner_loop]. apply IH; [lia | lia | |].
      * assert (Hrun : run_to (i + 1) = 0) by (rewrite run_to_succ by lia; now rewrite Hk).
        split; [intros j Hj; simpl; split; apply run_to_nonneg |].
        simpl. now rewrite Hrun.
      * intros i' Hi'. destruct (Z.eq_dec i' (i + 1)) as [-> | Hne]; [| apply Hbk; lia].
        rewrite run_to_succ by lia. rewrite Hk. specialize (Hbk 0 ltac:(lia)).
        unfold run_to in Hbk. simpl in Hbk. exact Hbk.
    + rewrite Hall.
      destruct (inner_loop_self i j2len ltac:(lia) Hk Habove
                  (positions (item s i) s 0) [] bb bk)
        as (Hnew & Hget & bb' & bk' & Hbest & Hbk');
        [apply positions_sorted | exact Hjs | constructor | exact Hbk | now left |].
      destruct (inner_loop _ i 0 _ j2len [] (bb, bb, bk)) as [newj2len best'].
      simpl in Hnew, Hget, Hbest. subst best'.
      apply IH; [lia | lia | | exact Hbk'].
      split.
      * intros j Hj. now apply entries_on_get.
      * replace (i + 1 - 1) with i by lia. exact Hget.
Qed.

Lemma extend_back_self (fuel : nat) :
  forall bb bk,
    0 <= bb <= Z.of_nat fuel ->
    extend_back fuel (new s s) false 0 0 (bb, bb, bk) = (0, 0, bk + bb).
Proof.
  induction fuel as [| fuel IH]; intros bb bk Hbb; cbn [extend_back].
  - replace bb with 0 by lia. f_equal. lia.
  - cbn [new a b isbjunk Bool.eqb]. rewrite Ascii.eqb_refl, !andb_true_r, andb_diag.
    pose proof (gtb_elim bb 0) as Hgt. destruct (bb >? 0).
    + rewrite IH by lia. f_equal. lia.
    + replace bb with 0 by lia. f_equal. lia.
Qed.

Lemma extend_fwd_self (fuel : nat) :
  forall k,
    0 <= k <= Z.of_nat (List.length s) ->
    Z.of_nat (List.length s) - k <= Z.of_nat fuel ->
    extend_fwd fuel (new s s) false (Z.of_nat (List.length s)) (Z.of_nat (List.length s))
      (0, 0, k)
    = (0, 0, Z.of_nat (List.length s)).
Proof.
  induction fuel as [| fuel IH]; intros k Hk Hfuel; cbn [extend_fwd].
  - f_equal. lia.
  - cbn [new a b isbjunk Bool.eqb]. rewrite Ascii.eqb_refl, !andb_true_r, andb_diag.
    destruct (0 + k <? Z.of_nat (List.length s)) eqn:Hlt.
    + apply Z.ltb_lt in Hlt. rewrite IH by lia. reflexivity.
    + apply Z.ltb_ge in Hlt. f_equal. lia.
Qed.

Lemma extend_back_junk (fuel : nat) (sm : SequenceMatcher) (alo blo : Z) (best : Match) :
  extend_back fuel sm true alo blo best = best.
Proof.
  destruct fuel as [| fuel]; [reflexivity |]. destruct best as [[besti bestj] bestsize].
  cbn [extend_back isbjunk Bool.eqb]. now rewrite andb_false_r.
Qed.

Lemma extend_fwd_junk (fuel : nat) (sm : SequenceMatcher) (ahi bhi : Z) (best : Match) :
  extend_fwd fuel sm true ahi bhi best = best.
Proof.
  destruct fuel as [| fuel]; [reflexivity |]. destruct best as [[besti bestj] bestsize].
  cbn [extend_fwd isbjunk Bool.eqb]. now rewrite andb_false_r.
Qed.

Lemma find_longest_match_self :
  find_longest_match (new s s) 0 (Z.of_nat (List.length s)) 0 (Z.of_nat (List.length s))
  = (0, 0, Z.of_nat (List.length s)).
Proof.
  unfold find_longest_match. rewrite extend_fwd_junk, extend_back_junk.
  pose proof (outer_loop_ok (new s s) 0 (Z.of_nat (List.length s)) 0
                (Z.of_nat (List.length s)) (List.length s) 0 [] (0, 0, 0)
                ltac:(lia) ltac:(lia) ltac:(constructor)
                ltac:(unfold best_ok; lia)) as Hok.
  destruct (outer_loop_self (List.length s) 0 [] 0 0) as (bb & bk & Hout).
  - lia.
  - lia.
  - split; [intros j Hj; simpl; split; apply run_to_nonneg | reflexivity].
  - intros i' Hi'. replace i' with 0 by lia. reflexivity.
  - rewrite Hout in *. unfold best_ok in Hok. unfold while_fuel.
    rewrite extend_back_self by lia. apply extend_fwd_self; lia.
Qed.

Lemma blocks_loop_self :
  blocks_loop (queue_fuel (Z.of_nat (List.length s))) (new s s)
    [(0, Z.of_nat (List.length s), 0, Z.of_nat (List.length s))] []
  = if Z.of_nat (List.length s) =? 0 then []
    else [(0, 0, Z.of_nat (List.length s))].
Proof.
  unfold queue_fuel.
  replace (Z.to_nat (2 * Z.of_nat (List.length s) + 1))
    with (S (Z.to_nat (2 * Z.of_nat (List.length s)))) by lia.
  cbn [blocks_loop]. rewrite find_longest_match_self.
  destruct (Z.of_nat (List.length s) =? 0) eqn:Hz.
  - now destruct (Z.to_nat _).
  - rewrite Z.ltb_irrefl. cbn [andb].
    replace (0 + Z.of_nat (List.length s) <? Z.of_nat (List.length s)) with false
      by (symmetry; apply Z.ltb_ge; lia).
    cbn [andb]. now destruct (Z.to_nat _).
Qed.

(** A sequence compared with itself has ratio 1. *)
Lemma ratio_self : (ratio (new s s) == 1)%Q.
Proof.
  unfold ratio, get_matching_blocks. cbn [new a b]. rewrite blocks_loop_self.
  destruct (Z.of_nat (List.length s) =? 0) eqn:Hz.
  - apply Z.eqb_eq in Hz. rewrite Hz. reflexivity.
  - apply Z.eqb_neq in Hz. cbn [sort_by fold_right insert_by collapse].
    rewrite !Z.eqb_refl. cbn [andb collapse size snd].
    replace (0 + Z.of_nat (List.length s) =? 0) with false
      by (symmetry; apply Z.eqb_neq; lia).
    cbn [app map size snd]. unfold sum_Z. cbn [fold_left]. unfold _calculate_ratio.
    replace (Z.of_nat (List.length s) + Z.of_nat (List.length s) =? 0) with false
      by (symmetry; apply Z.eqb_neq; lia).
    cbn [negb].
    replace (0 + (0 + Z.of_nat (List.length s)) + 0) with (Z.of_nat (List.length s)) by lia.
    apply ratio_of_all. lia.
Qed.

End SelfMatch.

(** The [while] loops of [find_longest_match] stop by their own tests: any
    fuel from [while_fuel] upwards gives the same match. *)
Lemma while_fuel_enough (sm : difflib.SequenceMatcher) (alo ahi blo bhi : Z)
  (f1 f2 f3 f4 : nat) :
  alo <= ahi -> blo <= bhi ->
  (difflib.while_fuel alo ahi <= f1)%nat -> (difflib.while_fuel alo ahi <= f2)%nat ->
  difflib.extend_fwd f4 sm true ahi bhi
    (difflib.extend_back f3 sm true alo blo
       (difflib.extend_fwd f2 sm false ahi bhi
          (difflib.extend_back f1 sm false alo blo
             (difflib.outer_loop sm (difflib.range alo ahi) blo bhi [] (alo, blo, 0)))))
  = difflib.find_longest_match sm alo ahi blo bhi.
Proof.
  intros Ha Hb Hf1 Hf2. unfold difflib.find_longest_match, difflib.while_fuel in *.
  rewrite !extend_fwd_junk, !extend_back_junk.
  pose proof (outer_loop_ok sm alo ahi blo bhi (Z.to_nat (ahi - alo)) alo [] (alo, blo, 0)
                ltac:(lia) ltac:(lia) ltac:(constructor)
                ltac:(unfold best_ok; lia)) as Hout.
  set (best := difflib.outer_loop sm (difflib.range alo ahi) blo bhi [] (alo, blo, 0)) in *.
  assert (Hback : difflib.extend_back f1 sm false alo blo best
                  = difflib.extend_back (Z.to_nat (ahi - alo)) sm false alo blo best).
  { destruct best as [[besti bestj] bestsize]. unfold best_ok in Hout.
    apply extend_back_fuel; simpl; lia. }
  rewrite Hback.
  pose proof (extend_back_ok sm alo ahi blo bhi (Z.to_nat (ahi - alo)) false best Hout)
    as Hbest.
  destruct (difflib.extend_back (Z.to_nat (ahi - alo)) sm false alo blo best)
    as [[besti bestj] bestsize].
  unfold best_ok in Hbest. apply extend_fwd_fuel; simpl; lia.
Qed.

(** ** The built-in comparators *)

Section BuiltinComparators.

Context `{PyLib}.





Lemma default_registry_registered :
  register_default_comparators ComparatorRegistry.new = Ok default_registry.
Proof. reflexivity. Qed.







Lemma py_div_pos (x y : Q) : (0 < y)%Q -> py_div x y = Ok (fdiv x y).
Proof.
  intros Hy. unfold py_div. destruct (Qeq_bool y 0) eqn:Hz; [| reflexivity].
  apply Qeq_bool_iff in Hz. lra.
Qed.

Lemma fdiv_nonneg (x y : Q) : (0 <= x)%Q -> (0 < y)%Q -> (0 <= fdiv x y)%Q.
Proof. intros Hx Hy. apply rnd_nonneg. apply Qle_shift_div_l; lra. Qed.

Lemma py_abs_nonneg (x : Q) : (0 <= py_abs x)%Q.
Proof.
  unfold py_abs. destruct (Qle_bool 0 x) eqn:Hx.
  - now apply Qle_bool_iff.
  - assert (~ (0 <= x)%Q) by (intros Hle; apply Qle_bool_iff in Hle; congruence). lra.
Qed.

Lemma distance_score_bounds (q : Q) : (0 <= q)%Q -> (0 <= py_max 0 (fsub 1 q) <= 1)%Q.
Proof.
  intros Hq. assert (Hle : (fsub 1 q <= 1)%Q) by (apply rnd_le_1; lra).
  unfold py_max. destruct (Qgtb (fsub 1 q) 0) eqn:Hgt.
  - apply Qgtb_lt in Hgt. lra.
  - lra.
Qed.

Lemma set_sizes (x y : list string) :
  NoDup x -> (is_empty x && is_empty y = false) ->
  0 <= Z.of_nat (List.length (set_inter x y)) <= Z.of_nat (List.length (set_union x y))
  /\ 0 < Z.of_nat (List.length (set_union x y)).
Proof.
  intros Hx Hne. unfold set_inter, set_union, set_of.
  assert (Hle : (List.length (filter (fun t => str_mem t y) x)
                 <= List.length (nodup string_dec (x ++ y)))%nat).
  { apply NoDup_incl_length; [now apply NoDup_filter |].
    intros t Ht. apply filter_In in Ht as (Ht & _).
    apply nodup_In, in_app_iff. now left. }
  assert (Hpos : (0 < List.length (nodup string_dec (x ++ y)))%nat).
  { destruct x as [| t x]; [destruct y as [| t y]; [discriminate |] |].
    - assert (Hin : In t (nodup string_dec ([] ++ t :: y)))
        by (apply nodup_In; now left).
      destruct (nodup string_dec ([] ++ t :: y)); [destruct Hin | simpl; lia].
    - assert (Hin : In t (nodup string_dec ((t :: x) ++ y)))
        by (apply nodup_In; now left).
      destruct (nodup string_dec ((t :: x) ++ y)); [destruct Hin | simpl; lia]. }
  lia.
Qed.


Lemma safe_float_None : _safe_float VNone = None.
Proof. reflexivity. Qed.




End BuiltinComparators.

(** ** Comparators on example data *)





(** ** Scoring one pair under one rule *)

Section PairScoring.

Context `{PyLib}.

Import MatchingEngine.









End PairScoring.



(** ** Choosing a rule for a pair *)

Section RuleSelection.

Context `{PyLib}.

Import MatchingEngine.

(** The update of [best] by one unmatched score *)
Definition track_best (best : option PairScore) (pair_score : PairScore)
  : option PairScore :=
  match best with
  | None => Some pair_score
  | Some b =>
      if Qgtb (total_score pair_score) (total_score b) then Some pair_score else best
  end.

Lemma rules_loop_first_match (self : t) (left right : PyDict Value)
  (pre : list Rule) (r : Rule) (post : list Rule) (ps : PairScore) :
  Forall (fun r' => exists ps', scores_unmatched self left right r' ps') pre ->
  _score_pair self left right r = Ok ps ->
  matched ps = true ->
  forall best, rules_loop self left right (pre ++ r :: post) best = Ok (inl ps).
Proof.
  intros Hpre Hr Hm. induction Hpre as [| r' pre (ps' & Hr' & Hm') _ IH]; simpl; intros best.
  - rewrite Hr. simpl. now rewrite Hm.
  - rewrite Hr'. simpl. rewrite Hm'. apply IH.
Qed.

Lemma rules_loop_no_match (self : t) (left right : PyDict Value)
  (rules : list Rule) (scores : list PairScore) :
  Forall2 (scores_unmatched self left right) rules scores ->
  forall best,
    rules_loop self left right rules best = Ok (inr (fold_left track_best scores best)).
Proof.
  induction 1 as [| r ps rules scores (Hr & Hm) _ IH]; simpl; intros best; [reflexivity |].
  rewrite Hr. simpl. rewrite Hm. apply IH.
Qed.

Lemma track_best_first_highest (scores : list PairScore) :
  scores <> [] ->
  exists i b, fold_left track_best scores None = Some b /\ first_highest scores i b.
Proof.
  induction scores as [| ps scores IH] using rev_ind; [congruence |]. intros _.
  rewrite fold_left_app. simpl.
  assert (Hcase : scores = [] \/ scores <> [])
    by (destruct scores; [left | right]; congruence).
  destruct Hcase as [-> | Hne].
  - simpl. exists 0%nat, ps. split; [reflexivity |]. split; [reflexivity |].
    intros [| [| j]] ps' Hj; simpl in Hj; try discriminate.
    injection Hj as <-. split; [apply Qle_refl | lia].
  - destruct (IH Hne) as (i & b & -> & Hi & Hmax).
    set (l := scores) in *. simpl.
    assert (Hlen : (i < List.length l)%nat) by (apply nth_error_Some; congruence).
    destruct (Qgtb (total_score ps) (total_score b)) eqn:Hgt.
    + apply Qgtb_lt in Hgt.
      exists (List.length l), ps. split; [reflexivity |]. split.
      * now rewrite nth_error_app2, Nat.sub_diag by lia.
      * intros j ps' Hj. destruct (Nat.lt_ge_cases j (List.length l)) as [Hlt | Hge].
        -- rewrite nth_error_app1 in Hj by exact Hlt.
           destruct (Hmax j ps' Hj) as (Hle & _).
           split; [apply Qlt_le_weak |]; intros; eapply Qle_lt_trans; eauto.
        -- rewrite nth_error_app2 in Hj by exact Hge.
           destruct (j - List.length l)%nat as [| [| k]] eqn:Hk; simpl in Hj; try discriminate.
           injection Hj as <-. split; [apply Qle_refl | lia].
    + apply Qgtb_false_le in Hgt.
      exists i, b. split; [reflexivity |]. split.
      * now rewrite nth_error_app1 by exact Hlen.
      * intros j ps' Hj. destruct (Nat.lt_ge_cases j (List.length l)) as [Hlt | Hge].
        -- rewrite nth_error_app1 in Hj by exact Hlt. now apply Hmax.
        -- rewrite nth_error_app2 in Hj by exact Hge.
           destruct (j - List.length l)%nat as [| [| k]] eqn:Hk; simpl in Hj; try discriminate.
           injection Hj as <-. split; [exact Hgt | lia].
Qed.

(** C4. Rules are tried in list order.  The first rule whose score is
    [matched] is returned at once, whatever rules follow it (they are not
    evaluated: they may even name an unknown comparator) and whatever its
    [stop_on_first_rule_match] flag says.  When every rule scores without
    matching, the returned score is the first of the highest ones. *)
Theorem evaluate_rules_first_match_else_best (self : t) (left right : PyDict Value) :
  (forall pre r post ps,
      Forall (fun r' => exists ps', scores_unmatched self left right r' ps') pre ->
      _score_pair self left right r = Ok ps ->
      matched ps = true ->
      _evaluate_rules_for_pair self left right (pre ++ r :: post) = Ok ps)
  /\ (forall rules scores,
        rules <> [] ->
        Forall2 (scores_unmatched self left right) rules scores ->
        exists i b,
          _evaluate_rules_for_pair self left right rules = Ok b
          /\ first_highest scores i b).
Proof.
  split.
  - intros pre r post ps Hpre Hr Hm. unfold _evaluate_rules_for_pair.
    now rewrite (rules_loop_first_match self left right pre r post ps Hpre Hr Hm).
  - intros rules scores Hne Hall. unfold _evaluate_rules_for_pair.
    rewrite (rules_loop_no_match self left right rules scores Hall). simpl.
    destruct (track_best_first_highest scores) as (i & b & -> & Hb).
    + intros ->. inversion Hall. congruence.
    + exists i, b. split; [reflexivity | exact Hb].
Qed.

End RuleSelection.

Lemma evaluate_rules_first_match_else_best_witness :
  (exists ps,
      MatchingEngine._evaluate_rules_for_pair engine (person "L1" "a@x.com" "Ann")
        (person "R1" "A@X.com" "Bob")
        ([rule_name_exact] ++ rule_email_unflagged :: [rule_unknown_comparator]) = Ok ps
      /\ rule_name ps = "b_email")
  /\ (exists i b,
        MatchingEngine._evaluate_rules_for_pair engine (person "L1" "a@x.com" "Ann")
          (person "R2" "b@x.com" "Bob") [rule_name_exact; rule_email_ratio] = Ok b
        /\ i = 1%nat /\ rule_name b = "d_ratio").
Proof.
  pose proof (evaluate_rules_first_match_else_best engine (person "L1" "a@x.com" "Ann")
                (person "R1" "A@X.com" "Bob")) as (Hfirst & _).
  pose proof (evaluate_rules_first_match_else_best engine (person "L1" "a@x.com" "Ann")
                (person "R2" "b@x.com" "Bob")) as (_ & Hbest).
  split.
  - eexists. split.
    + apply Hfirst.
      * constructor; [| constructor]. eexists. split; vm_compute; reflexivity.
      * vm_compute. reflexivity.
      * reflexivity.
    + reflexivity.
  - destruct (MatchingEngine._score_pair engine (person "L1" "a@x.com" "Ann")
                (person "R2" "b@x.com" "Bob") rule_name_exact) as [p1 | e1] eqn:H1;
      [| vm_compute in H1; discriminate].
    destruct (MatchingEngine._score_pair engine (person "L1" "a@x.com" "Ann")
                (person "R2" "b@x.com" "Bob") rule_email_ratio) as [p2 | e2] eqn:H2;
      [| vm_compute in H2; discriminate].
    destruct (Hbest [rule_name_exact; rule_email_ratio] [p1; p2]) as (i & b & Hrun & Hb).
    + discriminate.
    + vm_compute in H1, H2. injection H1 as <-. injection H2 as <-.
      repeat constructor; vm_compute; reflexivity.
    + exists i, b. split; [exact Hrun |].
      vm_compute in H1, H2. injection H1 as <-. injection H2 as <-.
      vm_compute in Hrun. injection Hrun as <-.
      destruct Hb as (Hnth & _).
      destruct i as [| [| i]]; simpl in Hnth; try discriminate; auto.
      destruct i; discriminate.
Defined.

(** ** Dictionaries *)

Lemma dict_set_keys {V : Type} (d : PyDict V) (k : string) (v : V) :
  dict_keys (dict_set d k v)
  = if str_mem k (dict_keys d) then dict_keys d else dict_keys d ++ [k].
Proof.
  unfold str_mem, dict_keys. induction d as [| [k' v'] d IH]; simpl; [reflexivity |].
  rewrite (String.eqb_sym k k'). destruct (String.eqb k' k) eqn:Hk; simpl; [reflexivity |].
  rewrite IH. now destruct (existsb (String.eqb k) (map fst d)).
Qed.

Lemma str_mem_In (k : string) (s : list string) : str_mem k s = true <-> In k s.
Proof.
  unfold str_mem. rewrite existsb_exists. split.
  - intros (x & Hx & Hk). apply String.eqb_eq in Hk. now subst.
  - intros Hk. exists k. split; [exact Hk | apply String.eqb_refl].
Qed.

Lemma dict_set_key_In {V : Type} (d : PyDict V) (k : string) (v : V) (k' : string) :
  In k' (dict_keys (dict_set d k v)) <-> k' = k \/ In k' (dict_keys d).
Proof.
  rewrite dict_set_keys. destruct (str_mem k (dict_keys d)) eqn:Hk.
  - apply str_mem_In in Hk. split; [auto | intros [-> | Hin]; assumption].
  - rewrite in_app_iff. simpl. intuition congruence.
Qed.

Lemma dict_set_NoDup {V : Type} (d : PyDict V) (k : string) (v : V) :
  NoDup (dict_keys d) -> NoDup (dict_keys (dict_set d k v)).
Proof.
  intros Hd. rewrite dict_set_keys. destruct (str_mem k (dict_keys d)) eqn:Hk; [exact Hd |].
  apply NoDup_app; [exact Hd | repeat constructor; simpl; tauto |].
  intros x Hx [<- | []]. apply str_mem_In in Hx. congruence.
Qed.

Lemma dict_set_In {V : Type} (d : PyDict V) (k : string) (v : V) (k' : string) (v' : V) :
  In (k', v') (dict_set d k v) -> (k' = k /\ v' = v) \/ In (k', v') d.
Proof.
  induction d as [| [k0 v0] d IH]; simpl.
  - intros [Heq | []]. injection Heq as <- <-. auto.
  - destruct (String.eqb k0 k) eqn:Hk; simpl.
    + apply String.eqb_eq in Hk. subst k0. intros [Heq | Hin]; [| auto].
      injection Heq as <- <-. auto.
    + intros [Heq | Hin]; [auto |]. destruct (IH Hin); auto.
Qed.

Lemma NoDup_map_eq {A B : Type} (f : A -> B) (l : list A) (x y : A) :
  NoDup (map f l) -> In x l -> In y l -> f x = f y -> x = y.
Proof.
  induction l as [| z l IH]; simpl; [tauto |].
  intros Hnd Hx Hy Hf. inversion Hnd as [| ? ? Hz Hl]; subst.
  destruct Hx as [-> | Hx], Hy as [-> | Hy]; auto.
  - exfalso. apply Hz. rewrite Hf. now apply in_map.
  - exfalso. apply Hz. rewrite <- Hf. now apply in_map.
Qed.

(** ** The index loop *)

Section IndexLoop.

(** Both branches of [match] run the same loop; it is stated once over what
    differs: how an index record is scored against the other side, how its id
    is read, and which unmatched list it feeds. *)
Variable score_against : PyDict Value -> result (list PairScore).
Variable id_of : PyDict Value -> string.
Variable unmatched : EngineResult -> list string.
Variable add_unmatched : EngineResult -> string -> EngineResult.
Variable top_k : option Z.

Hypothesis unmatched_add :
  forall res id, unmatched (add_unmatched res id) = unmatched res ++ [id].
Hypothesis matches_add :
  forall res id, matches_index (add_unmatched res id) = matches_index res.
Hypothesis unmatched_with_matches :
  forall res k m, unmatched (MatchingEngine.with_matches res k m) = unmatched res.

Fixpoint index_loop (records : list (PyDict Value)) (res : EngineResult)
  : result EngineResult :=
  match records with
  | [] => Ok res
  | record :: rest =>
      scores <- score_against record ;;
      if is_empty (filter matched scores)
      then index_loop rest (add_unmatched res (id_of record))
      else index_loop rest
             (MatchingEngine.with_matches res (id_of record)
                (MatchingEngine.keep_matches scores top_k))
  end.

(** An index record with a matched pair, and what is stored for it *)
Definition stored_for (record : PyDict Value) (lst : list PairScore) : Prop :=
  exists scores,
    score_against record = Ok scores
    /\ filter matched scores <> []
    /\ lst = MatchingEngine.keep_matches scores top_k.

Lemma index_loop_unmatched (records : list (PyDict Value)) :
  forall res res',
    index_loop records res = Ok res' ->
    unmatched res' = unmatched res ++ map id_of (filter (no_match score_against) records).
Proof.
  induction records as [| r records IH]; simpl; intros res res' Hrun.
  - injection Hrun as <-. now rewrite app_nil_r.
  - apply bind_Ok in Hrun as (scores & Hs & Hrun). unfold no_match at 1. rewrite Hs.
    destruct (is_empty (filter matched scores)); apply IH in Hrun; rewrite Hrun.
    + rewrite unmatched_add, <- app_assoc. reflexivity.
    + now rewrite unmatched_with_matches.
Qed.

Lemma index_loop_keys (records : list (PyDict Value)) :
  forall res res' key,
    index_loop records res = Ok res' ->
    In key (dict_keys (matches_index res')) <->
    In key (dict_keys (matches_index res))
    \/ exists r, In r records /\ id_of r = key /\ no_match score_against r = false.
Proof.
  induction records as [| r records IH]; simpl; intros res res' key Hrun.
  - injection Hrun as <-. split; [auto | intros [Hk | (r & [] & _)]; exact Hk].
  - apply bind_Ok in Hrun as (scores & Hs & Hrun).
    assert (Hnm : no_match score_against r = is_empty (filter matched scores))
      by (unfold no_match; now rewrite Hs).
    destruct (is_empty (filter matched scores)); apply (IH _ _ key) in Hrun; rewrite Hrun.
    + rewrite matches_add. split.
      * intros [Hk | (r' & Hin & Hid & Hno)]; [auto | right; eauto].
      * intros [Hk | (r' & [<- | Hin] & Hid & Hno)]; [auto | congruence | right; eauto].
    + simpl. rewrite dict_set_key_In. split.
      * intros [[-> | Hk] | (r' & Hin & Hid & Hno)]; [right; eauto | auto | right; eauto].
      * intros [Hk | (r' & [<- | Hin] & Hid & Hno)]; [auto | auto | right; eauto].
Qed.

Lemma index_loop_entries (records : list (PyDict Value)) :
  forall res res' key lst,
    index_loop records res = Ok res' ->
    In (key, lst) (matches_index res') ->
    In (key, lst) (matches_index res)
    \/ exists r, In r records /\ id_of r = key /\ stored_for r lst.
Proof.
  induction records as [| r records IH]; simpl; intros res res' key lst Hrun Hin.
  - injection Hrun as <-. auto.
  - apply bind_Ok in Hrun as (scores & Hs & Hrun).
    destruct (is_empty (filter matched scores)) eqn:Hem;
      destruct (IH _ _ _ _ Hrun Hin) as [Hold | (r' & Hr' & Hid & Hst)];
      try (right; exists r'; now auto).
    + rewrite matches_add in Hold. auto.
    + simpl in Hold. apply dict_set_In in Hold as [(-> & ->) | Hold]; [| auto].
      right. exists r. split; [now left |]. split; [reflexivity |].
      exists scores. split; [exact Hs |]. split; [| reflexivity].
      intros Hnil. rewrite Hnil in Hem. discriminate.
Qed.

Lemma index_loop_Raise (records : list (PyDict Value)) (r : PyDict Value) (e : exn) :
  In r records -> score_against r = Raise e ->
  forall res, exists e' r',
    In r' records /\ score_against r' = Raise e' /\ index_loop records res = Raise e'.
Proof.
  induction records as [| r0 records IH]; simpl; [tauto |].
  intros Hin Hr res. destruct (score_against r0) as [scores | e0] eqn:H0.
  - destruct Hin as [-> | Hin]; [congruence |]. simpl.
    destruct (is_empty (filter matched scores));
      edestruct (IH Hin Hr) as (e' & r' & Hin' & Hr' & ->); eauto 6.
  - exists e0, r0. simpl. auto.
Qed.

Lemma index_loop_preserved (records : list (PyDict Value))
  (proj : EngineResult -> list string) :
  (forall res id, proj (add_unmatched res id) = proj res) ->
  (forall res k m, proj (MatchingEngine.with_matches res k m) = proj res) ->
  forall res res', index_loop records res = Ok res' -> proj res' = proj res.
Proof.
  intros Hadd Hwith. induction records as [| r records IH]; simpl; intros res res' Hrun.
  - now injection Hrun as <-.
  - apply bind_Ok in Hrun as (scores & Hs & Hrun).
    destruct (is_empty (filter matched scores)); apply IH in Hrun; rewrite Hrun; auto.
Qed.

Lemma index_loop_scored (records : list (PyDict Value)) :
  forall res res' r,
    index_loop records res = Ok res' -> In r records ->
    exists scores, score_against r = Ok scores.
Proof.
  induction records as [| r0 records IH]; simpl; intros res res' r Hrun Hin; [destruct Hin |].
  apply bind_Ok in Hrun as (scores & Hs & Hrun).
  destruct Hin as [<- | Hin]; [eauto |].
  destruct (is_empty (filter matched scores)); eapply IH; eauto.
Qed.

(** An index record with a matched pair gets an entry; with distinct ids
    the entry holds the ranking of this record's matches. *)
Lemma index_loop_record (records : list (PyDict Value)) (res res' : EngineResult)
  (r : PyDict Value) (scores : list PairScore) :
  index_loop records res = Ok res' ->
  In r records -> score_against r = Ok scores -> filter matched scores <> [] ->
  In (id_of r) (dict_keys (matches_index res'))
  /\ (matches_index res = [] -> NoDup (map id_of records) ->
      In (id_of r, MatchingEngine.keep_matches scores top_k) (matches_index res')).
Proof.
  intros Hrun Hin Hs Hne.
  assert (Hkey : In (id_of r) (dict_keys (matches_index res'))).
  { apply (index_loop_keys records res res' (id_of r) Hrun). right. exists r.
    split; [exact Hin |]. split; [reflexivity |]. unfold no_match. rewrite Hs.
    destruct (filter matched scores); [congruence | reflexivity]. }
  split; [exact Hkey |]. intros Hempty Hnd.
  unfold dict_keys in Hkey. apply in_map_iff in Hkey as ([key lst] & Hk & Hentry).
  simpl in Hk. subst key.
  destruct (index_loop_entries records res res' (id_of r) lst Hrun Hentry)
    as [Hold | (r' & Hr' & Hid & scores' & Hs' & _ & Hlst)].
  - rewrite Hempty in Hold. destruct Hold.
  - assert (r' = r) by (eapply NoDup_map_eq; eauto). subst r'.
    rewrite Hs in Hs'. injection Hs' as <-. now rewrite <- Hlst.
Qed.

End IndexLoop.

(** ** A whole run *)

Section EngineRun.

Context `{PyLib}.

Import MatchingEngine.

Definition add_unmatched_left (res : EngineResult) (id : string) : EngineResult :=
  with_unmatched_left res (unmatched_left_ids res ++ [id]).

Definition add_unmatched_right (res : EngineResult) (id : string) : EngineResult :=
  with_unmatched_right res (unmatched_right_ids res ++ [id]).

Definition empty_result (cardinality : Cardinality) (index_side : string) : EngineResult :=
  {| res_cardinality := cardinality; indexed_by := index_side; matches_index := [];
     unmatched_left_ids := []; unmatched_right_ids := [] |}.

Lemma index_left_loop_eq (self : t) (right_list : list (PyDict Value)) (rules : list Rule)
  (left_id_field : string) (top_k : option Z) (lefts : list (PyDict Value)) :
  forall res,
    index_left_loop self lefts right_list rules left_id_field top_k res
    = index_loop (score_left self right_list rules) (record_id left_id_field)
        add_unmatched_left top_k lefts res.
Proof.
  induction lefts as [| l lefts IH]; simpl; intros res; [reflexivity |].
  unfold score_left at 1. destruct (for_each _ right_list) as [scores | e]; simpl; [| reflexivity].
  destruct (is_empty (filter matched scores)); apply IH.
Qed.

Lemma index_right_loop_eq (self : t) (left_list : list (PyDict Value)) (rules : list Rule)
  (right_id_field : string) (top_k : option Z) (rights : list (PyDict Value)) :
  forall res,
    index_right_loop self rights left_list rules right_id_field top_k res
    = index_loop (score_right self left_list rules) (record_id right_id_field)
        add_unmatched_right top_k rights res.
Proof.
  induction rights as [| r rights IH]; simpl; intros res; [reflexivity |].
  unfold score_right at 1. destruct (for_each _ left_list) as [scores | e]; simpl; [| reflexivity].
  destruct (is_empty (filter matched scores)); apply IH.
Qed.

(** The ids of one side that some stored pair score names *)
Definition matched_ids (side : PairScore -> string) (res : EngineResult) : list string :=
  flat_map (fun lst => map side lst) (dict_values (matches_index res)).

Lemma match_one_to_many (self : t) (left_records right_records : list (PyDict Value))
  (ruleset : RuleSet) (left_id_field right_id_field : string) (top_k : option Z)
  (res : EngineResult) :
  match_ self left_records right_records ruleset ONE_TO_MANY
    left_id_field right_id_field top_k = Ok res ->
  exists res1,
    index_loop (score_left self right_records (rules ruleset)) (record_id left_id_field)
      add_unmatched_left top_k left_records (empty_result ONE_TO_MANY "left") = Ok res1
    /\ res = with_unmatched_right res1
               (filter (fun rid => negb (str_mem rid (matched_ids right_id res1)))
                  (dict_keys (id_map right_records right_id_field))).
Proof.
  unfold match_. simpl. rewrite index_left_loop_eq. intros Hrun.
  apply bind_Ok in Hrun as (res1 & Hloop & Hres). exists res1.
  split; [exact Hloop |]. now injection Hres as <-.
Qed.

Lemma match_many_to_one (self : t) (left_records right_records : list (PyDict Value))
  (ruleset : RuleSet) (left_id_field right_id_field : string) (top_k : option Z)
  (res : EngineResult) :
  match_ self left_records right_records ruleset MANY_TO_ONE
    left_id_field right_id_field top_k = Ok res ->
  exists res1,
    index_loop (score_right self left_records (rules ruleset)) (record_id right_id_field)
      add_unmatched_right top_k right_records (empty_result MANY_TO_ONE "right") = Ok res1
    /\ res = with_unmatched_left res1
               (filter (fun lid => negb (str_mem lid (matched_ids left_id res1)))
                  (dict_keys (id_map left_records left_id_field))).
Proof.
  unfold match_. simpl. rewrite index_right_loop_eq. intros Hrun.
  apply bind_Ok in Hrun as (res1 & Hloop & Hres). exists res1.
  split; [exact Hloop |]. now injection Hres as <-.
Qed.

Lemma id_map_NoDup (records : list (PyDict Value)) (id_field : string) :
  NoDup (dict_keys (id_map records id_field)).
Proof.
  unfold id_map.
  assert (Hgen : forall d : PyDict (PyDict Value),
             NoDup (dict_keys d) ->
             NoDup (dict_keys
                      (fold_left (fun d r => dict_set d (str (get_value r id_field)) r)
                         records d))).
  { induction records as [| r records IH]; simpl; intros d Hd; [exact Hd |].
    apply IH. now apply dict_set_NoDup. }
  apply Hgen. constructor.
Qed.

(** C3, amended. In a left-indexed run every left record's identifier is a
    key of [matches_index] or an entry of [unmatched_left_ids]; when the left
    identifiers are pairwise distinct it is never both. *)
Theorem one_to_many_left_ids_covered (self : t)
  (left_records right_records : list (PyDict Value)) (ruleset : RuleSet)
  (left_id_field right_id_field : string) (top_k : option Z) (res : EngineResult) :
  match_ self left_records right_records ruleset ONE_TO_MANY
    left_id_field right_id_field top_k = Ok res ->
  forall left, In left left_records ->
    (In (record_id left_id_field left) (dict_keys (matches_index res))
     \/ In (record_id left_id_field left) (unmatched_left_ids res))
    /\ (NoDup (map (record_id left_id_field) left_records) ->
        ~ (In (record_id left_id_field left) (dict_keys (matches_index res))
           /\ In (record_id left_id_field left) (unmatched_left_ids res))).
Proof.
  intros Hrun left Hin.
  apply match_one_to_many in Hrun as (res1 & Hloop & ->). simpl.
  pose proof (index_loop_unmatched _ _ unmatched_left_ids add_unmatched_left top_k
                (fun _ _ => eq_refl) (fun _ _ _ => eq_refl) _ _ _ Hloop) as Hun.
  pose proof (fun key => index_loop_keys _ (record_id left_id_field) add_unmatched_left top_k
                (fun _ _ => eq_refl) _ _ _ key Hloop) as Hkeys.
  simpl in Hun. rewrite Hun. split.
  - destruct (no_match (score_left self right_records (rules ruleset)) left) eqn:Hnm.
    + right. apply in_map. apply filter_In. auto.
    + left. apply Hkeys. right. eauto.
  - intros Hnd (Hk & Hu).
    apply Hkeys in Hk as [[] | (r & Hr & Hid & Hnm)].
    apply in_map_iff in Hu as (r' & Hid' & Hr'). apply filter_In in Hr' as (Hr' & Hnm').
    assert (r = r') by (eapply NoDup_map_eq; eauto; congruence). congruence.
Qed.

(** C10. The unmatched list of the side opposite to the index holds every
    identifier at most once.  The unmatched list of the index side holds one
    entry, in order, for every index record without a match, so two such
    records with the same identifier put it there twice. *)
Theorem opposite_unmatched_ids_distinct (self : t)
  (left_records right_records : list (PyDict Value)) (ruleset : RuleSet)
  (cardinality : Cardinality) (left_id_field right_id_field : string)
  (top_k : option Z) (res : EngineResult) :
  match_ self left_records right_records ruleset cardinality
    left_id_field right_id_field top_k = Ok res ->
  match cardinality with
  | ONE_TO_MANY =>
      NoDup (unmatched_right_ids res)
      /\ unmatched_left_ids res
         = map (record_id left_id_field)
             (filter (no_match (score_left self right_records (rules ruleset)))
                left_records)
  | MANY_TO_ONE =>
      NoDup (unmatched_left_ids res)
      /\ unmatched_right_ids res
         = map (record_id right_id_field)
             (filter (no_match (score_right self left_records (rules ruleset)))
                right_records)
  end.
Proof.
  intros Hrun. destruct cardinality.
  - apply match_one_to_many in Hrun as (res1 & Hloop & ->). simpl. split.
    + apply NoDup_filter, id_map_NoDup.
    + now rewrite (index_loop_unmatched _ _ unmatched_left_ids add_unmatched_left top_k
                     (fun _ _ => eq_refl) (fun _ _ _ => eq_refl) _ _ _ Hloop).
  - apply match_many_to_one in Hrun as (res1 & Hloop & ->). simpl. split.
    + apply NoDup_filter, id_map_NoDup.
    + now rewrite (index_loop_unmatched _ _ unmatched_right_ids add_unmatched_right top_k
                     (fun _ _ => eq_refl) (fun _ _ _ => eq_refl) _ _ _ Hloop).
Qed.

End EngineRun.

(** ** The two sort orders *)

Lemma string_ltb_leb (s t : string) : String.ltb s t = true -> String.leb s t = true.
Proof.
  intros Hlt. apply string_ltb_false_leb. now apply string_ltb_asym.
Qed.

Lemma rule_key_before (r r' : Rule) : before rule_key_ltb r r' <-> rule_key_le r r'.
Proof.
  unfold rule_key_le, rule_key_ltb. simpl.
  destruct (priority r' =? priority r) eqn:Hp; simpl.
  - apply Z.eqb_eq in Hp. rewrite string_ltb_false_leb. intuition lia.
  - apply Z.eqb_neq in Hp. rewrite Z.ltb_ge. intuition lia.
Qed.

Lemma rule_key_ltb_asym (r r' : Rule) :
  rule_key_ltb r r' = true -> rule_key_ltb r' r = false.
Proof.
  unfold rule_key_ltb. rewrite (Z.eqb_sym (priority r') (priority r)).
  destruct (priority r =? priority r') eqn:Hp; simpl.
  - apply string_ltb_asym.
  - rewrite Z.ltb_lt, Z.ltb_ge. lia.
Qed.

Lemma rule_key_le_trans (r1 r2 r3 : Rule) :
  rule_key_le r1 r2 -> rule_key_le r2 r3 -> rule_key_le r1 r3.
Proof.
  unfold rule_key_le. intros [H12 | (H12 & N12)] [H23 | (H23 & N23)];
    try (left; lia).
  right. split; [lia | eapply string_leb_trans; eauto].
Qed.

Lemma match_key_ltb_true (s s' : PairScore) :
  MatchingEngine.match_key_ltb s s' = true
  <-> (total_score s' < total_score s)%Q
      \/ ((total_score s == total_score s')%Q
          /\ String.ltb (rule_name s) (rule_name s') = true).
Proof.
  unfold MatchingEngine.match_key_ltb.
  destruct (Qeq_bool (- total_score s) (- total_score s')) eqn:He; simpl.
  - apply Qeq_bool_iff in He. split.
    + intros Hn. right. split; [lra | exact Hn].
    + intros [Hlt | (_ & Hn)]; [lra | exact Hn].
  - apply Qeq_bool_neq in He. rewrite Qgtb_lt. split.
    + intros Hlt. left. lra.
    + intros [Hlt | (Heq & _)]; [lra |]. exfalso. apply He. lra.
Qed.

Lemma match_key_before (s s' : PairScore) :
  before MatchingEngine.match_key_ltb s s' <-> pair_order s s'.
Proof.
  unfold pair_order. simpl. split.
  - intros Hb. destruct (Qlt_le_dec (total_score s') (total_score s)) as [Hlt | Hle]; [auto |].
    right. destruct (Qlt_le_dec (total_score s) (total_score s')) as [Hlt' | Hle'].
    + assert (Ht : MatchingEngine.match_key_ltb s' s = true)
        by (apply match_key_ltb_true; auto).
      congruence.
    + assert (Heq : (total_score s == total_score s')%Q) by lra.
      split; [exact Heq |]. apply string_ltb_false_leb.
      destruct (String.ltb (rule_name s') (rule_name s)) eqn:Hn; [| reflexivity].
      assert (Ht : MatchingEngine.match_key_ltb s' s = true)
        by (apply match_key_ltb_true; right; split; [lra | exact Hn]).
      congruence.
  - intros Hord. destruct (MatchingEngine.match_key_ltb s' s) eqn:Ht; [| reflexivity].
    apply match_key_ltb_true in Ht as [Hlt | (Heq & Hn)];
      destruct Hord as [Hlt' | (Heq' & Hn')]; try lra.
    apply string_ltb_false_leb in Hn'. congruence.
Qed.

Lemma match_key_ltb_asym (s s' : PairScore) :
  MatchingEngine.match_key_ltb s s' = true -> MatchingEngine.match_key_ltb s' s = false.
Proof.
  intros Ht. apply match_key_before. apply match_key_ltb_true in Ht as [Hlt | (Heq & Hn)].
  - now left.
  - right. split; [exact Heq | now apply string_ltb_leb].
Qed.

Lemma pair_order_trans (s1 s2 s3 : PairScore) :
  pair_order s1 s2 -> pair_order s2 s3 -> pair_order s1 s3.
Proof.
  unfold pair_order. intros [H12 | (H12 & N12)] [H23 | (H23 & N23)];
    try (left; lra).
  right. split; [lra | eapply string_leb_trans; eauto].
Qed.

Lemma StronglySorted_impl {A : Type} (R R' : A -> A -> Prop) (l : list A) :
  (forall x y, R x y -> R' x y) -> StronglySorted R l -> StronglySorted R' l.
Proof.
  intros HR. induction 1 as [| x l Hl IH Hx]; constructor; [exact IH |].
  eapply Forall_impl; [| exact Hx]. auto.
Qed.


Lemma sorted_rules (v : list Rule) :
  StronglySorted rule_key_le (sort_by rule_key_ltb v).
Proof.
  eapply StronglySorted_impl; [apply rule_key_before |].
  apply sort_by_sorted; [apply rule_key_ltb_asym |].
  intros x y z Hxy Hyz. apply rule_key_before.
  eapply rule_key_le_trans; apply rule_key_before; eauto.
Qed.

Lemma sorted_matches (l : list PairScore) :
  StronglySorted pair_order (sort_by MatchingEngine.match_key_ltb l).
Proof.
  eapply StronglySorted_impl; [apply match_key_before |].
  apply sort_by_sorted; [apply match_key_ltb_asym |].
  intros x y z Hxy Hyz. apply match_key_before.
  eapply pair_order_trans; apply match_key_before; eauto.
Qed.

Lemma slice_to_prefix {A : Type} (l : list A) (k : Z) :
  exists dropped,
    l = slice_to l k ++ dropped
    /\ (0 <= k -> Z.of_nat (List.length (slice_to l k)) = Z.min k (Z.of_nat (List.length l))).
Proof.
  unfold slice_to. destruct (k <? 0) eqn:Hk.
  - eexists. split; [symmetry; apply firstn_skipn | lia].
  - exists (skipn (Z.to_nat k) l). split; [symmetry; apply firstn_skipn |].
    intros _. rewrite length_firstn. lia.
Qed.

Lemma keep_matches_ranked (scores : list PairScore) (top_k : option Z) :
  exists dropped,
    Permutation (MatchingEngine.keep_matches scores top_k ++ dropped) (filter matched scores)
    /\ StronglySorted pair_order (MatchingEngine.keep_matches scores top_k ++ dropped)
    /\ (top_k = None -> dropped = [])
    /\ (forall k, top_k = Some k -> 0 <= k ->
          Z.of_nat (List.length (MatchingEngine.keep_matches scores top_k))
          = Z.min k (Z.of_nat (List.length (filter matched scores)))).
Proof.
  unfold MatchingEngine.keep_matches.
  set (ranked := sort_by MatchingEngine.match_key_ltb (filter matched scores)).
  assert (Hperm : Permutation ranked (filter matched scores))
    by (symmetry; apply sort_by_Permutation).
  assert (Hsorted : StronglySorted pair_order ranked) by apply sorted_matches.
  destruct top_k as [k |].
  - destruct (slice_to_prefix ranked k) as (dropped & Heq & Hlen). exists dropped.
    rewrite <- Heq. repeat split; try assumption; [discriminate |].
    intros k' Hk' Hpos. injection Hk' as <-.
    rewrite (Hlen Hpos), (Permutation_length Hperm). reflexivity.
  - exists []. rewrite app_nil_r. repeat split; try assumption. discriminate.
Qed.

Lemma keep_matches_In (scores : list PairScore) (top_k : option Z) (ps : PairScore) :
  In ps (MatchingEngine.keep_matches scores top_k) -> In ps scores /\ matched ps = true.
Proof.
  intros Hin. destruct (keep_matches_ranked scores top_k) as (dropped & Hperm & _).
  apply filter_In. eapply Permutation_in; [exact Hperm |]. apply in_app_iff. now left.
Qed.

(** ** What a run stores *)

Lemma Forall2_In_r {A B : Type} (R : A -> B -> Prop) (l : list A) (l' : list B) (y : B) :
  Forall2 R l l' -> In y l' -> exists x, In x l /\ R x y.
Proof.
  induction 1 as [| x0 y0 l l' Hxy _ IH]; simpl; [tauto |].
  intros [<- | Hin]; [eauto |]. destruct (IH Hin) as (x & Hx & Hr). eauto.
Qed.

Section StoredScores.

Context `{PyLib}.

Import MatchingEngine.

Lemma match_entries (self : t) (left_records right_records : list (PyDict Value))
  (ruleset : RuleSet) (cardinality : Cardinality) (left_id_field right_id_field : string)
  (top_k : option Z) (res : EngineResult) (key : string) (lst : list PairScore) :
  match_ self left_records right_records ruleset cardinality
    left_id_field right_id_field top_k = Ok res ->
  In (key, lst) (matches_index res) ->
  exists r scores,
    In r (index_records cardinality left_records right_records)
    /\ record_id (index_id_field cardinality left_id_field right_id_field) r = key
    /\ score_index self cardinality left_records right_records (rules ruleset) r = Ok scores
    /\ filter matched scores <> []
    /\ lst = keep_matches scores top_k.
Proof.
  intros Hrun Hin. destruct cardinality.
  - apply match_one_to_many in Hrun as (res1 & Hloop & ->). simpl in Hin.
    destruct (index_loop_entries _ _ add_unmatched_left top_k (fun _ _ => eq_refl)
                _ _ _ _ _ Hloop Hin) as [[] | (r & Hr & Hid & scores & Hs & Hne & ->)].
    exists r, scores. auto.
  - apply match_many_to_one in Hrun as (res1 & Hloop & ->). simpl in Hin.
    destruct (index_loop_entries _ _ add_unmatched_right top_k (fun _ _ => eq_refl)
                _ _ _ _ _ Hloop Hin) as [[] | (r & Hr & Hid & scores & Hs & Hne & ->)].
    exists r, scores. auto.
Qed.


Lemma rules_loop_inv (self : t) (left right : PyDict Value) (rules : list Rule) :
  forall best out,
    rules_loop self left right rules best = Ok out ->
    (exists ps pre r post,
        out = inl ps /\ rules = pre ++ r :: post
        /\ Forall (fun r' => exists ps', scores_unmatched self left right r' ps') pre
        /\ _score_pair self left right r = Ok ps /\ matched ps = true)
    \/ (exists b,
          out = inr b
          /\ Forall (fun r' => exists ps', scores_unmatched self left right r' ps') rules
          /\ (b = best
              \/ exists r ps', In r rules /\ scores_unmatched self left right r ps'
                               /\ b = Some ps')).
Proof.
  induction rules as [| r rules IH]; simpl; intros best out Hrun.
  - injection Hrun as <-. right. exists best. auto.
  - apply bind_Ok in Hrun as (ps & Hr & Hrun). destruct (matched ps) eqn:Hm.
    + injection Hrun as <-. left. exists ps, [], r, rules. repeat split; auto.
    + assert (Hun : exists ps', scores_unmatched self left right r ps')
        by (exists ps; split; assumption).
      apply IH in Hrun as [(ps1 & pre & r1 & post & -> & -> & Hpre & Hr1 & Hm1)
                          | (b & -> & Hall & Hb)].
      * left. exists ps1, (r :: pre), r1, post. auto.
      * right. exists b. split; [reflexivity |]. split; [auto |].
        destruct Hb as [-> | (r' & ps' & Hin & Hu & ->)].
        -- destruct best as [b0 |]; simpl.
           ++ destruct (Qgtb (total_score ps) (total_score b0)); [| now left].
              right. exists r, ps. repeat split; auto.
           ++ right. exists r, ps. repeat split; auto.
        -- right. exists r', ps'. auto.
Qed.

(** A matched outcome of rule selection is the score of the first rule, in
    list order, that matches the pair. *)
Lemma evaluate_matched_first (self : t) (left right : PyDict Value) (rules : list Rule)
  (ps : PairScore) :
  _evaluate_rules_for_pair self left right rules = Ok ps ->
  matched ps = true ->
  exists pre r post,
    rules = pre ++ r :: post
    /\ Forall (fun r' => exists ps', scores_unmatched self left right r' ps') pre
    /\ _score_pair self left right r = Ok ps.
Proof.
  unfold _evaluate_rules_for_pair. intros Hrun Hm.
  apply bind_Ok in Hrun as (out & Hloop & Hout).
  apply rules_loop_inv in Hloop as [(ps1 & pre & r & post & -> & -> & Hpre & Hr & _)
                                   | (b & -> & Hall & Hb)].
  - injection Hout as <-. exists pre, r, post. auto.
  - exfalso. destruct Hb as [-> | (r & ps' & Hin & (Hr & Hm') & ->)].
    + destruct rules as [| r0 rules]; [discriminate |].
      inversion Hall as [| ? ? (ps' & Hr0 & Hm') _]; subst. congruence.
    + injection Hout as <-. congruence.
Qed.

Lemma stored_score_origin (self : t) (left_records right_records : list (PyDict Value))
  (ruleset : RuleSet) (cardinality : Cardinality) (left_id_field right_id_field : string)
  (top_k : option Z) (res : EngineResult) (key : string) (lst : list PairScore)
  (ps : PairScore) :
  match_ self left_records right_records ruleset cardinality
    left_id_field right_id_field top_k = Ok res ->
  In (key, lst) (matches_index res) ->
  In ps lst ->
  matched ps = true
  /\ exists left right,
       In left left_records /\ In right right_records
       /\ _evaluate_rules_for_pair self left right (rules ruleset) = Ok ps
       /\ key = match cardinality with
                | ONE_TO_MANY => record_id left_id_field left
                | MANY_TO_ONE => record_id right_id_field right
                end.
Proof.
  intros Hrun Hin Hps.
  destruct (match_entries _ _ _ _ _ _ _ _ _ _ _ Hrun Hin)
    as (r & scores & Hr & Hid & Hs & _ & ->).
  apply keep_matches_In in Hps as (Hps & Hm). split; [exact Hm |].
  destruct cardinality; simpl in *; apply for_each_Ok in Hs;
    destruct (Forall2_In_r _ _ _ _ Hs Hps) as (o & Ho & Hev).
  - exists r, o. auto.
  - exists o, r. auto.
Qed.

End StoredScores.

(** ** Rule sets *)

Section RuleSets.

Context `{PyLib}.

Import MatchingEngine.

Lemma Forall2_In_l {A B : Type} (R : A -> B -> Prop) (l : list A) (l' : list B) (x : A) :
  Forall2 R l l' -> In x l -> exists y, In y l' /\ R x y.
Proof.
  induction 1 as [| x0 y0 l l' Hxy _ IH]; simpl; [tauto |].
  intros [<- | Hin]; [eauto |]. destruct (IH Hin) as (y & Hy & Hr). eauto.
Qed.

Lemma Forall_exists_Forall2 {A B : Type} (R : A -> B -> Prop) (l : list A) :
  Forall (fun x => exists y, R x y) l -> exists l', Forall2 R l l'.
Proof.
  induction 1 as [| x l (y & Hy) _ (l' & IH)]; [exists []; constructor |].
  exists (y :: l'). now constructor.
Qed.

(** What rule selection returns is chosen in list order. *)
Lemma evaluate_rules_chosen (self : t) (left right : PyDict Value) (rules : list Rule)
  (ps : PairScore) :
  _evaluate_rules_for_pair self left right rules = Ok ps ->
  chosen_in_order self left right rules ps.
Proof.
  intros Hrun. pose proof Hrun as Hrun'. unfold _evaluate_rules_for_pair in Hrun.
  apply bind_Ok in Hrun as (out & Hloop & Hout).
  destruct (rules_loop_inv _ _ _ _ _ _ Hloop)
    as [(ps1 & pre & r & post & -> & -> & Hpre & Hr & Hm) | (b & -> & Hall & _)].
  - injection Hout as <-. left. split; [exact Hm |]. exists pre, r, post. auto.
  - right. apply Forall_exists_Forall2 in Hall as (scores & Hscores).
    rewrite (rules_loop_no_match self left right rules scores Hscores) in Hloop.
    injection Hloop as <-.
    destruct rules as [| rule0 rest].
    + inversion Hscores; subst. simpl in Hout. discriminate.
    + destruct (track_best_first_highest scores) as (i & b & Hb & Hfirst).
      { intros ->. inversion Hscores. }
      rewrite Hb in Hout. injection Hout as <-.
      split; [| exists scores, i; auto].
      destruct Hfirst as (Hnth & _). apply nth_error_In in Hnth.
      destruct (Forall2_In_r _ _ _ _ Hscores Hnth) as (r & _ & _ & Hm). exact Hm.
Qed.

Lemma keep_matches_all (scores : list PairScore) (ps : PairScore) :
  In ps scores -> matched ps = true -> In ps (keep_matches scores None).
Proof.
  intros Hin Hm. unfold keep_matches.
  eapply Permutation_in; [apply sort_by_Permutation |]. apply filter_In. auto.
Qed.

(** Every pair of a run that returns was settled by rule selection over
    the rules of the set; a matched pair put the id of its index record
    among the keys, and with distinct index ids and no [top_k] its score is
    in the list stored there. *)
Lemma run_settles_every_pair (self : t) (left_records right_records : list (PyDict Value))
  (ruleset : RuleSet) (cardinality : Cardinality) (left_id_field right_id_field : string)
  (top_k : option Z) (res : EngineResult) (left right : PyDict Value) :
  match_ self left_records right_records ruleset cardinality
    left_id_field right_id_field top_k = Ok res ->
  In left left_records -> In right right_records ->
  exists ps,
    _evaluate_rules_for_pair self left right (rules ruleset) = Ok ps
    /\ (matched ps = true ->
        In (record_id (index_id_field cardinality left_id_field right_id_field)
              (index_record cardinality left right))
           (dict_keys (matches_index res))
        /\ (top_k = None ->
            NoDup (map (record_id (index_id_field cardinality left_id_field right_id_field))
                     (index_records cardinality left_records right_records)) ->
            exists lst,
              In (record_id (index_id_field cardinality left_id_field right_id_field)
                    (index_record cardinality left right), lst) (matches_index res)
              /\ In ps lst)).
Proof.
  intros Hrun Hl Hr. destruct cardinality; simpl.
  - apply match_one_to_many in Hrun as (res1 & Hloop & ->). simpl.
    destruct (index_loop_scored _ _ _ _ _ _ _ left Hloop Hl) as (scores & Hs).
    pose proof Hs as Hall. apply for_each_Ok in Hall.
    destruct (Forall2_In_l _ _ _ _ Hall Hr) as (ps & Hps & Hev).
    exists ps. split; [exact Hev |]. intros Hm.
    assert (Hne : filter matched scores <> []).
    { intros Hnil. assert (Hin : In ps (filter matched scores)) by (apply filter_In; auto).
      rewrite Hnil in Hin. destruct Hin. }
    destruct (index_loop_record _ (record_id left_id_field) add_unmatched_left top_k
                (fun _ _ => eq_refl) _ _ _ left scores Hloop Hl Hs Hne) as (Hkey & Hentry).
    split; [exact Hkey |]. intros -> Hnd.
    exists (keep_matches scores None). split; [now apply Hentry |].
    now apply keep_matches_all.
  - apply match_many_to_one in Hrun as (res1 & Hloop & ->). simpl.
    destruct (index_loop_scored _ _ _ _ _ _ _ right Hloop Hr) as (scores & Hs).
    pose proof Hs as Hall. apply for_each_Ok in Hall.
    destruct (Forall2_In_l _ _ _ _ Hall Hl) as (ps & Hps & Hev).
    exists ps. split; [exact Hev |]. intros Hm.
    assert (Hne : filter matched scores <> []).
    { intros Hnil. assert (Hin : In ps (filter matched scores)) by (apply filter_In; auto).
      rewrite Hnil in Hin. destruct Hin. }
    destruct (index_loop_record _ (record_id right_id_field) add_unmatched_right top_k
                (fun _ _ => eq_refl) _ _ _ right scores Hloop Hr Hs Hne) as (Hkey & Hentry).
    split; [exact Hkey |]. intros -> Hnd.
    exists (keep_matches scores None). split; [now apply Hentry |].
    now apply keep_matches_all.
Qed.

(** C8. A non-empty list of rules, in any order, makes a RuleSet whose stored
    [rules] are the same rules sorted ascending by [(priority, name)].  The
    engine reads that stored list for every pair: in a run that returns,
    every pair of a left and a right record was settled by rule selection
    over the stored list, that is on the first rule in stored order that
    matches the pair, or, when none does, on the first of the highest scores;
    a matched pair puts the id of its index record among the keys of
    [matches_index], and with distinct index ids and no [top_k] its score is
    in the list stored under that key.  Conversely every stored pair score is
    the score of the first rule, in stored order, that matches its pair. *)
Theorem ruleset_sorted_and_evaluated_in_order (v : list Rule) :
  v <> [] ->
  exists ruleset,
    RuleSet_new v = Ok ruleset
    /\ StronglySorted rule_key_le (rules ruleset)
    /\ Permutation v (rules ruleset)
    /\ forall self left_records right_records cardinality left_id_field right_id_field
         top_k res,
         match_ self left_records right_records ruleset cardinality
           left_id_field right_id_field top_k = Ok res ->
         (forall left right,
             In left left_records -> In right right_records ->
             exists ps,
               _evaluate_rules_for_pair self left right (rules ruleset) = Ok ps
               /\ chosen_in_order self left right (rules ruleset) ps
               /\ (matched ps = true ->
                   In (record_id (index_id_field cardinality left_id_field right_id_field)
                         (index_record cardinality left right))
                      (dict_keys (matches_index res))
                   /\ (top_k = None ->
                       NoDup (map (record_id
                                     (index_id_field cardinality left_id_field right_id_field))
                                (index_records cardinality left_records right_records)) ->
                       exists lst,
                         In (record_id
                               (index_id_field cardinality left_id_field right_id_field)
                               (index_record cardinality left right), lst)
                            (matches_index res)
                         /\ In ps lst)))
         /\ (forall key lst ps,
               In (key, lst) (matches_index res) ->
               In ps lst ->
               exists left right pre r post,
                 In left left_records /\ In right right_records
                 /\ rules ruleset = pre ++ r :: post
                 /\ Forall (fun r' => exists ps', scores_unmatched self left right r' ps') pre
                 /\ _score_pair self left right r = Ok ps).
Proof.
  intros Hne. exists {| rules := sort_by rule_key_ltb v |}.
  split; [destruct v; [congruence | reflexivity] |].
  split; [apply sorted_rules |]. split; [apply sort_by_Permutation |].
  intros self L R card lid rid k res Hrun. split.
  - intros left right Hl Hr.
    destruct (run_settles_every_pair _ _ _ _ _ _ _ _ _ left right Hrun Hl Hr)
      as (ps & Hev & Hstored).
    exists ps. split; [exact Hev |]. split; [now apply evaluate_rules_chosen | exact Hstored].
  - intros key lst ps Hin Hps.
    destruct (stored_score_origin _ _ _ _ _ _ _ _ _ _ _ _ Hrun Hin Hps)
      as (Hm & left & right & Hl & Hr & Hev & _).
    destruct (evaluate_matched_first _ _ _ _ _ Hev Hm)
      as (pre & r & post & Hrules & Hpre & Hsc).
    exists left, right, pre, r, post. auto.
Qed.

End RuleSets.

(** ** Unknown comparators *)

Lemma names_sorted (registry : ComparatorRegistry.t) :
  StronglySorted (fun s s' => String.leb s s' = true) (ComparatorRegistry.names registry)
  /\ Permutation (dict_keys (ComparatorRegistry._name_to_comparator registry))
       (ComparatorRegistry.names registry).
Proof.
  unfold ComparatorRegistry.names, sorted_str. split; [| apply sort_by_Permutation].
  eapply StronglySorted_impl; [intros x y Hxy; apply string_ltb_false_leb; exact Hxy |].
  apply sort_by_sorted; [apply string_ltb_asym |].
  unfold before. intros x y z Hxy Hyz. apply string_ltb_false_leb.
  eapply string_leb_trans; apply string_ltb_false_leb; eauto.
Qed.

Lemma get_unregistered (registry : ComparatorRegistry.t) (name : string) :
  unregistered registry name ->
  ComparatorRegistry.get registry name
  = Raise (KeyError (not_found_message name (ComparatorRegistry.names registry))).
Proof.
  unfold unregistered, ComparatorRegistry.get. now intros ->.
Qed.

Lemma evaluate_Raise (registry : ComparatorRegistry.t) (name : string)
  (left_value right_value : Value) (context : option Context)
  (params : option (PyDict Value)) (e : exn) :
  ComparatorRegistry.evaluate registry name left_value right_value context params = Raise e ->
  (unregistered registry name
   /\ e = KeyError (not_found_message name (ComparatorRegistry.names registry)))
  \/ exists func,
       dict_get (ComparatorRegistry._name_to_comparator registry) (lower (strip name))
       = Some func
       /\ func left_value right_value context params = Raise e.
Proof.
  unfold ComparatorRegistry.evaluate, ComparatorRegistry.get, unregistered.
  destruct (dict_get _ _) as [func |]; simpl; intros He.
  - right. eauto.
  - left. split; [reflexivity |]. now injection He as <-.
Qed.

Section UnknownComparator.

Context `{PyLib}.

Import MatchingEngine.

Lemma score_fields_Raise (self : t) (left right : PyDict Value) (rule : Rule)
  (fcs : list FieldComparatorConfig) (e : exn) :
  forall fss ws amp,
    score_fields self left right rule fcs fss ws amp = Raise e ->
    exists fc,
      In fc fcs
      /\ ComparatorRegistry.evaluate (registry self) (comparator fc)
           (get_value left (left_field fc)) (get_value right (right_field fc))
           (Some {| ctx_left := left; ctx_right := right; ctx_rule := rule |})
           (Some (params_or_empty (params fc))) = Raise e.
Proof.
  induction fcs as [| fc fcs IH]; simpl; intros fss ws amp Hrun; [discriminate |].
  apply bind_Raise in Hrun as [Hev | ([s d] & Hev & Hrun)].
  - exists fc. auto.
  - apply IH in Hrun as (fc' & Hin & Hev'). exists fc'. auto.
Qed.

Lemma score_pair_Raise (self : t) (left right : PyDict Value) (rule : Rule) (e : exn) :
  _score_pair self left right rule = Raise e ->
  exists fc, raised_by_binding self rule fc e.
Proof.
  unfold _score_pair. intros Hrun.
  apply bind_Raise in Hrun as [Hsf | ([[fss ws] amp] & _ & Hrun)]; [| discriminate].
  apply score_fields_Raise in Hsf as (fc & Hin & Hev). exists fc. split; [exact Hin |].
  apply evaluate_Raise in Hev as [Hun | (func & Hget & Hcall)]; [now left |].
  right. eauto 10.
Qed.

Lemma rules_loop_Raise (self : t) (left right : PyDict Value) (rules : list Rule) (e : exn) :
  forall best,
    rules_loop self left right rules best = Raise e ->
    exists r, In r rules /\ _score_pair self left right r = Raise e.
Proof.
  induction rules as [| r rules IH]; simpl; intros best Hrun; [discriminate |].
  apply bind_Raise in Hrun as [Hr | (ps & Hr & Hrun)]; [eauto |].
  destruct (matched ps); [discriminate |].
  apply IH in Hrun as (r' & Hin & Hr'). eauto.
Qed.

Lemma evaluate_rules_Raise (self : t) (left right : PyDict Value) (rules : list Rule)
  (e : exn) :
  rules <> [] ->
  _evaluate_rules_for_pair self left right rules = Raise e ->
  exists r fc, In r rules /\ raised_by_binding self r fc e.
Proof.
  unfold _evaluate_rules_for_pair. intros Hne Hrun.
  assert (Hr : exists r, In r rules /\ _score_pair self left right r = Raise e).
  { apply bind_Raise in Hrun as [Hloop | (out & Hloop & Hout)].
    - eapply rules_loop_Raise; eauto.
    - destruct out as [ps | [b |]]; try discriminate.
      destruct rules as [| r0 rules]; [congruence |]. exists r0. simpl. auto. }
  destruct Hr as (r & Hin & Hr). apply score_pair_Raise in Hr as (fc & Hfc). eauto.
Qed.

Lemma match_Raise (self : t) (left_records right_records : list (PyDict Value))
  (ruleset : RuleSet) (cardinality : Cardinality) (left_id_field right_id_field : string)
  (top_k : option Z) (left right : PyDict Value) (e : exn) :
  In left left_records -> In right right_records ->
  _evaluate_rules_for_pair self left right (rules ruleset) = Raise e ->
  exists e' left' right',
    In left' left_records /\ In right' right_records
    /\ _evaluate_rules_for_pair self left' right' (rules ruleset) = Raise e'
    /\ match_ self left_records right_records ruleset cardinality
         left_id_field right_id_field top_k = Raise e'.
Proof.
  intros Hl Hr Hev. unfold match_. destruct cardinality; simpl.
  - rewrite index_left_loop_eq.
    destruct (for_each_Raise (fun right => _evaluate_rules_for_pair self left right
                                             (rules ruleset)) right_records right e Hr Hev)
      as (e1 & right1 & _ & _ & Hfe).
    destruct (index_loop_Raise (score_left self right_records (rules ruleset))
                (record_id left_id_field) add_unmatched_left top_k left_records left e1
                Hl Hfe (empty_result ONE_TO_MANY "left"))
      as (e' & left' & Hl' & Hs' & Hloop).
    unfold empty_result in Hloop. rewrite Hloop. simpl.
    unfold score_left in Hs'.
    assert (Hex : exists right', In right' right_records
                   /\ _evaluate_rules_for_pair self left' right' (rules ruleset) = Raise e').
    { clear - Hs'. induction right_records as [| r0 rs IH]; simpl in Hs'; [discriminate |].
      apply bind_Raise in Hs' as [H0 | (ps & H0 & Hs')].
      - exists r0. simpl. auto.
      - apply bind_Raise in Hs' as [Hs' | (ys & _ & Hs')]; [| discriminate].
        destruct (IH Hs') as (r' & Hin & Hr'). exists r'. simpl. auto. }
    destruct Hex as (right' & Hr' & Hev'). exists e', left', right'. auto.
  - rewrite index_right_loop_eq.
    destruct (for_each_Raise (fun left => _evaluate_rules_for_pair self left right
                                            (rules ruleset)) left_records left e Hl Hev)
      as (e1 & left1 & _ & _ & Hfe).
    destruct (index_loop_Raise (score_right self left_records (rules ruleset))
                (record_id right_id_field) add_unmatched_right top_k right_records right e1
                Hr Hfe (empty_result MANY_TO_ONE "right"))
      as (e' & right' & Hr' & Hs' & Hloop).
    unfold empty_result in Hloop. rewrite Hloop. simpl.
    unfold score_right in Hs'.
    assert (Hex : exists left', In left' left_records
                   /\ _evaluate_rules_for_pair self left' right' (rules ruleset) = Raise e').
    { clear - Hs'. induction left_records as [| l0 ls IH]; simpl in Hs'; [discriminate |].
      apply bind_Raise in Hs' as [H0 | (ps & H0 & Hs')].
      - exists l0. simpl. auto.
      - apply bind_Raise in Hs' as [Hs' | (ys & _ & Hs')]; [| discriminate].
        destruct (IH Hs') as (l' & Hin & Hl'). exists l'. simpl. auto. }
    destruct Hex as (left' & Hl' & Hev'). exists e', left', right'. auto.
Qed.

(** C9, amended. A lookup of a name that is not registered raises the
    [KeyError] that lists the registered names in sorted order.  When the
    evaluation of some pair of the run raises, the whole call raises: no
    EngineResult is returned and no pair is skipped; what is raised left a
    comparator call of some rule's binding, and is that [KeyError] when the
    binding's comparator is not registered. *)
Theorem unknown_comparator_aborts_run (self : t) :
  (forall name left_value right_value context params,
      unregistered (registry self) name ->
      ComparatorRegistry.evaluate (registry self) name left_value right_value context params
      = Raise (KeyError (not_found_message name (ComparatorRegistry.names (registry self))))
      /\ StronglySorted (fun s s' => String.leb s s' = true)
           (ComparatorRegistry.names (registry self)))
  /\ (forall left_records right_records ruleset cardinality left_id_field right_id_field
        top_k left right e,
        rules ruleset <> [] ->
        In left left_records -> In right right_records ->
        _evaluate_rules_for_pair self left right (rules ruleset) = Raise e ->
        exists e' r fc,
          match_ self left_records right_records ruleset cardinality
            left_id_field right_id_field top_k = Raise e'
          /\ In r (rules ruleset)
          /\ raised_by_binding self r fc e').
Proof.
  split.
  - intros name lv rv ctx ps Hun. split; [| apply names_sorted].
    unfold ComparatorRegistry.evaluate. now rewrite (get_unregistered _ _ Hun).
  - intros L R rs card lid rid k left right e Hne Hl Hr Hev.
    destruct (match_Raise self L R rs card lid rid k left right e Hl Hr Hev)
      as (e' & left' & right' & _ & _ & Hev' & Hrun).
    destruct (evaluate_rules_Raise _ _ _ _ _ Hne Hev') as (r & fc & Hin & Hfc).
    exists e', r, fc. auto.
Qed.

End UnknownComparator.

(** ** Runs on example data *)

Ltac run_in H := vm_compute in H; first [discriminate H | injection H as H; subst].

(** C1 (the code departs from it). With the identifier field named ["key"]
    on both sides, the record [L1] matches the record [R1]; the entry is
    stored under the key ["L1"], read from the ["key"] field, but the pair
    score in it has [left_id] and [right_id] equal to the placeholder, read
    from the absent ["id"] field, and [R1] is listed as unmatched. *)
Theorem pair_score_ids_read_the_field_id :
  exists res ps,
    MatchingEngine.match_ engine [keyed "L1" "a@x.com"] [keyed "R1" "a@x.com"]
      email_ruleset ONE_TO_MANY "key" "key" None = Ok res
    /\ matches_index res = [(record_id "key" (keyed "L1" "a@x.com"), [ps])]
    /\ record_id "key" (keyed "L1" "a@x.com") = "L1"
    /\ record_id "key" (keyed "R1" "a@x.com") = "R1"
    /\ matched ps = true
    /\ left_id ps = "<no-id>"
    /\ right_id ps = "<no-id>"
    /\ unmatched_right_ids res = ["R1"].
Proof.
  do 2 eexists. split; [vm_compute; reflexivity |]. repeat split.
Qed.

Lemma one_to_many_duplicate_left_id_in_both :
  exists res,
    MatchingEngine.match_ engine
      [person "A" "a@x.com" "Ann"; person "A" "z@q.org" "Zed"]
      [person "R1" "a@x.com" "Ann"] email_ruleset ONE_TO_MANY "id" "id" None = Ok res
    /\ In (record_id "id" (person "A" "z@q.org" "Zed")) (dict_keys (matches_index res))
    /\ In (record_id "id" (person "A" "z@q.org" "Zed")) (unmatched_left_ids res).
Proof.
  eexists. split; [vm_compute; reflexivity |]. split; vm_compute; auto.
Qed.

Lemma one_to_many_left_ids_covered_witness :
  exists res,
    MatchingEngine.match_ engine
      [person "L1" "a@x.com" "Ann"; person "L2" "z@q.org" "Zed"]
      [person "R1" "a@x.com" "Ann"] email_ruleset ONE_TO_MANY "id" "id" None = Ok res
    /\ (In "L2" (dict_keys (matches_index res)) \/ In "L2" (unmatched_left_ids res))
    /\ ~ (In "L2" (dict_keys (matches_index res)) /\ In "L2" (unmatched_left_ids res)).
Proof.
  destruct (MatchingEngine.match_ engine
              [person "L1" "a@x.com" "Ann"; person "L2" "z@q.org" "Zed"]
              [person "R1" "a@x.com" "Ann"] email_ruleset ONE_TO_MANY "id" "id" None)
    as [res | e] eqn:Hrun; [| run_in Hrun].
  exists res. split; [reflexivity |].
  destruct (one_to_many_left_ids_covered engine _ _ _ _ _ _ res Hrun
              (person "L2" "z@q.org" "Zed")) as (Hcover & Hone); [simpl; auto |].
  split; [exact Hcover |]. apply Hone. vm_compute.
  repeat constructor; simpl; intuition discriminate.
Defined.

Lemma opposite_unmatched_ids_distinct_witness :
  exists res,
    MatchingEngine.match_ engine
      [person "A" "x@q.org" "Ann"; person "A" "y@q.org" "Amy"]
      [person "R1" "a@x.com" "Bob"; person "R1" "b@x.com" "Ben"]
      email_ruleset ONE_TO_MANY "id" "id" None = Ok res
    /\ NoDup (unmatched_right_ids res)
    /\ unmatched_right_ids res = ["R1"]
    /\ unmatched_left_ids res = ["A"; "A"].
Proof.
  destruct (MatchingEngine.match_ engine
              [person "A" "x@q.org" "Ann"; person "A" "y@q.org" "Amy"]
              [person "R1" "a@x.com" "Bob"; person "R1" "b@x.com" "Ben"]
              email_ruleset ONE_TO_MANY "id" "id" None) as [res | e] eqn:Hrun;
    [| run_in Hrun].
  exists res. split; [reflexivity |].
  destruct (opposite_unmatched_ids_distinct engine _ _ _ _ _ _ _ res Hrun) as (Hnd & _).
  split; [exact Hnd |]. run_in Hrun. split; reflexivity.
Defined.



Lemma ruleset_sorted_and_evaluated_in_order_witness :
  [rule_email_ratio; rule_email_unflagged; rule_name_exact] <> []
  /\ exists ruleset res ps lst,
       RuleSet_new [rule_email_ratio; rule_email_unflagged; rule_name_exact] = Ok ruleset
       /\ rules ruleset = [rule_name_exact; rule_email_unflagged; rule_email_ratio]
       /\ MatchingEngine.match_ engine [person "L1" "a@x.com" "Ann"]
            [person "R1" "A@X.com" "Bob"; person "R2" "z@q.org" "Zed"]
            ruleset ONE_TO_MANY "id" "id" None = Ok res
       /\ MatchingEngine._evaluate_rules_for_pair engine (person "L1" "a@x.com" "Ann")
            (person "R1" "A@X.com" "Bob") (rules ruleset) = Ok ps
       /\ chosen_in_order engine (person "L1" "a@x.com" "Ann") (person "R1" "A@X.com" "Bob")
            (rules ruleset) ps
       /\ rule_name ps = "b_email"
       /\ In ("L1", lst) (matches_index res)
       /\ In ps lst.
Proof.
  split; [discriminate |].
  destruct (ruleset_sorted_and_evaluated_in_order
              [rule_email_ratio; rule_email_unflagged; rule_name_exact])
    as (ruleset & Hnew & _ & _ & Hruns); [discriminate |].
  assert (Hrules : rules ruleset = [rule_name_exact; rule_email_unflagged; rule_email_ratio]).
  { unfold RuleSet_new in Hnew. simpl in Hnew. injection Hnew as <-. reflexivity. }
  destruct (MatchingEngine.match_ engine [person "L1" "a@x.com" "Ann"]
              [person "R1" "A@X.com" "Bob"; person "R2" "z@q.org" "Zed"]
              ruleset ONE_TO_MANY "id" "id" None) as [res | e] eqn:Hrun.
  - destruct (Hruns _ _ _ _ _ _ _ _ Hrun) as (Hpairs & _).
    destruct (Hpairs (person "L1" "a@x.com" "Ann") (person "R1" "A@X.com" "Bob"))
      as (ps & Hev & Hchosen & Hstored); [now left | now left |].
    assert (Hps : rule_name ps = "b_email" /\ matched ps = true).
    { rewrite Hrules in Hev. vm_compute in Hev. injection Hev as <-. split; reflexivity. }
    destruct Hps as (Hname & Hm).
    destruct (Hstored Hm) as (_ & Hlst).
    destruct (Hlst eq_refl) as (lst & Hin & Hps).
    { simpl. repeat constructor. intros []. }
    exists ruleset, res, ps, lst. auto 10.
  - exfalso. unfold MatchingEngine.match_ in Hrun. rewrite Hrules in Hrun.
    vm_compute in Hrun. discriminate.
Defined.

Lemma unknown_comparator_aborts_run_witness :
  exists e' r fc,
    MatchingEngine.match_ engine [person "L1" "a@x.com" "Ann"] [person "R1" "a@x.com" "Bob"]
      ruleset_name_then_unknown ONE_TO_MANY "id" "id" None = Raise e'
    /\ In r (rules ruleset_name_then_unknown)
    /\ raised_by_binding engine r fc e'
    /\ e' = KeyError (not_found_message "soundex"
                        ["contains"; "date_distance_days"; "exact"; "icase_exact";
                         "jaccard"; "numeric_distance"; "ratio"]).
Proof.
  destruct (MatchingEngine._evaluate_rules_for_pair engine (person "L1" "a@x.com" "Ann")
              (person "R1" "a@x.com" "Bob") (rules ruleset_name_then_unknown))
    as [ps | e] eqn:Hev; [run_in Hev |].
  destruct (proj2 (unknown_comparator_aborts_run engine)
              [person "L1" "a@x.com" "Ann"] [person "R1" "a@x.com" "Bob"]
              ruleset_name_then_unknown ONE_TO_MANY "id" "id" None
              (person "L1" "a@x.com" "Ann") (person "R1" "a@x.com" "Bob") e)
    as (e' & r & fc & Hrun & Hin & Hfc);
    [discriminate | simpl; auto | simpl; auto | exact Hev |].
  exists e', r, fc. repeat split; try assumption; try apply Hfc.
  run_in Hrun. reflexivity.
Defined.

Lemma unknown_comparator_behind_a_match_is_not_reached :
  RuleSet_new [rule_unknown_comparator; rule_email_unflagged]
  = Ok ruleset_email_then_unknown
  /\ In (binding "email" "soundex" 1 false None) (fields rule_unknown_comparator)
  /\ unregistered (MatchingEngine.registry engine) "soundex"
  /\ exists res,
       MatchingEngine.match_ engine [person "L1" "a@x.com" "Ann"]
         [person "R1" "a@x.com" "Bob"] ruleset_email_then_unknown
         ONE_TO_MANY "id" "id" None = Ok res
       /\ dict_keys (matches_index res) = ["L1"].
Proof.
  split; [reflexivity |]. split; [left; reflexivity |]. split; [reflexivity |].
  eexists. split; [vm_compute; reflexivity | reflexivity].
Qed.

(** * Further properties of the code *)

(** ** Dictionaries: lookup after update *)

Lemma dict_get_set_same {V : Type} (d : PyDict V) (k : string) (v : V) :
  dict_get (dict_set d k v) k = Some v.
Proof.
  induction d as [| [k' v'] d IH]; simpl.
  - now rewrite String.eqb_refl.
  - destruct (String.eqb k' k) eqn:Hk; simpl; rewrite Hk; [reflexivity | exact IH].
Qed.

Lemma dict_get_set_other {V : Type} (d : PyDict V) (k k' : string) (v : V) :
  k' <> k -> dict_get (dict_set d k v) k' = dict_get d k'.
Proof.
  intros Hne. induction d as [| [k0 v0] d IH]; simpl.
  - destruct (String.eqb k k') eqn:Hk; [| reflexivity].
    apply String.eqb_eq in Hk. congruence.
  - destruct (String.eqb k0 k) eqn:Hk; simpl.
    + apply String.eqb_eq in Hk. subst k0.
      destruct (String.eqb k k') eqn:Hk'; [| reflexivity].
      apply String.eqb_eq in Hk'. congruence.
    + now rewrite IH.
Qed.

Lemma dict_set_same_value {V : Type} (d : PyDict V) (k : string) (v : V) :
  dict_get d k = Some v -> dict_set d k v = d.
Proof.
  induction d as [| [k0 v0] d IH]; simpl; [discriminate |].
  destruct (String.eqb k0 k) eqn:Hk.
  - intros Hv. now injection Hv as <-.
  - intros Hv. now rewrite IH.
Qed.

Lemma dict_get_keys {V : Type} (d : PyDict V) (k : string) :
  In k (dict_keys d) <-> exists v, dict_get d k = Some v.
Proof.
  unfold dict_keys. induction d as [| [k0 v0] d IH]; simpl.
  - split; [tauto | intros (v & Hv); discriminate].
  - destruct (String.eqb k0 k) eqn:Hk.
    + apply String.eqb_eq in Hk. split; [eauto | auto].
    + apply String.eqb_neq in Hk. rewrite IH. split; [intros [Heq | Hv]; [congruence | exact Hv] | auto].
Qed.

(** ** Text normalization *)

Lemma string_of_list_ascii_nil (l : list ascii) :
  string_of_list_ascii l = EmptyString <-> l = [].
Proof. destruct l; simpl; split; congruence. Qed.

Lemma lstrip_chars_nil (l : list ascii) :
  lstrip_chars l = [] <-> Forall (fun c => is_space c = true) l.
Proof.
  induction l as [| c l IH]; simpl; [split; constructor |].
  destruct (is_space c) eqn:Hc.
  - rewrite IH. split; [now constructor | now inversion 1].
  - split; [discriminate | inversion 1; congruence].
Qed.

Lemma lstrip_chars_head (l : list ascii) (c : ascii) (l' : list ascii) :
  lstrip_chars l = c :: l' -> is_space c = false.
Proof.
  induction l as [| x l IH]; simpl; [discriminate |].
  destruct (is_space x) eqn:Hx; [exact IH | intros Heq; injection Heq as <- _; exact Hx].
Qed.

Lemma lstrip_chars_spaces (l : list ascii) :
  Forall (fun c => is_space c = true) (lstrip_chars l) -> lstrip_chars l = [].
Proof.
  destruct (lstrip_chars l) as [| c l'] eqn:Hl; [reflexivity |].
  intros Hall. inversion Hall as [| ? ? Hc _]; subst.
  apply lstrip_chars_head in Hl. congruence.
Qed.

Lemma lstrip_chars_Forall (l : list ascii) :
  Forall (fun c => is_space c = true) l ->
  Forall (fun c => is_space c = true) (lstrip_chars l).
Proof. intros Hl. apply lstrip_chars_nil in Hl. rewrite Hl. constructor. Qed.

(** [name.strip()] is empty exactly for texts made of whitespace only. *)
Lemma strip_empty (s : string) :
  strip s = EmptyString <-> blank s.
Proof.
  unfold blank, strip, chars. rewrite string_of_list_ascii_nil. split.
  - intros Hnil. apply (f_equal (@rev ascii)) in Hnil. rewrite rev_involutive in Hnil.
    simpl in Hnil. apply lstrip_chars_nil in Hnil. apply Forall_rev in Hnil.
    rewrite rev_involutive in Hnil. apply lstrip_chars_spaces in Hnil.
    now apply lstrip_chars_nil.
  - intros Hall. apply lstrip_chars_nil in Hall. rewrite Hall. reflexivity.
Qed.

Lemma lower_empty (s : string) : lower s = EmptyString <-> s = EmptyString.
Proof.
  unfold lower. rewrite string_of_list_ascii_nil. split.
  - intros Hnil. apply map_eq_nil in Hnil.
    rewrite <- (string_of_list_ascii_of_string s), Hnil. reflexivity.
  - now intros ->.
Qed.

(** ** The registry *)

Lemma get_Ok (self : ComparatorRegistry.t) (name : string) (func : ComparatorFunc) :
  ComparatorRegistry.get self name = Ok func
  <-> dict_get (ComparatorRegistry._name_to_comparator self) (normalized name) = Some func.
Proof.
  unfold ComparatorRegistry.get, normalized.
  destruct (dict_get (ComparatorRegistry._name_to_comparator self) (lower (strip name)));
    split; intros Hg; first [discriminate Hg | now injection Hg as <-].
Qed.

(** X1. After [register(name, func)], [get] and [evaluate] reach [func]
    under every spelling of the name that differs only in letter case and
    surrounding whitespace: [evaluate] returns what [func] returns. *)
Theorem register_then_get (self self' : ComparatorRegistry.t) (name name' : string)
  (func : ComparatorFunc) (description : option string) :
  ComparatorRegistry.register self name func description = Ok self' ->
  normalized name' = normalized name ->
  ComparatorRegistry.get self' name' = Ok func
  /\ forall left_value right_value context params,
       ComparatorRegistry.evaluate self' name' left_value right_value context params
       = func left_value right_value context params.
Proof.
  unfold ComparatorRegistry.register, normalized. intros Hreg Hname.
  destruct (String.eqb (lower (strip name)) EmptyString); [discriminate |].
  injection Hreg as <-.
  assert (Hget : ComparatorRegistry.get
                   {| ComparatorRegistry._name_to_comparator :=
                        dict_set (ComparatorRegistry._name_to_comparator self)
                          (lower (strip name)) func;
                      ComparatorRegistry._name_to_description :=
                        match description with
                        | Some d =>
                            if String.eqb d EmptyString
                            then ComparatorRegistry._name_to_description self
                            else dict_set (ComparatorRegistry._name_to_description self)
                                   (lower (strip name)) d
                        | None => ComparatorRegistry._name_to_description self
                        end |} name' = Ok func).
  { unfold ComparatorRegistry.get. simpl. now rewrite Hname, dict_get_set_same. }
  split; [exact Hget |]. intros lv rv ctx ps.
  unfold ComparatorRegistry.evaluate. now rewrite Hget.
Qed.

(** X2. [register] touches one name only: under every name that normalizes
    differently, [get] finds after the call exactly the comparator it found
    before, and fails exactly when it failed before. *)
Theorem register_keeps_other_names (self self' : ComparatorRegistry.t) (name other : string)
  (func : ComparatorFunc) (description : option string) :
  ComparatorRegistry.register self name func description = Ok self' ->
  normalized other <> normalized name ->
  (forall g, ComparatorRegistry.get self' other = Ok g
             <-> ComparatorRegistry.get self other = Ok g)
  /\ ((exists e, ComparatorRegistry.get self' other = Raise e)
      <-> exists e, ComparatorRegistry.get self other = Raise e).
Proof.
  unfold ComparatorRegistry.register, normalized. intros Hreg Hother.
  destruct (String.eqb (lower (strip name)) EmptyString); [discriminate |].
  injection Hreg as <-. unfold ComparatorRegistry.get. simpl.
  rewrite (dict_get_set_other _ _ _ _ Hother).
  destruct (dict_get (ComparatorRegistry._name_to_comparator self) (lower (strip other)));
    (split; [intros g; split; intros Hg; first [exact Hg | discriminate Hg] |]);
    split; intros (e & He); try discriminate; eauto.
Qed.

(** X3. [register] refuses a name exactly when the name has nothing but
    whitespace in it (the empty name included), with a [ValueError]; every
    other name is accepted. *)
Theorem register_rejects_blank_names (self : ComparatorRegistry.t) (name : string)
  (func : ComparatorFunc) (description : option string) :
  (blank name ->
   ComparatorRegistry.register self name func description
   = Raise (ValueError "Comparator name cannot be empty"))
  /\ (~ blank name ->
      exists self', ComparatorRegistry.register self name func description = Ok self').
Proof.
  unfold ComparatorRegistry.register. split; intros Hname.
  - apply strip_empty in Hname. rewrite Hname. reflexivity.
  - destruct (String.eqb (lower (strip name)) EmptyString) eqn:He; [| eauto].
    apply String.eqb_eq, lower_empty, strip_empty in He. contradiction.
Qed.

(** X4. [register] keeps the catalogue free of duplicates: the names after
    the call are the names before plus the normalized new name, listed in
    sorted order without repetition, and registering a name again leaves the
    list of names as it was. *)
Theorem register_names (self self' : ComparatorRegistry.t) (name : string)
  (func : ComparatorFunc) (description : option string) :
  NoDup (dict_keys (ComparatorRegistry._name_to_comparator self)) ->
  ComparatorRegistry.register self name func description = Ok self' ->
  NoDup (dict_keys (ComparatorRegistry._name_to_comparator self'))
  /\ NoDup (ComparatorRegistry.names self')
  /\ StronglySorted (fun s s' => String.leb s s' = true) (ComparatorRegistry.names self')
  /\ (forall n, In n (ComparatorRegistry.names self')
                <-> n = normalized name \/ In n (ComparatorRegistry.names self))
  /\ (In (normalized name) (ComparatorRegistry.names self) ->
      ComparatorRegistry.names self' = ComparatorRegistry.names self).
Proof.
  unfold ComparatorRegistry.register, normalized. intros Hnd Hreg.
  destruct (String.eqb (lower (strip name)) EmptyString); [discriminate |].
  injection Hreg as <-.
  assert (Hkeys : NoDup (dict_keys (dict_set (ComparatorRegistry._name_to_comparator self)
                                      (lower (strip name)) func)))
    by now apply dict_set_NoDup.
  split; [exact Hkeys |].
  destruct (names_sorted self) as (_ & Hperm).
  match goal with |- context [ComparatorRegistry.names ?r] =>
    destruct (names_sorted r) as (Hsorted' & Hperm') end.
  simpl in Hperm'.
  split; [eapply Permutation_NoDup; eauto |]. split; [exact Hsorted' |]. split.
  - intros n. split.
    + intros Hn. apply (Permutation_in _ (Permutation_sym Hperm')) in Hn.
      apply dict_set_key_In in Hn as [-> | Hn]; [now left | right].
      eapply Permutation_in; eauto.
    + intros Hn. apply (Permutation_in _ Hperm'). apply dict_set_key_In.
      destruct Hn as [-> | Hn]; [now left | right].
      eapply Permutation_in; [apply Permutation_sym; exact Hperm | exact Hn].
  - intros Hin. unfold ComparatorRegistry.names. simpl. rewrite dict_set_keys.
    apply (Permutation_in _ (Permutation_sym Hperm)) in Hin.
    apply str_mem_In in Hin. now rewrite Hin.
Qed.

(** X5. A description that is given and not empty is what [describe]
    returns afterwards, under every spelling of the name; a registration
    without description (or with an empty one) leaves all descriptions as
    they were, so a comparator that was replaced keeps the description of the
    one before it. *)
Theorem register_description (self self' : ComparatorRegistry.t) (name : string)
  (func : ComparatorFunc) (description : option string) :
  ComparatorRegistry.register self name func description = Ok self' ->
  (forall d name',
      description = Some d -> d <> EmptyString -> normalized name' = normalized name ->
      ComparatorRegistry.describe self' name' = Some d)
  /\ (description = None \/ description = Some EmptyString ->
      forall name', ComparatorRegistry.describe self' name'
                    = ComparatorRegistry.describe self name').
Proof.
  unfold ComparatorRegistry.register, normalized. intros Hreg.
  destruct (String.eqb (lower (strip name)) EmptyString); [discriminate |].
  injection Hreg as <-. unfold ComparatorRegistry.describe. simpl. split.
  - intros d name' -> Hd Hname. apply String.eqb_neq in Hd. rewrite Hd, Hname.
    apply dict_get_set_same.
  - intros [-> | ->] name'; reflexivity.
Qed.

Lemma register_then_get_witness :
  exists self',
    ComparatorRegistry.register default_registry ecole_padded cmp_icase_exact None = Ok self'
    /\ normalized ecole_capitals = normalized ecole_padded
    /\ normalized ecole_padded = ecole
    /\ ComparatorRegistry.get self' ecole_capitals = Ok cmp_icase_exact
    /\ ComparatorRegistry.evaluate self' ecole_capitals (VStr "Ann") (VStr "ann") None None
       = cmp_icase_exact (VStr "Ann") (VStr "ann") None None.
Proof.
  destruct (ComparatorRegistry.register default_registry ecole_padded cmp_icase_exact None)
    as [self' | e] eqn:Hreg; [| discriminate Hreg].
  exists self'. split; [reflexivity |]. split; [reflexivity |]. split; [reflexivity |].
  destruct (register_then_get default_registry self' ecole_padded ecole_capitals
              cmp_icase_exact None Hreg eq_refl) as (Hget & Hev).
  split; [exact Hget | apply Hev].
Defined.

Lemma register_keeps_other_names_witness :
  exists self',
    ComparatorRegistry.register default_registry " Exact " cmp_icase_exact None = Ok self'
    /\ normalized "Ratio" <> normalized " Exact "
    /\ (ComparatorRegistry.get self' "Ratio" = Ok cmp_ratio
        <-> ComparatorRegistry.get default_registry "Ratio" = Ok cmp_ratio).
Proof.
  destruct (ComparatorRegistry.register default_registry " Exact " cmp_icase_exact None)
    as [self' | e] eqn:Hreg; [| discriminate Hreg].
  exists self'. split; [reflexivity |]. split; [discriminate |].
  apply (register_keeps_other_names default_registry self' " Exact " "Ratio" cmp_icase_exact
           None Hreg).
  discriminate.
Defined.

Lemma register_names_witness :
  exists self',
    NoDup (dict_keys (ComparatorRegistry._name_to_comparator ComparatorRegistry.new))
    /\ ComparatorRegistry.register ComparatorRegistry.new " Exact " cmp_exact None = Ok self'
    /\ NoDup (ComparatorRegistry.names self')
    /\ (forall n, In n (ComparatorRegistry.names self')
                  <-> n = normalized " Exact " \/ In n (ComparatorRegistry.names ComparatorRegistry.new)).
Proof.
  destruct (ComparatorRegistry.register ComparatorRegistry.new " Exact " cmp_exact None)
    as [self' | e] eqn:Hreg; [| discriminate Hreg].
  exists self'. split; [constructor |]. split; [reflexivity |].
  destruct (register_names ComparatorRegistry.new self' " Exact " cmp_exact None
              (NoDup_nil string) Hreg) as (_ & Hnd & _ & Hin & _).
  split; [exact Hnd | exact Hin].
Defined.

Lemma register_description_witness :
  exists self',
    ComparatorRegistry.register default_registry " Exact " cmp_icase_exact None = Ok self'
    /\ ComparatorRegistry.describe self' "exact"
       = Some "Exact equality comparison (case sensitive)".
Proof.
  destruct (ComparatorRegistry.register default_registry " Exact " cmp_icase_exact None)
    as [self' | e] eqn:Hreg; [| discriminate Hreg].
  exists self'. split; [reflexivity |].
  rewrite (proj2 (register_description default_registry self' " Exact " cmp_icase_exact None
                    Hreg) (or_introl eq_refl) "exact").
  reflexivity.
Defined.

(** ** Registering the built-in comparators *)

Section DefaultComparators.

Context `{PyLib}.

Lemma register_default_comparators_eq (registry : ComparatorRegistry.t) :
  register_default_comparators registry
  = Ok {| ComparatorRegistry._name_to_comparator :=
            fold_left (fun d b => dict_set d (fst b) (fst (snd b))) builtin_comparators
              (ComparatorRegistry._name_to_comparator registry);
          ComparatorRegistry._name_to_description :=
            fold_left (fun d b => dict_set d (fst b) (snd (snd b))) builtin_comparators
              (ComparatorRegistry._name_to_description registry) |}.
Proof. reflexivity. Qed.

Lemma fold_dict_set_other {V B : Type} (key : B -> string) (val : B -> V) (bs : list B)
  (d : PyDict V) (k : string) :
  ~ In k (map key bs) ->
  dict_get (fold_left (fun d b => dict_set d (key b) (val b)) bs d) k = dict_get d k.
Proof.
  revert d. induction bs as [| b bs IH]; intros d Hk; simpl; [reflexivity |].
  simpl in Hk. rewrite IH by tauto. apply dict_get_set_other. intros ->. tauto.
Qed.

Lemma fold_dict_set_same {V B : Type} (key : B -> string) (val : B -> V) (bs : list B)
  (d : PyDict V) (b : B) :
  NoDup (map key bs) -> In b bs ->
  dict_get (fold_left (fun d b => dict_set d (key b) (val b)) bs d) (key b) = Some (val b).
Proof.
  revert d. induction bs as [| b0 bs IH]; intros d Hnd Hb; simpl; [destruct Hb |].
  simpl in Hnd. inversion Hnd as [| ? ? Hnotin Hnd']; subst.
  destruct Hb as [-> | Hb]; [| now apply IH].
  rewrite fold_dict_set_other by exact Hnotin. apply dict_get_set_same.
Qed.

Lemma fold_dict_set_again {V B : Type} (key : B -> string) (val : B -> V) (bs : list B)
  (d : PyDict V) :
  (forall b, In b bs -> dict_get d (key b) = Some (val b)) ->
  fold_left (fun d b => dict_set d (key b) (val b)) bs d = d.
Proof.
  induction bs as [| b bs IH]; intros Hd; simpl; [reflexivity |].
  rewrite dict_set_same_value by (apply Hd; now left).
  apply IH. intros b' Hb'. apply Hd. now right.
Qed.

Lemma builtin_comparators_NoDup : NoDup (map fst builtin_comparators).
Proof.
  simpl. repeat (constructor; [simpl; intuition discriminate |]). constructor.
Qed.

(** X6. [register_default_comparators] succeeds on every registry, whatever
    it holds already.  Afterwards each of the seven built-in names resolves
    to its built-in comparator and description (a comparator a user had
    filed under such a name is replaced), every other name resolves as
    before, and a second call changes nothing. *)
Theorem register_default_comparators_any_registry (registry : ComparatorRegistry.t) :
  exists registry',
    register_default_comparators registry = Ok registry'
    /\ (forall name func description,
           In (normalized name, (func, description)) builtin_comparators ->
           ComparatorRegistry.get registry' name = Ok func
           /\ ComparatorRegistry.describe registry' name = Some description)
    /\ (forall name, ~ builtin_name name ->
           (forall func, ComparatorRegistry.get registry' name = Ok func
                         <-> ComparatorRegistry.get registry name = Ok func)
           /\ ComparatorRegistry.describe registry' name
              = ComparatorRegistry.describe registry name)
    /\ register_default_comparators registry' = Ok registry'.
Proof.
  eexists. split; [apply register_default_comparators_eq |]. split; [| split].
  - intros name func description Hin.
    unfold ComparatorRegistry.get, ComparatorRegistry.describe.
    cbn [ComparatorRegistry._name_to_comparator ComparatorRegistry._name_to_description].
    fold (normalized name).
    rewrite (fold_dict_set_same fst (fun b => fst (snd b)) _ _ _ builtin_comparators_NoDup Hin).
    rewrite (fold_dict_set_same fst (fun b => snd (snd b)) _ _ _ builtin_comparators_NoDup Hin).
    split; reflexivity.
  - intros name Hname. unfold builtin_name in Hname. split.
    + intros func. rewrite !get_Ok.
      cbn [ComparatorRegistry._name_to_comparator].
      now rewrite fold_dict_set_other by exact Hname.
    + unfold ComparatorRegistry.describe.
      cbn [ComparatorRegistry._name_to_description]. fold (normalized name).
      now rewrite fold_dict_set_other by exact Hname.
  - rewrite register_default_comparators_eq.
    cbn [ComparatorRegistry._name_to_comparator ComparatorRegistry._name_to_description].
    rewrite (fold_dict_set_again fst (fun b => fst (snd b))),
            (fold_dict_set_again fst (fun b => snd (snd b))); [reflexivity | |].
    + intros b Hb. apply (fold_dict_set_same fst (fun b => snd (snd b)));
        [apply builtin_comparators_NoDup | exact Hb].
    + intros b Hb. apply (fold_dict_set_same fst (fun b => fst (snd b)));
        [apply builtin_comparators_NoDup | exact Hb].
Qed.

End DefaultComparators.

(** ** Text normalization, continued *)

Lemma chars_append (s t : string) : chars (String.append s t) = chars s ++ chars t.
Proof. unfold chars. induction s as [| c s IH]; simpl; [reflexivity | now rewrite IH]. Qed.

Lemma chars_string_of_list (l : list ascii) : chars (string_of_list_ascii l) = l.
Proof. apply list_ascii_of_string_of_list_ascii. Qed.

Lemma string_of_chars (s : string) : string_of_list_ascii (chars s) = s.
Proof. apply string_of_list_ascii_of_string. Qed.

Lemma lstrip_chars_app (l m : list ascii) :
  lstrip_chars (l ++ m)
  = match lstrip_chars l with
    | [] => lstrip_chars m
    | _ => lstrip_chars l ++ m
    end.
Proof.
  induction l as [| c l IH]; simpl; [reflexivity |].
  destruct (is_space c); [exact IH | reflexivity].
Qed.

Lemma lstrip_chars_idem (l : list ascii) : lstrip_chars (lstrip_chars l) = lstrip_chars l.
Proof.
  destruct (lstrip_chars l) as [| c l'] eqn:Hl; [reflexivity |].
  apply lstrip_chars_head in Hl. simpl. now rewrite Hl.
Qed.

(** [strip] on lists of characters *)
Definition strip_chars (l : list ascii) : list ascii :=
  rev (lstrip_chars (rev (lstrip_chars l))).

Lemma strip_strip_chars (s : string) : strip s = string_of_list_ascii (strip_chars (chars s)).
Proof. reflexivity. Qed.

Lemma strip_chars_pad (pre l post : list ascii) :
  Forall (fun c => is_space c = true) pre -> Forall (fun c => is_space c = true) post ->
  strip_chars (pre ++ l ++ post) = strip_chars l.
Proof.
  intros Hpre Hpost. unfold strip_chars. f_equal.
  rewrite lstrip_chars_app. apply lstrip_chars_nil in Hpre. rewrite Hpre.
  rewrite lstrip_chars_app. destruct (lstrip_chars l) as [| c l'] eqn:Hl.
  - apply lstrip_chars_nil in Hpost. now rewrite Hpost.
  - rewrite rev_app_distr, lstrip_chars_app.
    apply Forall_rev, lstrip_chars_nil in Hpost. now rewrite Hpost.
Qed.

Lemma strip_pad (pre s post : string) :
  blank pre -> blank post -> strip (String.append pre (String.append s post)) = strip s.
Proof.
  intros Hpre Hpost. rewrite !strip_strip_chars, !chars_append.
  now rewrite strip_chars_pad.
Qed.

Lemma is_space_lower (c : ascii) : is_space (lower_char c) = is_space c.
Proof. destruct c as [[] [] [] [] [] [] [] []]; reflexivity. Qed.

Lemma lower_char_idem (c : ascii) : lower_char (lower_char c) = lower_char c.
Proof. destruct c as [[] [] [] [] [] [] [] []]; reflexivity. Qed.

Lemma lstrip_chars_map_lower (l : list ascii) :
  lstrip_chars (map lower_char l) = map lower_char (lstrip_chars l).
Proof.
  induction l as [| c l IH]; simpl; [reflexivity |].
  rewrite is_space_lower. destruct (is_space c); [exact IH | reflexivity].
Qed.

(** Stripping and lower-casing commute. *)
Lemma lower_strip (s : string) : lower (strip s) = strip (lower s).
Proof.
  unfold lower. rewrite !strip_strip_chars. fold (chars (string_of_list_ascii (strip_chars (chars s)))).
  fold (chars s). rewrite !chars_string_of_list. f_equal. unfold strip_chars.
  now rewrite map_rev, <- lstrip_chars_map_lower, map_rev, <- lstrip_chars_map_lower.
Qed.

Lemma blank_strip (s : string) : blank s -> strip s = EmptyString.
Proof. apply strip_empty. Qed.

Lemma blank_normalized (s : string) : blank s -> normalized s = EmptyString.
Proof. intros Hs. unfold normalized. now rewrite blank_strip. Qed.

(** ** Equality of values *)

Lemma Qeq_bool_sym (x y : Q) : Qeq_bool x y = Qeq_bool y x.
Proof.
  destruct (Qeq_bool x y) eqn:Hxy; symmetry.
  - apply Qeq_bool_iff. symmetry. now apply Qeq_bool_iff.
  - destruct (Qeq_bool y x) eqn:Hyx; [| reflexivity].
    apply Qeq_bool_iff in Hyx. symmetry in Hyx. apply Qeq_bool_iff in Hyx. congruence.
Qed.

Lemma py_eq_sym (a b : Value) : py_eq a b = py_eq b a.
Proof.
  destruct a as [| x | x | x | x], b as [| y | y | y | y]; simpl;
    try reflexivity; try apply Qeq_bool_sym; apply String.eqb_sym.
Qed.

Lemma py_eq_refl (v : Value) : py_eq v v = true.
Proof.
  destruct v as [| x | x | x | x]; simpl; try reflexivity;
    try (apply Qeq_bool_iff; reflexivity). apply String.eqb_refl.
Qed.

Lemma py_eq_None_l (v : Value) : py_eq VNone v = true -> v = VNone.
Proof. destruct v; simpl; congruence. Qed.

Section ComparatorLaws.

Context `{PyLib}.

(** X7. [cmp_exact] does not depend on the order of its two values nor on
    context and parameters.  A bool, an int or a text scores 1.0 against
    itself.  Finite numbers are compared by value whatever their type (so a
    finite float scores 1.0 against itself too; NaN, which this model leaves
    out, does not), and a text never equals a number: the text of a number
    scores 0.0 against the number. *)
Theorem cmp_exact_symmetric (left right : Value) (context context' : option Context)
  (params params' : option (PyDict Value)) :
  cmp_exact left right context params = cmp_exact right left context' params'
  /\ (match left with VNone | VFloat _ => False | _ => True end ->
      cmp_exact left left context params = Ok (1%Q, [("match", DValue (VBool true))]))
  /\ (forall x y, as_number left = Some x -> as_number right = Some y -> (x == y)%Q ->
      cmp_exact left right context params = Ok (1%Q, [("match", DValue (VBool true))]))
  /\ (forall s, left = VStr s -> as_number right <> None ->
      cmp_exact left right context params = Ok (0%Q, [("match", DValue (VBool false))])).
Proof.
  unfold cmp_exact. split; [| split; [| split]].
  - rewrite (py_eq_sym right left). destruct (py_eq left right) eqn:He; [| reflexivity].
    destruct left, right; try reflexivity; simpl in He; discriminate.
  - intros Hv. rewrite py_eq_refl. now destruct left.
  - intros x y Hx Hy Hxy. apply Qeq_bool_iff in Hxy.
    destruct left, right; simpl in *; try discriminate;
      injection Hx as <-; injection Hy as <-; now rewrite Hxy.
  - intros s -> Hr. destruct right; simpl in *; try reflexivity. congruence.
Qed.

(** X8. [cmp_icase_exact] does not depend on the order of its two values and
    compares the texts [str(value)]: two values with the same text score 1.0
    whatever their types, and so do two texts that differ only in letter
    case and in surrounding whitespace. *)
Theorem cmp_icase_exact_symmetric (left right : Value) (context context' : option Context)
  (params params' : option (PyDict Value)) :
  cmp_icase_exact left right context params = cmp_icase_exact right left context' params'
  /\ (left <> VNone -> right <> VNone -> str left = str right ->
      cmp_icase_exact left right context params
      = Ok (1%Q, [("match", DValue (VBool true))]))
  /\ (forall s t pre post,
      left = VStr s -> right = VStr (String.append pre (String.append t post)) ->
      blank pre -> blank post -> lower t = lower s ->
      cmp_icase_exact left right context params
      = Ok (1%Q, [("match", DValue (VBool true))])).
Proof.
  unfold cmp_icase_exact, _normalize_text, _to_string. split; [| split].
  - destruct left, right; try reflexivity; rewrite String.eqb_sym;
      match goal with |- context [String.eqb ?x ?y] => now destruct (String.eqb x y) end.
  - intros Hl Hr Hstr.
    destruct left; [congruence | ..]; (destruct right; [congruence | ..]);
      rewrite Hstr, String.eqb_refl; reflexivity.
  - intros s t pre post -> -> Hpre Hpost Hlow. cbn [str].
    rewrite (strip_pad _ _ _ Hpre Hpost), !lower_strip, Hlow, String.eqb_refl. reflexivity.
Qed.

End ComparatorLaws.

(** ** Substrings *)

Lemma prefix_append (s t : string) :
  String.prefix s t = true <-> exists post, t = String.append s post.
Proof.
  revert t. induction s as [| c s IH]; intros t; simpl.
  - split; [eauto | now destruct t].
  - destruct t as [| c' t]; [split; [discriminate | intros (post & Hp); discriminate] |].
    simpl. destruct (ascii_dec c c') as [<- | Hne].
    + rewrite IH. split; intros (post & Hp); exists post; congruence.
    + split; [discriminate | intros (post & Hp); congruence].
Qed.

Lemma str_in_nil (s : string) : str_in s EmptyString = String.prefix s EmptyString.
Proof. cbn [str_in]. now destruct (String.prefix s EmptyString). Qed.

Lemma str_in_cons (s : string) (c : ascii) (t : string) :
  str_in s (String c t) = if String.prefix s (String c t) then true else str_in s t.
Proof. reflexivity. Qed.

Lemma str_in_substring (s t : string) :
  str_in s t = true <-> substring_of s t.
Proof.
  unfold substring_of. induction t as [| c t IH]; [rewrite str_in_nil | rewrite str_in_cons].
  - destruct (String.prefix s EmptyString) eqn:Hp.
    + split; [intros _ | reflexivity]. apply prefix_append in Hp as (post & Hp).
      exists EmptyString, post. exact Hp.
    + split; [discriminate |]. intros (pre & post & Ht).
      destruct pre; [| discriminate]. simpl in Ht.
      assert (Hp' : String.prefix s EmptyString = true) by (apply prefix_append; eauto).
      congruence.
  - destruct (String.prefix s (String c t)) eqn:Hp.
    + split; [intros _ | reflexivity]. apply prefix_append in Hp as (post & Hp).
      exists EmptyString, post. exact Hp.
    + rewrite IH. split.
      * intros (pre & post & Ht). exists (String c pre), post. simpl. now rewrite Ht.
      * intros (pre & post & Ht). destruct pre as [| c' pre].
        -- simpl in Ht.
           assert (Hp' : String.prefix s (String c t) = true) by (apply prefix_append; eauto).
           congruence.
        -- simpl in Ht. injection Ht as _ Ht. eauto.
Qed.


Section ContainsLaws.

Context `{PyLib}.

(** X9. With both values present, [cmp_contains] scores 1.0 or 0.0, and
    1.0 exactly when the normalized left text occurs inside the normalized
    right text (direction [left_in_right], the default) or the other way
    round (direction [right_in_left]).  Any other direction scores 0.0 with
    the reason [bad_direction], even for equal values; nothing is raised. *)
Theorem cmp_contains_substring (left right : Value) (context : option Context)
  (params : option (PyDict Value)) (li ri : string) :
  _normalize_text left (case_flag params) true = Some li ->
  _normalize_text right (case_flag params) true = Some ri ->
  exists s d,
    cmp_contains left right context params = Ok (s, d)
    /\ (s = 1%Q \/ s = 0%Q)
    /\ (s = 1%Q <-> (direction_of params = "left_in_right" /\ substring_of li ri)
                    \/ (direction_of params = "right_in_left" /\ substring_of ri li))
    /\ (direction_of params <> "left_in_right" -> direction_of params <> "right_in_left" ->
        d = [("reason", DValue (VStr "bad_direction"));
             ("direction", DValue (VStr (direction_of params)))]).
Proof.
  unfold cmp_contains, case_flag, direction_of. intros -> ->.
  set (direction := str (get_value_or (params_or_empty params) "direction"
                           (VStr "left_in_right"))).
  destruct (String.eqb direction "left_in_right") eqn:Hd1.
  - apply String.eqb_eq in Hd1. do 2 eexists. split; [reflexivity |].
    destruct (str_in li ri) eqn:Hin.
    + apply str_in_substring in Hin. repeat split; auto; congruence.
    + split; [auto |]. split; [| congruence]. split; [discriminate |].
      intros [(_ & Hsub) | (Hd2 & _)].
      * apply str_in_substring in Hsub. congruence.
      * rewrite Hd1 in Hd2. discriminate.
  - destruct (String.eqb direction "right_in_left") eqn:Hd2.
    + apply String.eqb_eq in Hd2. do 2 eexists. split; [reflexivity |].
      destruct (str_in ri li) eqn:Hin.
      * apply str_in_substring in Hin. repeat split; auto; congruence.
      * split; [auto |]. split; [| congruence]. split; [discriminate |].
        intros [(Hd1' & _) | (_ & Hsub)].
        -- rewrite Hd2 in Hd1'. discriminate.
        -- apply str_in_substring in Hsub. congruence.
    + apply String.eqb_neq in Hd1, Hd2. do 2 eexists. split; [reflexivity |].
      split; [auto |]. split; [| reflexivity]. split; [discriminate |].
      intros [(Hd & _) | (Hd & _)]; contradiction.
Qed.


End ContainsLaws.

Lemma cmp_contains_substring_witness :
  exists s d,
    cmp_contains (VStr " Ann ") (VStr "Joanna") None None = Ok (s, d)
    /\ (s = 1%Q <-> (direction_of None = "left_in_right" /\ substring_of "ann" "joanna")
                    \/ (direction_of None = "right_in_left" /\ substring_of "joanna" "ann")).
Proof.
  destruct (cmp_contains_substring (VStr " Ann ") (VStr "Joanna") None None "ann" "joanna"
              eq_refl eq_refl) as (s & d & Hrun & _ & Hone & _).
  exists s, d. split; [exact Hrun | exact Hone].
Defined.


(** ** Tokens *)

Lemma last_app_cons {A : Type} (l : list A) (x : A) (l' : list A) (d : A) :
  last (l ++ x :: l') d = last (x :: l') d.
Proof.
  induction l as [| y l IH]; [reflexivity |].
  rewrite <- IH. cbn [app]. destruct (l ++ x :: l') eqn:Hl; [| reflexivity].
  now destruct l.
Qed.

Lemma last_cons_boundary (c : ascii) (pre : list ascii) :
  is_alnum c = false ->
  is_alnum (last (c :: pre) " "%char) = false <-> is_alnum (last pre " "%char) = false.
Proof.
  intros Hc. destruct pre as [| y pre]; [cbn [last]; split; intros _; [reflexivity | exact Hc] |].
  change (c :: y :: pre) with ([c] ++ y :: pre). now rewrite last_app_cons.
Qed.

Lemma last_In {A : Type} (l : list A) (d : A) : l <> [] -> In (last l d) l.
Proof.
  induction l as [| x l IH]; [congruence |]. intros _.
  destruct l as [| y l]; [now left |]. right. apply IH. discriminate.
Qed.

(** Two readings of one text as a run of letters and digits that ends at a
    boundary agree. *)
Lemma alnum_run_unique (a b : list ascii) (x : ascii) (r post : list ascii) :
  forallb is_alnum a = true -> forallb is_alnum b = true ->
  is_alnum x = false -> is_alnum (hd " "%char post) = false ->
  a ++ x :: r = b ++ post -> a = b.
Proof.
  revert b. induction a as [| c a IH]; intros [| c' b] Ha Hb Hx Hpost Heq; simpl in *.
  - reflexivity.
  - injection Heq as <- _. apply andb_prop in Hb as (Hb & _). congruence.
  - destruct post as [| p post]; [discriminate |]. injection Heq as <- _.
    apply andb_prop in Ha as (Ha & _). simpl in Hpost. congruence.
  - injection Heq as <- Heq. apply andb_prop in Ha as (_ & Ha). apply andb_prop in Hb as (_ & Hb).
    f_equal. now apply IH.
Qed.

Lemma app_eq_split {A : Type} (a : list A) (x : A) (r pre rest : list A) :
  a ++ x :: r = pre ++ rest ->
  (exists pre1, pre = a ++ x :: pre1 /\ r = pre1 ++ rest)
  \/ (exists mid, a = pre ++ mid /\ rest = mid ++ x :: r).
Proof.
  revert pre. induction a as [| c a IH]; intros pre Heq; simpl in *.
  - destruct pre as [| p pre]; simpl in *.
    + right. exists []. auto.
    + injection Heq as <- Heq. left. exists pre. auto.
  - destruct pre as [| p pre]; simpl in *.
    + right. exists (c :: a). auto.
    + injection Heq as <- Heq. destruct (IH _ Heq) as [(pre1 & -> & Hr) | (mid & -> & Hrest)].
      * left. eauto.
      * right. eauto.
Qed.

Lemma split_scan_sound (l cur : list ascii) (in_sep : bool) (p : string) :
  forallb is_alnum cur = true -> (in_sep = true -> cur = []) ->
  In p (split_scan l cur in_sep) ->
  exists pre post,
    rev cur ++ l = pre ++ chars p ++ post
    /\ forallb is_alnum (chars p) = true
    /\ (pre = [] \/ is_alnum (last pre " "%char) = false)
    /\ is_alnum (hd " "%char post) = false.
Proof.
  revert cur in_sep. induction l as [| c l IH]; intros cur in_sep Hcur Hsep Hp; simpl in Hp.
  - destruct Hp as [<- | []]. exists [], []. rewrite chars_string_of_list, !app_nil_r.
    repeat split; auto. rewrite forallb_forall in *. intros x Hx. apply Hcur. now apply in_rev.
  - destruct (is_alnum c) eqn:Hc.
    + apply IH in Hp as (pre & post & Heq & Hrest).
      * exists pre, post. split; [| exact Hrest]. rewrite <- Heq. simpl. now rewrite <- app_assoc.
      * simpl. now rewrite Hc.
      * discriminate.
    + destruct in_sep.
      * rewrite (Hsep eq_refl) in *. apply IH in Hp as (pre & post & Heq & Hal & Hpre & Hpost); auto.
        simpl in Heq. exists (c :: pre), post. simpl. rewrite Heq. repeat split; auto.
        right. destruct Hpre as [-> | Hpre]; [exact Hc | now apply last_cons_boundary].
      * destruct Hp as [<- | Hp].
        -- exists [], (c :: l). rewrite chars_string_of_list. repeat split; auto.
           rewrite forallb_forall in *. intros x Hx. apply Hcur. now apply in_rev.
        -- apply IH in Hp as (pre & post & Heq & Hal & Hpre & Hpost); auto.
           simpl in Heq. exists (rev cur ++ c :: pre), post. rewrite Heq.
           rewrite <- app_assoc. simpl. repeat split; auto. right.
           rewrite last_app_cons.
           destruct Hpre as [-> | Hpre]; [exact Hc | now apply last_cons_boundary].
Qed.

Lemma split_scan_complete (l cur : list ascii) (in_sep : bool) (w pre post : list ascii) :
  forallb is_alnum cur = true -> (in_sep = true -> cur = []) ->
  rev cur ++ l = pre ++ w ++ post ->
  w <> [] -> forallb is_alnum w = true ->
  is_alnum (last pre " "%char) = false -> is_alnum (hd " "%char post) = false ->
  In (string_of_list_ascii w) (split_scan l cur in_sep).
Proof.
  revert cur in_sep pre. induction l as [| c l IH]; intros cur in_sep pre Hcur Hsep Heq Hw Hal Hpre Hpost.
  - rewrite app_nil_r in Heq. simpl. left.
    assert (Hrev : forallb is_alnum (rev cur) = true).
    { rewrite forallb_forall in *. intros x Hx. apply Hcur. now apply in_rev. }
    rewrite Heq in Hrev. rewrite !forallb_app in Hrev.
    apply andb_prop in Hrev as (Hp & Hrev). apply andb_prop in Hrev as (_ & Hq).
    assert (pre = []) as ->.
    { destruct pre as [| x pre]; [reflexivity |].
      rewrite forallb_forall in Hp. rewrite (Hp (last (x :: pre) " "%char)) in Hpre;
        [discriminate | apply last_In; discriminate]. }
    assert (post = []) as ->.
    { destruct post as [| x post]; [reflexivity |]. simpl in Hq, Hpost.
      apply andb_prop in Hq as (Hq & _). congruence. }
    simpl in Heq. rewrite app_nil_r in Heq. now rewrite Heq.
  - simpl. destruct (is_alnum c) eqn:Hc.
    + apply (IH (c :: cur) false pre); auto.
      * simpl. now rewrite Hc.
      * discriminate.
      * simpl. now rewrite <- app_assoc.
    + destruct in_sep.
      * rewrite (Hsep eq_refl) in *. simpl in Heq.
        destruct pre as [| x pre].
        -- destruct w as [| y w]; [congruence |]. simpl in Heq, Hal. injection Heq as <- _.
           apply andb_prop in Hal as (Hal & _). congruence.
        -- simpl in Heq. injection Heq as <- Heq. apply (IH [] true pre); auto.
           now apply (last_cons_boundary c).
      * destruct (app_eq_split _ _ _ _ _ Heq) as [(pre1 & -> & Hl) | (mid & Hcur' & Hrest)].
        -- right. apply (IH [] true pre1); auto.
           rewrite last_app_cons in Hpre. now apply (last_cons_boundary c).
        -- assert (Hrev : forallb is_alnum (rev cur) = true).
           { rewrite forallb_forall in *. intros x Hx. apply Hcur. now apply in_rev. }
           assert (pre = []) as ->.
           { destruct pre as [| x pre]; [reflexivity |].
             rewrite Hcur', forallb_app in Hrev. apply andb_prop in Hrev as (Hp & _).
             rewrite forallb_forall in Hp. rewrite (Hp (last (x :: pre) " "%char)) in Hpre;
               [discriminate | apply last_In; discriminate]. }
           simpl in Heq. left. f_equal.
           now apply (alnum_run_unique (rev cur) w c l post).
Qed.

Lemma tokens_In (s : string) (min_token_len : Z) (t : string) :
  In t (_tokens s min_token_len)
  <-> In t (re_split_non_alnum s) /\ min_token_len <= len t.
Proof.
  unfold _tokens, set_of. rewrite nodup_In, filter_In, Z.geb_leb, Z.leb_le. tauto.
Qed.

(** X11. The tokens of a text are its whole words, the maximal runs of
    ASCII letters and digits, that have at least [min_token_len]
    characters: every token is such a word, every such word that is not
    empty is a token, and no token is listed twice. *)
Theorem tokens_are_the_words (s : string) (min_token_len : Z) :
  NoDup (_tokens s min_token_len)
  /\ (forall t, In t (_tokens s min_token_len) -> word_of t s /\ min_token_len <= len t)
  /\ (forall t, word_of t s -> t <> EmptyString -> min_token_len <= len t ->
                In t (_tokens s min_token_len)).
Proof.
  split; [apply NoDup_nodup |]. split.
  - intros t Ht. apply tokens_In in Ht as (Ht & Hlen). split; [| exact Hlen].
    apply split_scan_sound in Ht as (pre & post & Heq & Hal & Hpre & Hpost);
      [| reflexivity | discriminate].
    exists pre, post. simpl in Heq. repeat split; auto.
    destruct Hpre as [-> | Hpre]; [reflexivity | exact Hpre].
  - intros t (pre & post & Heq & Hal & Hpre & Hpost) Ht Hlen. apply tokens_In.
    split; [| exact Hlen]. rewrite <- (string_of_chars t).
    apply (split_scan_complete (chars s) [] false (chars t) pre post); auto.
    intros Hnil. apply Ht. rewrite <- (string_of_chars t), Hnil. reflexivity.
Qed.

(** ** Jaccard similarity *)

Lemma string_leb_antisym (s t : string) :
  String.leb s t = true -> String.leb t s = true -> s = t.
Proof.
  unfold String.leb. rewrite (String.compare_antisym t s).
  destruct (String.compare s t) eqn:Hst; simpl; try discriminate.
  intros _ _. now apply String.compare_eq_iff.
Qed.

Lemma string_leb_refl (s : string) : String.leb s s = true.
Proof. unfold String.leb. now rewrite string_compare_refl. Qed.

Lemma sorted_str_sorted (l : list string) :
  StronglySorted (fun s s' => String.leb s s' = true) (sorted_str l).
Proof.
  unfold sorted_str.
  eapply StronglySorted_impl; [intros x y Hxy; apply string_ltb_false_leb; exact Hxy |].
  apply sort_by_sorted; [apply string_ltb_asym |].
  unfold before. intros x y z Hxy Hyz. apply string_ltb_false_leb.
  apply string_ltb_false_leb in Hxy, Hyz. eapply string_leb_trans; eauto.
Qed.

Lemma sorted_strings_unique (l l' : list string) :
  StronglySorted (fun s s' => String.leb s s' = true) l ->
  StronglySorted (fun s s' => String.leb s s' = true) l' ->
  Permutation l l' -> l = l'.
Proof.
  intros Hl. revert l'. induction Hl as [| x l Hl IH Hx]; intros l' Hl' Hperm.
  - now apply Permutation_nil in Hperm.
  - destruct Hl' as [| y l' Hl' Hy]; [apply Permutation_sym, Permutation_nil in Hperm; discriminate |].
    assert (Hxy : x = y).
    { assert (Hin1 : In x (y :: l')) by (eapply Permutation_in; [exact Hperm | now left]).
      assert (Hin2 : In y (x :: l))
        by (eapply Permutation_in; [apply Permutation_sym; exact Hperm | now left]).
      destruct Hin1 as [-> | Hin1]; [reflexivity |].
      destruct Hin2 as [-> | Hin2]; [reflexivity |].
      rewrite Forall_forall in Hx, Hy. apply string_leb_antisym; auto. }
    subst y. f_equal. apply IH; [exact Hl' |]. eapply Permutation_cons_inv; eauto.
Qed.

(** [sorted] gives one list for every listing of the same strings. *)
Lemma sorted_str_Permutation (l l' : list string) :
  Permutation l l' -> sorted_str l = sorted_str l'.
Proof.
  intros Hperm. apply sorted_strings_unique; try apply sorted_str_sorted.
  unfold sorted_str. rewrite <- !sort_by_Permutation. exact Hperm.
Qed.

Lemma set_inter_In (x y : list string) (t : string) :
  In t (set_inter x y) <-> In t x /\ In t y.
Proof. unfold set_inter. now rewrite filter_In, str_mem_In. Qed.

Lemma set_union_In (x y : list string) (t : string) :
  In t (set_union x y) <-> In t x \/ In t y.
Proof. unfold set_union, set_of. now rewrite nodup_In, in_app_iff. Qed.

Lemma set_inter_NoDup (x y : list string) : NoDup x -> NoDup (set_inter x y).
Proof. apply NoDup_filter. Qed.

Lemma set_union_NoDup (x y : list string) : NoDup (set_union x y).
Proof. apply NoDup_nodup. Qed.

Lemma set_inter_comm (x y : list string) :
  NoDup x -> NoDup y -> Permutation (set_inter x y) (set_inter y x).
Proof.
  intros Hx Hy. apply NoDup_Permutation; try now apply set_inter_NoDup.
  intros t. rewrite !set_inter_In. tauto.
Qed.

Lemma set_union_comm (x y : list string) : Permutation (set_union x y) (set_union y x).
Proof.
  apply NoDup_Permutation; try apply set_union_NoDup.
  intros t. rewrite !set_union_In. tauto.
Qed.

Lemma tokens_NoDup (s : string) (n : Z) : NoDup (_tokens s n).
Proof. apply NoDup_nodup. Qed.

Lemma is_empty_nil {A : Type} (l : list A) : is_empty l = true <-> l = [].
Proof. destruct l; simpl; split; congruence. Qed.

Lemma inject_Z_div_one (x y : Z) :
  0 < y -> (inject_Z x / inject_Z y == 1)%Q <-> x = y.
Proof.
  intros Hy. unfold Qeq, Qdiv, Qmult, Qinv, inject_Z. cbn [Qnum Qden].
  destruct y as [| p | p]; try lia. cbn [Qnum Qden]. split; intros Hxy; [| subst x]; lia.
Qed.

Lemma inject_Z_div_zero (x y : Z) :
  0 < y -> (inject_Z x / inject_Z y == 0)%Q <-> x = 0.
Proof.
  intros Hy. unfold Qeq, Qdiv, Qmult, Qinv, inject_Z. cbn [Qnum Qden].
  destruct y as [| p | p]; try lia. cbn [Qnum Qden]. split; intros Hxy; [| subst x]; lia.
Qed.

(** Why the converses of X12 are stated up to [2 ** 53] tokens: the
    quotient of two larger counts can round to 1.0. *)
Lemma large_quotient_rounds_to_one :
  (fdiv (inject_Z (2 ^ 54 - 1)) (inject_Z (2 ^ 54)) == 1)%Q.
Proof. vm_compute. reflexivity. Qed.

Section JaccardLaws.

Context `{PyLib}.

(** X12. With both values present and an int [min_token_len],
    [cmp_jaccard] returns the same score and details whichever value is
    left and whichever is right.  The score is 1.0 when the two texts have
    the same tokens and at least one, and 0.0 when they share no token:
    order, repetition and punctuation of the words do not count.  For texts
    with no more than [2 ** 53] tokens together the converses hold: the
    score is 1.0 only for equal token sets and 0.0 only for disjoint ones
    (beyond that size the quotient of the two counts could round to them). *)
Theorem cmp_jaccard_token_sets (left right : Value) (context context' : option Context)
  (params : option (PyDict Value)) (min_token_len : Z) (li ri : string) :
  py_int (get_value_or (params_or_empty params) "min_token_len" (VInt 2)) = Ok min_token_len ->
  _normalize_text left (case_flag params) true = Some li ->
  _normalize_text right (case_flag params) true = Some ri ->
  cmp_jaccard left right context params = cmp_jaccard right left context' params
  /\ exists s d,
       cmp_jaccard left right context params = Ok (s, d)
       /\ (_tokens li min_token_len <> []
           /\ (forall t, In t (_tokens li min_token_len) <-> In t (_tokens ri min_token_len)) ->
           (s == 1)%Q)
       /\ ((forall t, In t (_tokens li min_token_len) -> ~ In t (_tokens ri min_token_len)) ->
           (s == 0)%Q)
       /\ (Z.of_nat (List.length (_tokens li min_token_len)
                     + List.length (_tokens ri min_token_len)) <= 2 ^ 53 ->
           ((s == 1)%Q ->
            _tokens li min_token_len <> []
            /\ forall t, In t (_tokens li min_token_len) <-> In t (_tokens ri min_token_len))
           /\ ((s == 0)%Q ->
               forall t, In t (_tokens li min_token_len) -> ~ In t (_tokens ri min_token_len))).
Proof.
  unfold cmp_jaccard, case_flag. intros -> -> ->. cbn [bind].
  set (lt := _tokens li min_token_len). set (rt := _tokens ri min_token_len).
  assert (Hlt : NoDup lt) by apply tokens_NoDup.
  assert (Hrt : NoDup rt) by apply tokens_NoDup.
  split.
  - rewrite (andb_comm (is_empty rt)).
    destruct (is_empty lt && is_empty rt); [reflexivity |].
    rewrite (Permutation_length (set_inter_comm rt lt Hrt Hlt)),
            (Permutation_length (set_union_comm rt lt)),
            (sorted_str_Permutation _ _ (set_inter_comm rt lt Hrt Hlt)).
    reflexivity.
  - destruct (is_empty lt && is_empty rt) eqn:He.
    + apply andb_prop in He as (Hl & Hr). apply is_empty_nil in Hl, Hr.
      do 2 eexists. split; [reflexivity |]. rewrite Hl, Hr.
      split; [intros (Hne & _); congruence |].
      split; [reflexivity |]. intros _.
      split; [discriminate | intros _ t []].
    + destruct (set_sizes lt rt Hlt He) as (Hle & Hpos).
      rewrite py_div_pos by (unfold Qlt; simpl; lia). cbn [bind].
      do 2 eexists. split; [reflexivity |].
      set (i := Z.of_nat (List.length (set_inter lt rt))) in *.
      set (u := Z.of_nat (List.length (set_union lt rt))) in *.
      assert (Hsame : i = u <-> lt <> [] /\ forall t, In t lt <-> In t rt).
      { unfold i, u. rewrite Nat2Z.inj_iff. split.
        - intros Hlen.
          assert (Hil : incl (set_inter lt rt) lt)
            by (intros t Ht; now apply set_inter_In in Ht).
          assert (Hlu : incl lt (set_union lt rt))
            by (intros t Ht; apply set_union_In; now left).
          assert (Hlen1 : (List.length (set_inter lt rt) <= List.length lt)%nat)
            by (apply NoDup_incl_length; [now apply set_inter_NoDup | exact Hil]).
          assert (Hlen2 : (List.length lt <= List.length (set_union lt rt))%nat)
            by (apply NoDup_incl_length; assumption).
          assert (Hli : incl lt (set_inter lt rt)).
          { apply NoDup_length_incl; [now apply set_inter_NoDup | lia | exact Hil]. }
          assert (Hul : incl (set_union lt rt) lt).
          { apply NoDup_length_incl; [exact Hlt | lia | exact Hlu]. }
          split.
          + intros Hnil.
            assert (Hzero : List.length lt = 0%nat) by (rewrite Hnil; reflexivity).
            unfold u in Hpos. lia.
          + intros t. split; intros Ht.
            * now apply Hli, set_inter_In in Ht.
            * apply Hul, set_union_In. now right.
        - intros (_ & Hsame). apply Permutation_length, NoDup_Permutation;
            [now apply set_inter_NoDup | apply set_union_NoDup |].
          intros t. rewrite set_inter_In, set_union_In, <- Hsame. tauto. }
      assert (Hdisjoint : i = 0 <-> forall t, In t lt -> ~ In t rt).
      { unfold i. split.
        - intros Hlen t Hl Hr.
          assert (Hin : In t (set_inter lt rt)) by now apply set_inter_In.
          destruct (set_inter lt rt); [destruct Hin | discriminate].
        - intros Hdis. destruct (set_inter lt rt) as [| t l] eqn:Hi; [reflexivity |].
          assert (Hin : In t (set_inter lt rt)) by (rewrite Hi; now left).
          apply set_inter_In in Hin as (Hl & Hr). now destruct (Hdis t Hl). }
      assert (Hone : i = u -> (fdiv (inject_Z i) (inject_Z u) == 1)%Q).
      { intros ->. unfold fdiv.
        assert (Hq : (inject_Z u / inject_Z u == 1)%Q) by (now apply inject_Z_div_one).
        now rewrite (rnd_comp _ _ Hq). }
      assert (Hzero : i = 0 -> (fdiv (inject_Z i) (inject_Z u) == 0)%Q).
      { intros ->. unfold fdiv.
        assert (Hq : (inject_Z 0 / inject_Z u == 0)%Q) by (now apply inject_Z_div_zero).
        now rewrite (rnd_comp _ _ Hq). }
      split; [intros Hs; apply Hone, Hsame, Hs |].
      split; [intros Hs; apply Hzero, Hdisjoint, Hs |].
      intros Hsize.
      assert (Hu : u <= 2 ^ 53).
      { assert (Hlen : (List.length (set_union lt rt) <= List.length (lt ++ rt))%nat).
        { apply NoDup_incl_length; [apply set_union_NoDup |].
          intros t Ht. apply set_union_In in Ht. now apply in_app_iff. }
        rewrite length_app in Hlen. unfold u. lia. }
      assert (Hstrict : 0 < i < u -> (0 < fdiv (inject_Z i) (inject_Z u) < 1)%Q)
        by (intros Hi; now apply rnd_ratio_strict).
      split.
      * intros Hs. apply Hsame.
        destruct (Z.eq_dec i u) as [Heq | Hne]; [exact Heq | exfalso].
        destruct (Z.eq_dec i 0) as [Hi0 | Hi0].
        -- rewrite (Hzero Hi0) in Hs. discriminate.
        -- destruct Hstrict as (_ & Hlt1); [lia |]. rewrite Hs in Hlt1. discriminate.
      * intros Hs. apply Hdisjoint.
        destruct (Z.eq_dec i 0) as [Hi0 | Hi0]; [exact Hi0 | exfalso].
        destruct (Z.eq_dec i u) as [Heq | Hne].
        -- rewrite (Hone Heq) in Hs. discriminate.
        -- destruct Hstrict as (Hgt0 & _); [lia |]. rewrite Hs in Hgt0. discriminate.
Qed.

End JaccardLaws.

Lemma cmp_jaccard_token_sets_witness :
  cmp_jaccard (VStr "Smith, John") (VStr "john SMITH") None None
  = cmp_jaccard (VStr "john SMITH") (VStr "Smith, John") None None
  /\ exists s d,
       cmp_jaccard (VStr "Smith, John") (VStr "john SMITH") None None = Ok (s, d)
       /\ (s == 1)%Q.
Proof.
  destruct (cmp_jaccard_token_sets (VStr "Smith, John") (VStr "john SMITH") None None None 2
              "smith, john" "john smith" eq_refl eq_refl eq_refl)
    as (Hsym & s & d & Hrun & Hone & _).
  split; [exact Hsym |]. exists s, d. split; [exact Hrun |]. apply Hone.
  split; [discriminate |]. intros t. vm_compute. tauto.
Defined.

(** ** Distances *)

Lemma py_abs_comp (x y : Q) : (x == y)%Q -> (py_abs x == py_abs y)%Q.
Proof.
  intros Hxy. unfold py_abs.
  destruct (Qle_bool 0 x) eqn:Hx; destruct (Qle_bool 0 y) eqn:Hy; try lra.
  - apply Qle_bool_iff in Hx.
    assert (~ (0 <= y)%Q) by (intros Hle; apply Qle_bool_iff in Hle; congruence). lra.
  - apply Qle_bool_iff in Hy.
    assert (~ (0 <= x)%Q) by (intros Hle; apply Qle_bool_iff in Hle; congruence). lra.
Qed.

Lemma py_abs_opp (x : Q) : (py_abs (- x) == py_abs x)%Q.
Proof.
  unfold py_abs.
  destruct (Qle_bool 0 (- x)) eqn:Hn; destruct (Qle_bool 0 x) eqn:Hx; try lra.
  - apply Qle_bool_iff in Hn, Hx. lra.
  - assert (~ (0 <= x)%Q) by (intros Hle; apply Qle_bool_iff in Hle; congruence).
    assert (~ (0 <= - x)%Q) by (intros Hle; apply Qle_bool_iff in Hle; congruence). lra.
Qed.

Lemma py_abs_le (x : Q) : (x <= py_abs x)%Q /\ (- x <= py_abs x)%Q.
Proof.
  unfold py_abs. destruct (Qle_bool 0 x) eqn:Hx.
  - apply Qle_bool_iff in Hx. lra.
  - assert (~ (0 <= x)%Q) by (intros Hle; apply Qle_bool_iff in Hle; congruence). lra.
Qed.

Lemma py_abs_cases (x : Q) : (py_abs x == x)%Q \/ (py_abs x == - x)%Q.
Proof. unfold py_abs. destruct (Qle_bool 0 x); [left | right]; reflexivity. Qed.

(** [abs] of a rounded number is the rounded [abs]. *)
Lemma py_abs_rnd (x : Q) : (py_abs (rnd x) == rnd (py_abs x))%Q.
Proof.
  unfold py_abs at 2. destruct (Qle_bool 0 x) eqn:Hx.
  - apply Qle_bool_iff in Hx. pose proof (rnd_nonneg x Hx) as Hr.
    unfold py_abs. apply Qle_bool_iff in Hr. now rewrite Hr.
  - assert (Hneg : (x <= 0)%Q).
    { apply Qlt_le_weak, Qnot_le_lt. intros Hle. apply Qle_bool_iff in Hle. congruence. }
    pose proof (rnd_nonpos x Hneg) as Hr. rewrite rnd_opp.
    destruct (py_abs_cases (rnd x)) as [He | He]; [| exact He].
    pose proof (py_abs_nonneg (rnd x)). lra.
Qed.

(** The distance the comparator computes does not depend on the order. *)
Lemma py_abs_fsub_sym (x y : Q) : (py_abs (fsub x y) == py_abs (fsub y x))%Q.
Proof.
  unfold fsub.
  assert (He : (y - x == - (x - y))%Q) by ring.
  rewrite (rnd_comp _ _ He), (py_abs_comp _ _ (rnd_opp (x - y))).
  symmetry. apply py_abs_opp.
Qed.

Lemma py_max_0_mono (x y : Q) : (x <= y)%Q -> (py_max 0 x <= py_max 0 y)%Q.
Proof.
  intros Hxy. unfold py_max.
  destruct (Qgtb x 0) eqn:Hx; destruct (Qgtb y 0) eqn:Hy;
    try apply Qgtb_lt in Hx; try apply Qgtb_lt in Hy;
    try apply Qgtb_false_le in Hx; try apply Qgtb_false_le in Hy; lra.
Qed.

(** The score [max(0.0, 1.0 - distance / scale)] of the two distance
    comparators, every step rounded: 1.0 at distance 0, 0.0 from the scale
    on, and never higher for a longer distance *)
Lemma distance_score (distance scale : Q) :
  (0 < scale)%Q ->
  ((distance == 0)%Q -> (py_max 0 (fsub 1 (fdiv distance scale)) == 1)%Q)
  /\ ((scale <= distance)%Q -> (py_max 0 (fsub 1 (fdiv distance scale)) == 0)%Q).
Proof.
  intros Hs. unfold fsub, fdiv. split.
  - intros Hd.
    assert (Hq : (distance / scale == 0)%Q) by (rewrite Hd; field; lra).
    rewrite (rnd_zero _ Hq).
    assert (He : (1 - 0 == 1)%Q) by ring.
    rewrite (rnd_comp _ _ He). reflexivity.
  - intros Hd.
    assert (Hq : (1 <= rnd (distance / scale))%Q).
    { apply rnd_ge_1. apply Qle_shift_div_l; lra. }
    assert (Hr : (rnd (1 - rnd (distance / scale)) <= 0)%Q) by (apply rnd_nonpos; lra).
    unfold py_max. apply Qgtb_false_le in Hr. now rewrite Hr.
Qed.

Lemma distance_score_mono (d d' scale : Q) :
  (0 < scale)%Q -> (d <= d')%Q ->
  (py_max 0 (fsub 1 (fdiv d' scale)) <= py_max 0 (fsub 1 (fdiv d scale)))%Q.
Proof.
  intros Hs Hd. apply py_max_0_mono. unfold fsub, fdiv. apply rnd_mono.
  assert (Hq : (rnd (d / scale) <= rnd (d' / scale))%Q).
  { apply rnd_mono. apply Qmult_le_compat_r; [exact Hd |].
    apply Qlt_le_weak, Qinv_lt_0_compat, Hs. }
  lra.
Qed.

(** A proper quotient of two ints up to [2 ** 53] scores strictly between
    0.0 and 1.0. *)
Lemma distance_score_inside (days max_days : Z) :
  0 < days < max_days -> max_days <= 2 ^ 53 ->
  (0 < py_max 0 (fsub 1 (fdiv (inject_Z days) (inject_Z max_days))) < 1)%Q.
Proof.
  intros Hd Hm. unfold fsub, fdiv.
  destruct (rnd_ratio_inside days max_days Hd Hm) as (Hlo & Hhi).
  pose proof (two_pos (-53)) as Hp.
  assert (Hlo' : (2 ^ (-53) <= rnd (1 - rnd (inject_Z days / inject_Z max_days)))%Q)
    by (apply rnd_ge_ulp; lra).
  assert (Hhi' : (rnd (1 - rnd (inject_Z days / inject_Z max_days)) <= 1 - 2 ^ (-53))%Q)
    by (apply rnd_below_1; lra).
  unfold py_max.
  assert (Hgt : Qgtb (rnd (1 - rnd (inject_Z days / inject_Z max_days))) 0 = true)
    by (apply Qgtb_lt; lra).
  rewrite Hgt. lra.
Qed.

Section DistanceLaws.

Context `{PyLib}.

(** X13. With a positive [max_distance] and two values that convert to
    finite floats, [cmp_numeric_distance] scores the pair the same in both
    orders, with a score in [0,1]: 1.0 when the two floats are equal, 0.0
    when their distance as computed ([abs(lf - rf)], rounded) reaches
    [max_distance], and never more for a pair that lies farther apart.
    A score of 1.0 does not tell that the values are equal: ints that
    convert to the same float, and distances that vanish against
    [max_distance] in rounding, score 1.0 as well. *)
Theorem cmp_numeric_distance_scale (left right : Value) (context context' : option Context)
  (params : option (PyDict Value)) (max_distance lf rf : Q) :
  py_float (get_value_or (params_or_empty params) "max_distance" (VFloat 1)) = Ok max_distance ->
  (0 < max_distance)%Q ->
  _safe_float left = Some lf -> _safe_float right = Some rf ->
  exists s d s' d',
    cmp_numeric_distance left right context params = Ok (s, d)
    /\ cmp_numeric_distance right left context' params = Ok (s', d')
    /\ (s == s')%Q
    /\ (0 <= s <= 1)%Q
    /\ ((lf == rf)%Q -> (s == 1)%Q)
    /\ ((max_distance <= py_abs (fsub lf rf))%Q -> (s == 0)%Q)
    /\ (forall left2 right2 lf2 rf2 s2 d2,
          _safe_float left2 = Some lf2 -> _safe_float right2 = Some rf2 ->
          cmp_numeric_distance left2 right2 context params = Ok (s2, d2) ->
          (py_abs (lf - rf) <= py_abs (lf2 - rf2))%Q -> (s2 <= s)%Q).
Proof.
  intros Hmd Hpos Hl Hr. unfold cmp_numeric_distance. rewrite Hmd, Hl, Hr. cbn [bind].
  rewrite !py_div_pos by exact Hpos. cbn [bind]. do 4 eexists.
  split; [reflexivity |]. split; [reflexivity |].
  destruct (distance_score (py_abs (fsub lf rf)) max_distance Hpos) as (Hone & Hzero).
  split; [| split; [| split; [| split]]].
  - unfold fdiv.
    assert (He : (py_abs (fsub lf rf) / max_distance == py_abs (fsub rf lf) / max_distance)%Q)
      by now rewrite (py_abs_fsub_sym lf rf).
    rewrite (rnd_comp _ _ He). reflexivity.
  - apply distance_score_bounds. apply fdiv_nonneg; [apply py_abs_nonneg | exact Hpos].
  - intros Heq. apply Hone. unfold fsub.
    assert (Hz : (lf - rf == 0)%Q) by lra. rewrite (rnd_zero _ Hz). reflexivity.
  - exact Hzero.
  - intros left2 right2 lf2 rf2 s2 d2 Hl2 Hr2 Hrun2 Hfar.
    rewrite Hl2, Hr2 in Hrun2. cbn [bind] in Hrun2.
    rewrite py_div_pos in Hrun2 by exact Hpos. cbn [bind] in Hrun2.
    injection Hrun2 as <- _.
    apply distance_score_mono; [exact Hpos |].
    unfold fsub. rewrite !py_abs_rnd. now apply rnd_mono.
Qed.

(** X14. With a positive [max_days] and two values read as dates,
    [cmp_date_distance_days] scores the pair the same in both orders, with a
    score in [0,1]: 1.0 for the same day and 0.0 from [max_days] days apart
    on.  For a [max_days] up to [2 ** 53] the converses hold, so the score
    is 1.0 exactly for the same day and 0.0 exactly from [max_days] days
    on; under the default [max_days] of 1 the comparator is all or nothing.
    (A larger [max_days] can round [1 - days / max_days] to 1.0 for
    different days.) *)
Theorem cmp_date_distance_days_scale (left right : Value) (context context' : option Context)
  (params : option (PyDict Value)) (max_days ld rd : Z) :
  py_int (get_value_or (params_or_empty params) "max_days" (VInt 1)) = Ok max_days ->
  0 < max_days ->
  _parse_date left = Some ld -> _parse_date right = Some rd ->
  exists s d,
    cmp_date_distance_days left right context params = Ok (s, d)
    /\ cmp_date_distance_days right left context' params = Ok (s, d)
    /\ (0 <= s <= 1)%Q
    /\ (ld = rd -> (s == 1)%Q)
    /\ (max_days <= Z.abs (ld - rd) -> (s == 0)%Q)
    /\ (max_days <= 2 ^ 53 ->
        ((s == 1)%Q -> ld = rd) /\ ((s == 0)%Q -> max_days <= Z.abs (ld - rd)))
    /\ (max_days = 1 -> ((s == 1)%Q /\ ld = rd) \/ ((s == 0)%Q /\ ld <> rd)).
Proof.
  intros Hmd Hpos Hl Hr. unfold cmp_date_distance_days. rewrite Hmd, Hl, Hr. cbn [bind].
  assert (Hposq : (0 < inject_Z max_days)%Q) by (unfold Qlt; simpl; lia).
  rewrite !py_div_pos by exact Hposq. cbn [bind].
  replace (Z.abs (rd - ld)) with (Z.abs (ld - rd)) by lia.
  do 2 eexists. split; [reflexivity |]. split; [reflexivity |].
  set (days := Z.abs (ld - rd)).
  assert (Hnn : (0 <= inject_Z days)%Q) by (apply inject_Z_nonneg; unfold days; lia).
  destruct (distance_score (inject_Z days) (inject_Z max_days) Hposq) as (Hone & Hzero).
  set (s := py_max 0 (fsub 1 (fdiv (inject_Z days) (inject_Z max_days)))) in *.
  assert (Hsame : ld = rd -> (s == 1)%Q).
  { intros Heq. apply Hone. replace days with 0 by (unfold days; lia). reflexivity. }
  assert (Hfar : max_days <= days -> (s == 0)%Q).
  { intros Hle. apply Hzero. now rewrite <- Zle_Qle. }
  assert (Hconv : max_days <= 2 ^ 53 ->
                  ((s == 1)%Q -> ld = rd) /\ ((s == 0)%Q -> max_days <= days)).
  { intros Hsmall.
    assert (Hin : 0 < days < max_days -> (0 < s < 1)%Q)
      by (intros Hd; now apply distance_score_inside).
    split; intros Hs.
    - destruct (Z.eq_dec ld rd) as [Heq | Hne]; [exact Heq | exfalso].
      destruct (Z_lt_le_dec days max_days) as [Hlt | Hge].
      + destruct Hin as (_ & Hlt1); [unfold days in *; lia |]. rewrite Hs in Hlt1. discriminate.
      + rewrite (Hfar Hge) in Hs. discriminate.
    - destruct (Z_lt_le_dec days max_days) as [Hlt | Hge]; [exfalso | exact Hge].
      destruct (Z.eq_dec ld rd) as [Heq | Hne].
      + rewrite (Hsame Heq) in Hs. discriminate.
      + destruct Hin as (Hgt0 & _); [unfold days in *; lia |]. rewrite Hs in Hgt0. discriminate. }
  split; [| split; [exact Hsame | split; [exact Hfar | split; [exact Hconv |]]]].
  - apply distance_score_bounds. apply fdiv_nonneg; assumption.
  - intros ->. destruct (Z.eq_dec ld rd) as [Heq | Hne].
    + left. split; [now apply Hsame | exact Heq].
    + right. split; [apply Hfar; unfold days; lia | exact Hne].
Qed.

End DistanceLaws.

Lemma cmp_numeric_distance_scale_witness :
  exists s d s' d',
    cmp_numeric_distance (VStr " 7 ") (VInt 9) None (Some [("max_distance", VInt 4)]) = Ok (s, d)
    /\ cmp_numeric_distance (VInt 9) (VStr " 7 ") None (Some [("max_distance", VInt 4)])
       = Ok (s', d')
    /\ (s == s')%Q
    /\ (s == 1 # 2)%Q.
Proof.
  assert (Hl : _safe_float (VStr " 7 ") = Some 7%Q) by (vm_compute; reflexivity).
  assert (Hr : _safe_float (VInt 9) = Some 9%Q) by (vm_compute; reflexivity).
  assert (Hm : py_float (get_value_or (params_or_empty (Some [("max_distance", VInt 4)]))
                           "max_distance" (VFloat 1)) = Ok 4%Q) by (vm_compute; reflexivity).
  destruct (cmp_numeric_distance_scale (VStr " 7 ") (VInt 9) None None
              (Some [("max_distance", VInt 4)]) 4 7 9 Hm eq_refl Hl Hr)
    as (s & d & s' & d' & Hrun & Hrun' & Hsym & _).
  exists s, d, s', d'. split; [exact Hrun |]. split; [exact Hrun' |]. split; [exact Hsym |].
  vm_compute in Hrun. injection Hrun as <- _. reflexivity.
Defined.

(** Two ints that convert to the same float, and a distance that vanishes
    against [max_distance], score 1.0. *)
Lemma cmp_numeric_distance_rounds :
  (exists d, cmp_numeric_distance (VInt (2 ^ 53)) (VInt (2 ^ 53 + 1)) None None = Ok (1%Q, d))
  /\ (exists d, cmp_numeric_distance (VInt 0) (VInt 1) None
                  (Some [("max_distance", VInt (10 ^ 17))]) = Ok (1%Q, d)).
Proof. split; eexists; vm_compute; reflexivity. Qed.

Lemma cmp_date_distance_days_scale_witness :
  exists s d,
    @cmp_date_distance_days IsoDateLib (VStr "2024-02-29") (VStr " 2024-03-01 ") None None
    = Ok (s, d)
    /\ (s == 0)%Q
    /\ @_parse_date IsoDateLib (VStr "2024-02-29") = Some 738945
    /\ @_parse_date IsoDateLib (VStr " 2024-03-01 ") = Some 738946.
Proof.
  destruct (@cmp_date_distance_days_scale IsoDateLib (VStr "2024-02-29") (VStr " 2024-03-01 ")
              None None None 1 738945 738946 eq_refl eq_refl eq_refl eq_refl)
    as (s & d & Hrun & _ & _ & _ & Hzero & _).
  exists s, d. split; [exact Hrun |]. split; [apply Hzero; reflexivity |].
  split; reflexivity.
Defined.

(** With a [max_days] beyond [2 ** 53], different days can score 1.0. *)
Lemma cmp_date_distance_days_rounds :
  exists d,
    @cmp_date_distance_days IsoDateLib (VStr "2024-02-29") (VStr "2024-03-01") None
      (Some [("max_days", VInt (10 ^ 17))]) = Ok (1%Q, d).
Proof. eexists. vm_compute. reflexivity. Qed.

(** ** Deciding validity *)

Lemma Qle_dec (x y : Q) : {(x <= y)%Q} + {~ (x <= y)%Q}.
Proof.
  destruct (Qle_bool x y) eqn:Hle; [left; now apply Qle_bool_iff | right].
  intros Hxy. apply Qle_bool_iff in Hxy. congruence.
Qed.

Lemma valid_binding_dec (fc : FieldComparatorConfig) : {valid_binding fc} + {~ valid_binding fc}.
Proof.
  unfold valid_binding. destruct (Qle_dec 0 (weight fc)) as [Hw | Hw]; [| right; tauto].
  destruct (threshold fc) as [t |]; [| left; tauto].
  destruct (Qle_dec 0 t) as [H0 | H0]; [| right; tauto].
  destruct (Qle_dec t 1) as [H1 | H1]; [left; tauto | right; tauto].
Qed.

Lemma Forall_valid_binding_dec (fcs : list FieldComparatorConfig) :
  {Forall valid_binding fcs} + {~ Forall valid_binding fcs}.
Proof. apply Forall_dec, valid_binding_dec. Qed.

Lemma valid_rule_dec (r : Rule) : {valid_rule r} + {~ valid_rule r}.
Proof.
  unfold valid_rule.
  destruct (Qle_dec 0 (match_threshold r)) as [H0 | H0]; [| right; tauto].
  destruct (Qle_dec (match_threshold r) 1) as [H1 | H1]; [| right; tauto].
  destruct (Forall_valid_binding_dec (fields r)) as [Hall | Hall]; [| right; tauto].
  destruct (fields r) as [| fc fcs] eqn:Hf; [right; intros (_ & _ & Hne & _); congruence |].
  destruct (Qlt_le_dec 0 (py_sum (map weight (fc :: fcs)))) as [Hpos | Hneg].
  - left. repeat split; auto. discriminate.
  - right. intros (_ & _ & _ & Hpos). lra.
Qed.

(** ** Validation of rules *)

Lemma FieldComparatorConfig_new_valid (c : FieldComparatorConfig) :
  (valid_binding c -> FieldComparatorConfig_new c = Ok c)
  /\ (~ valid_binding c -> exists msg, FieldComparatorConfig_new c = Raise (ValueError msg)).
Proof.
  unfold FieldComparatorConfig_new, valid_binding, _validate_weight, _validate_threshold, Qgeb.
  destruct (Qle_bool 0 (weight c)) eqn:Hw; cbn [bind].
  - apply Qle_bool_iff in Hw. destruct (threshold c) as [t |]; [| split; [reflexivity | tauto]].
    destruct (Qle_bool 0 t) eqn:H0; destruct (Qle_bool t 1) eqn:H1; cbn [andb negb bind];
      try (apply Qle_bool_iff in H0); try (apply Qle_bool_iff in H1).
    + split; [reflexivity | tauto].
    + split; [| eauto]. intros (_ & _ & Ht). apply Qle_bool_iff in Ht. congruence.
    + split; [| eauto]. intros (_ & Ht & _). apply Qle_bool_iff in Ht. congruence.
    + split; [| eauto]. intros (_ & Ht & _). apply Qle_bool_iff in Ht. congruence.
  - split; [| eauto]. intros (Hw' & _). apply Qle_bool_iff in Hw'. congruence.
Qed.

Lemma for_each_bindings_valid (fcs : list FieldComparatorConfig) :
  (Forall valid_binding fcs -> for_each FieldComparatorConfig_new fcs = Ok fcs)
  /\ (~ Forall valid_binding fcs ->
      exists msg, for_each FieldComparatorConfig_new fcs = Raise (ValueError msg)).
Proof.
  induction fcs as [| fc fcs (IHok & IHbad)]; simpl.
  - split; [reflexivity | intros Hn; destruct Hn; constructor].
  - destruct (FieldComparatorConfig_new_valid fc) as (Hok & Hbad). split.
    + intros Hall. inversion Hall as [| ? ? Hfc Hrest]; subst.
      rewrite (Hok Hfc). cbn [bind]. now rewrite (IHok Hrest).
    + intros Hn. destruct (FieldComparatorConfig_new fc) as [c |] eqn:Hnew.
      * cbn [bind].
        assert (Hfc : valid_binding fc).
        { destruct (valid_binding_dec fc) as [Hv | Hv]; [exact Hv |].
          destruct (Hbad Hv) as (msg & Hmsg). congruence. }
        destruct IHbad as (msg & ->); [| cbn [bind]; eauto].
        intros Hrest. apply Hn. now constructor.
      * destruct (valid_binding_dec fc) as [Hv | Hv].
        -- discriminate (Hok Hv).
        -- destruct (Hbad Hv) as (msg & Hmsg). injection Hmsg as ->.
           cbn [bind]. eauto.
Qed.

(** X15. [Rule(...)] accepts exactly the rules with a [match_threshold] in
    [0, 1], at least one binding, no negative weight, every threshold in
    [0, 1] and a positive sum of weights; it returns them unchanged, and
    refuses every other rule with a [ValueError].  A rule without bindings,
    or with all weights 0, is therefore never built. *)
Theorem Rule_new_accepts_valid_rules (r : Rule) :
  (valid_rule r -> Rule_new r = Ok r)
  /\ (~ valid_rule r -> exists msg, Rule_new r = Raise (ValueError msg))
  /\ (forall r', Rule_new r = Ok r' -> r' = r /\ valid_rule r).
Proof.
  assert (Hchar : (valid_rule r -> Rule_new r = Ok r)
                  /\ (~ valid_rule r -> exists msg, Rule_new r = Raise (ValueError msg))).
  { unfold Rule_new, valid_rule, _validate_match_threshold, _validate_fields_non_empty, Qgeb.
    destruct (for_each_bindings_valid (fields r)) as (Hok & Hbad).
    destruct (Qle_bool 0 (match_threshold r)) eqn:H0;
      destruct (Qle_bool (match_threshold r) 1) eqn:H1; cbn [andb bind];
      try (apply Qle_bool_iff in H0); try (apply Qle_bool_iff in H1).
    2-4: split; [| eauto]; intros ((Ha & Hb) & _);
         try (apply Qle_bool_iff in Ha); try (apply Qle_bool_iff in Hb); congruence.
    destruct (Forall_valid_binding_dec (fields r)) as [Hall | Hall].
    - rewrite (Hok Hall). cbn [bind]. destruct (fields r) as [| fc fcs] eqn:Hf.
      + cbn [bind]. split; [| eauto]. intros (_ & _ & Hne & _). congruence.
      + destruct (Qle_bool (py_sum (map weight (fc :: fcs))) 0) eqn:Hs; cbn [bind].
        * apply Qle_bool_iff in Hs. split; [| eauto]. intros (_ & _ & _ & Hpos). lra.
        * split; [reflexivity |]. intros Hn. exfalso. apply Hn. repeat split; auto.
          -- discriminate.
          -- apply Qnot_le_lt. intros Hle. apply Qle_bool_iff in Hle. congruence.
    - destruct (Hbad Hall) as (msg & ->). cbn [bind]. split; [| eauto].
      intros (_ & Hall' & _). contradiction. }
  destruct Hchar as (Hok & Hbad). split; [exact Hok |]. split; [exact Hbad |].
  intros r' Hnew. destruct (valid_rule_dec r) as [Hv | Hv].
  - rewrite (Hok Hv) in Hnew. injection Hnew as <-. auto.
  - destruct (Hbad Hv) as (msg & Hmsg). congruence.
Qed.

(** ** Sorting the rules of a set *)

Section SortStable.

Context {A : Type} (lt : A -> A -> bool).

Lemma sort_by_sorted_id (l : list A) : StronglySorted (before lt) l -> sort_by lt l = l.
Proof.
  induction 1 as [| x l Hl IH Hx]; [reflexivity |].
  simpl. fold (sort_by lt l). rewrite IH. destruct l as [| y l]; [reflexivity |].
  simpl. inversion Hx as [| ? ? Hxy _]; subst. unfold before in Hxy. now rewrite Hxy.
Qed.

Lemma insert_by_filter (P : A -> bool) (x : A) (l : list A) :
  (forall y, lt y x = true -> P x = true -> P y = false) ->
  filter P (insert_by lt x l) = filter P (x :: l).
Proof.
  intros Hkey. induction l as [| y l IH]; [reflexivity |].
  cbn [insert_by]. destruct (lt y x) eqn:Hyx; [| reflexivity].
  cbn [filter] in *. rewrite IH. destruct (P x) eqn:Hx; [| reflexivity].
  now rewrite (Hkey y Hyx eq_refl).
Qed.

Lemma sort_by_filter (P : A -> bool) (l : list A) :
  (forall x y, lt y x = true -> P x = true -> P y = false) ->
  filter P (sort_by lt l) = filter P l.
Proof.
  intros Hkey. induction l as [| x l IH]; [reflexivity |].
  simpl. fold (sort_by lt l). rewrite insert_by_filter by (apply Hkey).
  cbn [filter]. now rewrite IH.
Qed.

End SortStable.

Lemma rule_key_ltb_irrefl_key (r r' : Rule) :
  rule_key_ltb r' r = true ->
  (priority r =? priority r') && String.eqb (name r) (name r') = false.
Proof.
  unfold rule_key_ltb. intros Hlt.
  destruct (priority r =? priority r') eqn:Hp; [| reflexivity].
  apply Z.eqb_eq in Hp. rewrite Hp, Z.eqb_refl in Hlt. cbn [negb] in Hlt.
  destruct (String.eqb (name r) (name r')) eqn:Hn; [| reflexivity].
  apply String.eqb_eq in Hn. rewrite Hn in Hlt.
  unfold String.ltb in Hlt. now rewrite string_compare_refl in Hlt.
Qed.

(** X16. [RuleSet(rules=[])] is refused with a [ValueError].  The sort of
    the validator is stable: rules that share priority and name keep the
    order in which they were given; and it is idempotent: building a set
    from the stored rules of a set gives the same set, so rules given in
    [(priority, name)] order are stored unchanged. *)
Theorem RuleSet_new_stable_and_idempotent (v : list Rule) :
  RuleSet_new [] = Raise (ValueError "RuleSet must contain at least one rule")
  /\ (forall ruleset, RuleSet_new v = Ok ruleset ->
        (forall prio rule_name, with_key prio rule_name (rules ruleset)
                                = with_key prio rule_name v)
        /\ RuleSet_new (rules ruleset) = Ok ruleset)
  /\ (v <> [] -> StronglySorted rule_key_le v -> RuleSet_new v = Ok {| rules := v |}).
Proof.
  split; [reflexivity |]. split.
  - intros ruleset Hnew. unfold RuleSet_new, _validate_rules_non_empty in Hnew.
    destruct v as [| r v]; [discriminate |]. cbn [bind] in Hnew.
    assert (Hrs : ruleset = {| rules := sort_by rule_key_ltb (r :: v) |}) by congruence.
    subst ruleset. clear Hnew. cbn [rules]. split.
    + intros prio rule_name. unfold with_key.
      apply (sort_by_filter rule_key_ltb _ (r :: v)).
      intros x y Hlt Hx. apply andb_prop in Hx as (Hp & Hn).
      apply Z.eqb_eq in Hp. apply String.eqb_eq in Hn. subst prio rule_name.
      rewrite Z.eqb_sym, String.eqb_sym. now apply rule_key_ltb_irrefl_key.
    + unfold RuleSet_new, _validate_rules_non_empty.
      assert (Hsorted : sort_by rule_key_ltb (sort_by rule_key_ltb (r :: v))
                        = sort_by rule_key_ltb (r :: v)); [| rewrite Hsorted].
      2: { destruct (sort_by rule_key_ltb (r :: v)) as [| r0 v0] eqn:Hs; [| reflexivity].
           pose proof (sort_by_Permutation Rule rule_key_ltb (r :: v)) as Hperm.
           rewrite Hs in Hperm. apply Permutation_sym, Permutation_nil in Hperm.
           discriminate. }
      apply sort_by_sorted_id.
        apply sort_by_sorted; [apply rule_key_ltb_asym |].
        intros x y z Hxy Hyz. apply rule_key_before.
        apply rule_key_before in Hxy, Hyz. eapply rule_key_le_trans; eauto.
  - intros Hne Hsorted. unfold RuleSet_new, _validate_rules_non_empty.
    destruct v as [| r v]; [congruence |]. cbn [bind]. f_equal. f_equal.
    apply sort_by_sorted_id. eapply StronglySorted_impl; [| exact Hsorted].
    intros x y Hxy. now apply rule_key_before.
Qed.

(** ** Scoring a pair, continued *)

Section PairScoringLaws.

Context `{PyLib}.

Import MatchingEngine.

Lemma score_pair_fields (self : t) (left right : PyDict Value) (rule : Rule)
  (ps : PairScore) :
  _score_pair self left right rule = Ok ps ->
  left_id ps = str (get_value_or left "id" (VStr "<no-id>"))
  /\ right_id ps = str (get_value_or right "id" (VStr "<no-id>"))
  /\ rule_name ps = name rule
  /\ weight_sum ps = py_sum (map weight (fields rule)).
Proof.
  unfold _score_pair. intros Hrun.
  apply bind_Ok in Hrun as ([[fss ws] amp] & _ & Hrun). injection Hrun as <-.
  repeat split; reflexivity.
Qed.

Lemma evaluate_rules_of_rule (self : t) (left right : PyDict Value) (rules : list Rule)
  (ps : PairScore) :
  _evaluate_rules_for_pair self left right rules = Ok ps ->
  exists rule, In rule rules /\ _score_pair self left right rule = Ok ps.
Proof.
  unfold _evaluate_rules_for_pair. intros Hrun.
  apply bind_Ok in Hrun as (out & Hloop & Hout).
  apply rules_loop_inv in Hloop
    as [(ps' & pre & r & post & -> & -> & _ & Hr & _) | (b & -> & _ & [-> | Hb])].
  - injection Hout as <-. exists r. split; [apply in_elt | exact Hr].
  - destruct rules as [| rule0 rest]; [discriminate |].
    exists rule0. split; [now left | exact Hout].
  - destruct Hb as (r & ps' & Hin & (Hr & _) & ->). injection Hout as <-. eauto.
Qed.

Lemma rules_loop_total (self : t) (left right : PyDict Value) (rules : list Rule) :
  (forall rule, In rule rules -> exists ps, _score_pair self left right rule = Ok ps) ->
  forall best, exists out,
    rules_loop self left right rules best = Ok out
    /\ (rules <> [] -> out <> inr None).
Proof.
  induction rules as [| rule rest IH]; intros Hall best; simpl.
  - eexists. split; [reflexivity | congruence].
  - destruct (Hall rule (or_introl eq_refl)) as (ps & ->). cbn [bind].
    destruct (matched ps).
    + eexists. split; [reflexivity | discriminate].
    + match goal with |- context [rules_loop _ _ _ rest ?b] =>
        destruct (IH (fun r Hr => Hall r (or_intror Hr)) b) as (out & Hout & Hne);
        assert (Hb : exists b', b = Some b')
          by (destruct best as [b0 |];
              [destruct (Qgtb (total_score ps) (total_score b0)) |]; eauto)
      end.
      exists out. split; [exact Hout |]. intros _.
      destruct rest as [| r' rest']; [| apply Hne; discriminate].
      simpl in Hout. destruct Hb as (b' & Hb). rewrite Hb in Hout.
      injection Hout as <-. discriminate.
Qed.

Lemma evaluate_rules_total (self : t) (left right : PyDict Value) (rules : list Rule) :
  rules <> [] ->
  (forall rule, In rule rules -> exists ps, _score_pair self left right rule = Ok ps) ->
  exists ps, _evaluate_rules_for_pair self left right rules = Ok ps.
Proof.
  intros Hne Hall. unfold _evaluate_rules_for_pair.
  destruct (rules_loop_total self left right rules Hall None) as (out & -> & Hout).
  cbn [bind]. destruct out as [ps | [b |]]; eauto. now destruct (Hout Hne).
Qed.

(** X17. Rule selection on an empty list of rules raises [IndexError].  On
    any other list it returns, whenever it returns, the score that some rule
    of the list gives the pair, under that rule's name; and it does return
    whenever every rule of the list can score the pair. *)
Theorem evaluate_rules_returns_a_rule_score (self : t) (left right : PyDict Value) :
  _evaluate_rules_for_pair self left right [] = Raise IndexError
  /\ (forall rules ps,
        _evaluate_rules_for_pair self left right rules = Ok ps ->
        exists rule, In rule rules
                     /\ _score_pair self left right rule = Ok ps
                     /\ rule_name ps = name rule)
  /\ (forall rules,
        rules <> [] ->
        (forall rule, In rule rules -> exists ps, _score_pair self left right rule = Ok ps) ->
        exists ps, _evaluate_rules_for_pair self left right rules = Ok ps).
Proof.
  split; [reflexivity |]. split.
  - intros rules ps Hrun. apply evaluate_rules_of_rule in Hrun as (rule & Hin & Hr).
    exists rule. split; [exact Hin |]. split; [exact Hr |].
    now apply score_pair_fields in Hr.
  - intros rules. apply evaluate_rules_total.
Qed.





End PairScoringLaws.

(** ** A whole run, continued *)


Lemma index_loop_keys_NoDup (score_against : PyDict Value -> result (list PairScore))
  (id_of : PyDict Value -> string) (add_unmatched : EngineResult -> string -> EngineResult)
  (top_k : option Z) (records : list (PyDict Value)) :
  (forall res id, matches_index (add_unmatched res id) = matches_index res) ->
  forall res res',
    index_loop score_against id_of add_unmatched top_k records res = Ok res' ->
    NoDup (dict_keys (matches_index res)) -> NoDup (dict_keys (matches_index res')).
Proof.
  intros Hadd. induction records as [| r records IH]; intros res res' Hrun Hnd; simpl in Hrun.
  - now injection Hrun as <-.
  - apply bind_Ok in Hrun as (scores & _ & Hrun).
    destruct (is_empty (filter matched scores)); apply IH in Hrun; auto.
    + now rewrite Hadd.
    + simpl. now apply dict_set_NoDup.
Qed.

Lemma index_loop_header (score_against : PyDict Value -> result (list PairScore))
  (id_of : PyDict Value -> string) (add_unmatched : EngineResult -> string -> EngineResult)
  (top_k : option Z) (records : list (PyDict Value)) :
  (forall res id, res_cardinality (add_unmatched res id) = res_cardinality res
                  /\ indexed_by (add_unmatched res id) = indexed_by res) ->
  forall res res',
    index_loop score_against id_of add_unmatched top_k records res = Ok res' ->
    res_cardinality res' = res_cardinality res /\ indexed_by res' = indexed_by res.
Proof.
  intros Hadd. induction records as [| r records IH]; intros res res' Hrun; simpl in Hrun.
  - now injection Hrun as <-.
  - apply bind_Ok in Hrun as (scores & _ & Hrun).
    destruct (is_empty (filter matched scores)); apply IH in Hrun as (-> & ->).
    + apply Hadd.
    + split; reflexivity.
Qed.

Lemma filter_all {A : Type} (f : A -> bool) (l : list A) :
  (forall x, f x = true) -> filter f l = l.
Proof.
  intros Hf. induction l as [| x l IH]; [reflexivity |].
  cbn [filter]. now rewrite Hf, IH.
Qed.

Section RunLaws.

Context `{PyLib}.

Import MatchingEngine.

Lemma id_map_keys_In (records : list (PyDict Value)) (id_field id : string) :
  In id (dict_keys (id_map records id_field)) <-> In id (map (record_id id_field) records).
Proof.
  unfold id_map.
  assert (Hgen : forall d : PyDict (PyDict Value),
             In id (dict_keys (fold_left (fun d r => dict_set d (str (get_value r id_field)) r)
                                 records d))
             <-> In id (dict_keys d) \/ In id (map (record_id id_field) records)).
  { induction records as [| r records IH]; intros d; simpl; [tauto |].
    rewrite IH, dict_set_key_In. unfold record_id. intuition congruence. }
  rewrite Hgen. simpl. tauto.
Qed.

(** The two branches of [match], read as one loop over the index side *)
Lemma match_run (self : t) (left_records right_records : list (PyDict Value))
  (ruleset : RuleSet) (cardinality : Cardinality) (left_id_field right_id_field : string)
  (top_k : option Z) (res : EngineResult) :
  match_ self left_records right_records ruleset cardinality
    left_id_field right_id_field top_k = Ok res ->
  exists res1,
    index_loop (score_index self cardinality left_records right_records (rules ruleset))
      (record_id (index_id_field cardinality left_id_field right_id_field))
      (match cardinality with
       | ONE_TO_MANY => add_unmatched_left
       | MANY_TO_ONE => add_unmatched_right
       end) top_k (index_records cardinality left_records right_records)
      (empty_result cardinality (index_side cardinality)) = Ok res1
    /\ matches_index res = matches_index res1
    /\ res_cardinality res = res_cardinality res1
    /\ indexed_by res = indexed_by res1
    /\ index_unmatched cardinality res = index_unmatched cardinality res1
    /\ opposite_unmatched cardinality res
       = filter (fun id => negb (str_mem id (matched_ids (opposite_id cardinality) res1)))
           (dict_keys (id_map (opposite_records cardinality left_records right_records)
                         (opposite_id_field cardinality left_id_field right_id_field))).
Proof.
  intros Hrun. destruct cardinality.
  - apply match_one_to_many in Hrun as (res1 & Hloop & ->). exists res1.
    repeat split; auto.
  - apply match_many_to_one in Hrun as (res1 & Hloop & ->). exists res1.
    repeat split; auto.
Qed.

Lemma matched_ids_In (side : PairScore -> string) (res : EngineResult) (id : string) :
  In id (matched_ids side res)
  <-> exists key lst ps, In (key, lst) (matches_index res) /\ In ps lst /\ side ps = id.
Proof.
  unfold matched_ids, dict_values. rewrite in_flat_map. split.
  - intros (lst & Hlst & Hid). apply in_map_iff in Hlst as ([key lst'] & <- & Hin).
    apply in_map_iff in Hid as (ps & <- & Hps). exists key, lst', ps. auto.
  - intros (key & lst & ps & Hin & Hps & <-). exists lst. split.
    + apply in_map_iff. exists (key, lst). auto.
    + now apply in_map.
Qed.




(** X20. An id is listed as unmatched on the side opposite to the index
    exactly when some record of that side has it and no stored pair score
    names it; a record whose every match was cut off by [top_k] is thus
    reported as unmatched. *)
Theorem opposite_unmatched_ids_are_unreferenced (self : t)
  (left_records right_records : list (PyDict Value)) (ruleset : RuleSet)
  (cardinality : Cardinality) (left_id_field right_id_field : string)
  (top_k : option Z) (res : EngineResult) :
  match_ self left_records right_records ruleset cardinality
    left_id_field right_id_field top_k = Ok res ->
  forall id,
    In id (opposite_unmatched cardinality res)
    <-> In id (map (record_id (opposite_id_field cardinality left_id_field right_id_field))
                 (opposite_records cardinality left_records right_records))
        /\ ~ exists key lst ps,
               In (key, lst) (matches_index res) /\ In ps lst
               /\ opposite_id cardinality ps = id.
Proof.
  intros Hrun id. apply match_run in Hrun as (res1 & _ & -> & _ & _ & _ & ->).
  rewrite filter_In, id_map_keys_In, negb_true_iff, <- matched_ids_In.
  split; intros (Hin & Hno); split; auto.
  - intros Hm. apply str_mem_In in Hm. congruence.
  - destruct (str_mem id (matched_ids (opposite_id cardinality) res1)) eqn:Hm; [| reflexivity].
    apply str_mem_In in Hm. contradiction.
Qed.

(** X21. The result of a run echoes the cardinality and names the index
    side; no key of [matches_index] occurs twice.  A stored list is never
    empty unless [top_k] cuts it: without [top_k], or with a [top_k] of at
    least 1, it holds a match; with a [top_k] of 0 every stored list is
    empty and every id of the opposite side is listed as unmatched. *)
Theorem match_result_shape (self : t)
  (left_records right_records : list (PyDict Value)) (ruleset : RuleSet)
  (cardinality : Cardinality) (left_id_field right_id_field : string)
  (top_k : option Z) (res : EngineResult) :
  match_ self left_records right_records ruleset cardinality
    left_id_field right_id_field top_k = Ok res ->
  res_cardinality res = cardinality
  /\ indexed_by res = index_side cardinality
  /\ NoDup (dict_keys (matches_index res))
  /\ (forall key lst, In (key, lst) (matches_index res) ->
        (top_k = None \/ (exists k, top_k = Some k /\ 1 <= k) -> lst <> [])
        /\ (top_k = Some 0 -> lst = []))
  /\ (top_k = Some 0 ->
      opposite_unmatched cardinality res
      = dict_keys (id_map (opposite_records cardinality left_records right_records)
                     (opposite_id_field cardinality left_id_field right_id_field))).
Proof.
  intros Hrun.
  assert (Hlists : forall key lst, In (key, lst) (matches_index res) ->
            (top_k = None \/ (exists k, top_k = Some k /\ 1 <= k) -> lst <> [])
            /\ (top_k = Some 0 -> lst = [])).
  { intros key lst Hin.
    destruct (match_entries _ _ _ _ _ _ _ _ _ _ _ Hrun Hin)
      as (r & scores & _ & _ & _ & Hne & ->).
    destruct (keep_matches_ranked scores top_k) as (dropped & Hperm & _ & Hnone & Hlen).
    assert (Hpos : (0 < List.length (filter matched scores))%nat)
      by (destruct (filter matched scores); [congruence | simpl; lia]).
    split.
    - intros [Hk | (k & Hk & Hk1)] Hnil.
      + rewrite (Hnone Hk), app_nil_r, Hnil in Hperm.
        apply Permutation_nil in Hperm. congruence.
      + specialize (Hlen k Hk ltac:(lia)). rewrite Hnil in Hlen. simpl in Hlen. lia.
    - intros Hk. specialize (Hlen 0 Hk ltac:(lia)).
      destruct (keep_matches scores top_k); [reflexivity | simpl in Hlen; lia]. }
  pose proof Hrun as Hrun'.
  apply match_run in Hrun' as (res1 & Hloop & Hmi & Hc & Hi & _ & Hopp).
  assert (Hhead : res_cardinality res1 = cardinality /\ indexed_by res1 = index_side cardinality).
  { apply index_loop_header in Hloop; [exact Hloop |]. now destruct cardinality. }
  assert (Hnd : NoDup (dict_keys (matches_index res1))).
  { apply index_loop_keys_NoDup in Hloop; [exact Hloop | now destruct cardinality |].
    simpl. constructor. }
  split; [rewrite Hc; apply Hhead |]. split; [rewrite Hi; apply Hhead |].
  split; [now rewrite Hmi |]. split; [exact Hlists |].
  intros Hk. rewrite Hopp.
  assert (Hnone : matched_ids (opposite_id cardinality) res1 = []).
  { destruct (matched_ids (opposite_id cardinality) res1) as [| id ids] eqn:Hm; [reflexivity |].
    assert (Hin : In id (matched_ids (opposite_id cardinality) res1)) by (rewrite Hm; now left).
    apply matched_ids_In in Hin as (key & lst & ps & Hin & Hps & _).
    rewrite <- Hmi in Hin. destruct (Hlists key lst Hin) as (_ & Hnil).
    rewrite (Hnil Hk) in Hps. destruct Hps. }
  rewrite Hnone. apply filter_all. intros id. reflexivity.
Qed.

(** X22. When both id fields are ["id"] and every record has an ["id"]
    entry, the ids inside a stored pair score are the ids of the two records
    it compares: the id of the index side is the key the score is stored
    under, and both ids occur among the ids of their side. *)
Theorem stored_ids_agree_with_keys (self : t)
  (left_records right_records : list (PyDict Value)) (ruleset : RuleSet)
  (cardinality : Cardinality) (top_k : option Z) (res : EngineResult) :
  match_ self left_records right_records ruleset cardinality "id" "id" top_k = Ok res ->
  (forall r, In r left_records \/ In r right_records -> dict_get r "id" <> None) ->
  forall key lst ps,
    In (key, lst) (matches_index res) -> In ps lst ->
    index_id cardinality ps = key
    /\ In (left_id ps) (map (record_id "id") left_records)
    /\ In (right_id ps) (map (record_id "id") right_records).
Proof.
  intros Hrun Hid key lst ps Hin Hps.
  destruct (stored_score_origin _ _ _ _ _ _ _ _ _ _ _ _ Hrun Hin Hps)
    as (_ & left & right & Hl & Hr & Hev & Hkey).
  apply evaluate_rules_of_rule in Hev as (rule & _ & Hsp).
  apply score_pair_fields in Hsp as (Hlid & Hrid & _).
  assert (Hget : forall r, dict_get r "id" <> None ->
            str (get_value_or r "id" (VStr "<no-id>")) = record_id "id" r).
  { intros r Hr'. unfold record_id, get_value, get_value_or.
    destruct (dict_get r "id"); [reflexivity | congruence]. }
  rewrite Hget in Hlid by (apply Hid; auto). rewrite Hget in Hrid by (apply Hid; auto).
  split; [| split].
  - destruct cardinality; simpl; congruence.
  - rewrite Hlid. now apply in_map.
  - rewrite Hrid. now apply in_map.
Qed.


End RunLaws.

(** ** Further runs on example data *)




Lemma opposite_unmatched_ids_are_unreferenced_witness :
  exists res,
    MatchingEngine.match_ engine [person "L1" "a@x.com" "Ann"]
      [person "R1" "a@x.com" "Bob"; person "R2" "z@q.org" "Zed"]
      email_ruleset ONE_TO_MANY "id" "id" None = Ok res
    /\ (In "R2" (opposite_unmatched ONE_TO_MANY res)
        <-> In "R2" (map (record_id "id")
                       [person "R1" "a@x.com" "Bob"; person "R2" "z@q.org" "Zed"])
            /\ ~ exists key lst ps,
                   In (key, lst) (matches_index res) /\ In ps lst
                   /\ opposite_id ONE_TO_MANY ps = "R2")
    /\ unmatched_right_ids res = ["R2"].
Proof.
  destruct (MatchingEngine.match_ engine [person "L1" "a@x.com" "Ann"]
              [person "R1" "a@x.com" "Bob"; person "R2" "z@q.org" "Zed"]
              email_ruleset ONE_TO_MANY "id" "id" None) as [res | e] eqn:Hrun.
  - exists res. split; [reflexivity |]. split.
    + exact (opposite_unmatched_ids_are_unreferenced engine _ _ _ _ _ _ _ _ Hrun "R2").
    + run_in Hrun. reflexivity.
  - run_in Hrun.
Defined.

Lemma match_result_shape_witness :
  exists res,
    MatchingEngine.match_ engine [person "L1" "a@x.com" "Ann"]
      [person "R1" "a@x.com" "Bob"; person "R2" "z@q.org" "Zed"]
      email_ruleset ONE_TO_MANY "id" "id" (Some 0) = Ok res
    /\ indexed_by res = "left"
    /\ matches_index res = [("L1", [])]
    /\ unmatched_left_ids res = []
    /\ unmatched_right_ids res = ["R1"; "R2"].
Proof.
  destruct (MatchingEngine.match_ engine [person "L1" "a@x.com" "Ann"]
              [person "R1" "a@x.com" "Bob"; person "R2" "z@q.org" "Zed"]
              email_ruleset ONE_TO_MANY "id" "id" (Some 0)) as [res | e] eqn:Hrun.
  - exists res. split; [reflexivity |].
    destruct (match_result_shape engine _ _ _ _ _ _ _ _ Hrun) as (_ & Hside & _ & _ & Hopp).
    split; [exact Hside |]. specialize (Hopp eq_refl). simpl in Hopp.
    run_in Hrun. repeat split; reflexivity.
  - run_in Hrun.
Defined.

Lemma stored_ids_agree_with_keys_witness :
  exists res ps,
    MatchingEngine.match_ engine [person "L1" "a@x.com" "Ann"]
      [person "R1" "a@x.com" "Bob"; person "R2" "z@q.org" "Zed"]
      email_ruleset ONE_TO_MANY "id" "id" None = Ok res
    /\ In ("L1", [ps]) (matches_index res)
    /\ index_id ONE_TO_MANY ps = "L1"
    /\ right_id ps = "R1".
Proof.
  destruct (MatchingEngine.match_ engine [person "L1" "a@x.com" "Ann"]
              [person "R1" "a@x.com" "Bob"; person "R2" "z@q.org" "Zed"]
              email_ruleset ONE_TO_MANY "id" "id" None) as [res | e] eqn:Hrun.
  - pose proof (stored_ids_agree_with_keys engine _ _ _ _ _ _ Hrun) as Hids.
    assert (Hhave : forall r,
              In r [person "L1" "a@x.com" "Ann"]
              \/ In r [person "R1" "a@x.com" "Bob"; person "R2" "z@q.org" "Zed"] ->
              dict_get r "id" <> None).
    { intros r [[<- | []] | [<- | [<- | []]]]; discriminate. }
    specialize (Hids Hhave). run_in Hrun.
    eexists. eexists. split; [reflexivity |]. split; [now left |].
    split; [| reflexivity].
    refine (proj1 (Hids "L1" _ _ (or_introl eq_refl) (or_introl eq_refl))).
  - run_in Hrun.
Defined.


(** ** difflib: what a ratio of 1 means *)

Section MatchAgree.

Import difflib.

#[local] Arguments Z.mul : simpl never.
#[local] Arguments Z.add : simpl never.
#[local] Arguments Z.sub : simpl never.

Variable sm : SequenceMatcher.

(** [b2j] lists, for an element, positions of [b] that hold it. *)
Hypothesis b2j_ok : forall c j, In j (b2j_get (b2j sm) c) -> item (b sm) j = c.

(** The block [a[i:i+k]] is the block [b[j:j+k]]. *)
Definition agree (m : Match) : Prop :=
  let '(i, j, k) := m in
  forall x, 0 <= x < k -> item (a sm) (i + x) = item (b sm) (j + x).

(** An entry [(j, v)] of [j2len] on row [i]: the [v] elements that end at
    [a[i]] are the [v] elements that end at [b[j]]. *)
Definition entry_agree (i : Z) (entry : Z * Z) : Prop :=
  let '(j, v) := entry in
  forall x, 0 <= x < v -> item (a sm) (i - x) = item (b sm) (j - x).

Lemma j2len_get_agree (i j : Z) (j2len : list (Z * Z)) :
  Forall (entry_agree i) j2len -> entry_agree i (j, j2len_get j2len j).
Proof.
  induction 1 as [| [j' v] j2len Hentry _ IH]; simpl; [intros x Hx; lia |].
  destruct (j' =? j) eqn:He; [| exact IH].
  apply Z.eqb_eq in He. subst j'. exact Hentry.
Qed.

Lemma inner_loop_agree (i blo bhi : Z) (j2len : list (Z * Z)) (js : list Z) :
  (forall j, In j js -> item (b sm) j = item (a sm) i) ->
  Forall (entry_agree (i - 1)) j2len ->
  forall newj2len best,
    Forall (entry_agree i) newj2len -> agree best ->
    Forall (entry_agree i) (fst (inner_loop js i blo bhi j2len newj2len best))
    /\ agree (snd (inner_loop js i blo bhi j2len newj2len best)).
Proof.
  intros Hjs Hj2len. induction js as [| j js IH]; simpl; intros newj2len best Hnew Hbest.
  - auto.
  - assert (Hrest : forall j', In j' js -> item (b sm) j' = item (a sm) i)
      by (intros j' Hj'; apply Hjs; now right).
    destruct (j <? blo); [now apply IH |].
    destruct (bhi <=? j); [auto |].
    pose proof (j2len_get_agree (i - 1) (j - 1) j2len Hj2len) as Hprev. simpl in Hprev.
    set (k := j2len_get j2len (j - 1) + 1) in *.
    assert (Hentry : entry_agree i (j, k)).
    { intros x Hx. destruct (Z.eq_dec x 0) as [-> | Hne].
      - replace (i - 0) with i by lia. replace (j - 0) with j by lia.
        symmetry. apply Hjs. now left.
      - replace (i - x) with (i - 1 - (x - 1)) by lia.
        replace (j - x) with (j - 1 - (x - 1)) by lia. apply Hprev. lia. }
    apply IH; [exact Hrest | now constructor |].
    destruct (k >? size best); [| exact Hbest].
    intros x Hx. replace (i - k + 1 + x) with (i - (k - 1 - x)) by lia.
    replace (j - k + 1 + x) with (j - (k - 1 - x)) by lia. apply Hentry. lia.
Qed.

Lemma outer_loop_agree (ahi blo bhi : Z) (n : nat) :
  forall i j2len best,
    Z.of_nat n = ahi - i ->
    Forall (entry_agree (i - 1)) j2len -> agree best ->
    agree (outer_loop sm (range i ahi) blo bhi j2len best).
Proof.
  induction n as [| n IH]; intros i j2len best Hn Hj2len Hbest; rewrite range_unfold.
  - replace (i <? ahi) with false by (symmetry; apply Z.ltb_ge; lia). exact Hbest.
  - replace (i <? ahi) with true by (symmetry; apply Z.ltb_lt; lia). simpl.
    destruct (inner_loop_agree i blo bhi j2len (b2j_get (b2j sm) (item (a sm) i)))
      with (newj2len := @nil (Z * Z)) (best := best) as (Hnew & Hbest');
      [intros j Hj; now apply b2j_ok | assumption | constructor | assumption |].
    destruct (inner_loop _ i blo bhi j2len [] best) as [newj2len best'].
    apply IH; [lia | | exact Hbest'].
    replace (i + 1 - 1) with i by lia. exact Hnew.
Qed.

Lemma extend_back_agree (fuel : nat) (junk : bool) (alo blo : Z) :
  forall best, agree best -> agree (extend_back fuel sm junk alo blo best).
Proof.
  induction fuel as [| fuel IH]; simpl; intros [[besti bestj] bestsize] Hbest; [exact Hbest |].
  destruct (_ && _) eqn:Hcond; [| exact Hbest].
  repeat rewrite andb_true_iff in Hcond. destruct Hcond as (_ & Heq).
  apply Ascii.eqb_eq in Heq. apply IH. intros x Hx.
  destruct (Z.eq_dec x 0) as [-> | Hne].
  - replace (besti - 1 + 0) with (besti - 1) by lia.
    replace (bestj - 1 + 0) with (bestj - 1) by lia. exact Heq.
  - replace (besti - 1 + x) with (besti + (x - 1)) by lia.
    replace (bestj - 1 + x) with (bestj + (x - 1)) by lia. apply Hbest. lia.
Qed.

Lemma extend_fwd_agree (fuel : nat) (junk : bool) (ahi bhi : Z) :
  forall best, agree best -> agree (extend_fwd fuel sm junk ahi bhi best).
Proof.
  induction fuel as [| fuel IH]; simpl; intros [[besti bestj] bestsize] Hbest; [exact Hbest |].
  destruct (_ && _) eqn:Hcond; [| exact Hbest].
  repeat rewrite andb_true_iff in Hcond. destruct Hcond as (_ & Heq).
  apply Ascii.eqb_eq in Heq. apply IH. intros x Hx.
  destruct (Z.eq_dec x bestsize) as [-> | Hne]; [exact Heq | apply Hbest; lia].
Qed.

(** The block [find_longest_match] returns is a common block. *)
Lemma find_longest_match_agree (alo ahi blo bhi : Z) :
  alo <= ahi -> agree (find_longest_match sm alo ahi blo bhi).
Proof.
  intros Ha. unfold find_longest_match.
  do 2 (apply extend_fwd_agree, extend_back_agree).
  apply (outer_loop_agree ahi blo bhi (Z.to_nat (ahi - alo))); [lia | constructor |].
  intros x Hx. lia.
Qed.

(** The two sides of a window are the same sequence. *)
Definition window_equal (w : Z * Z * Z * Z) : Prop :=
  let '(alo, ahi, blo, bhi) := w in
  ahi - alo = bhi - blo
  /\ forall x, 0 <= x < ahi - alo -> item (a sm) (alo + x) = item (b sm) (blo + x).

Lemma empty_windows_equal (queue : list (Z * Z * Z * Z)) :
  Forall window_ok queue ->
  list_sum_Z (map a_span queue) = 0 -> list_sum_Z (map b_span queue) = 0 ->
  Forall window_equal queue.
Proof.
  assert (Hspan : forall queue, Forall window_ok queue ->
            0 <= list_sum_Z (map a_span queue) /\ 0 <= list_sum_Z (map b_span queue)).
  { induction 1 as [| [[[alo ahi] blo] bhi] q Hw _ IH]; simpl; [lia |].
    unfold window_ok in Hw. lia. }
  induction 1 as [| [[[alo ahi] blo] bhi] q Hw Hq IH]; simpl; intros Ha Hb; constructor.
  - unfold window_ok in Hw. destruct (Hspan q Hq). split; [lia | intros x Hx; lia].
  - unfold window_ok in Hw. destruct (Hspan q Hq). apply IH; lia.
Qed.

(** When the pieces a pass leaves cover the whole window on both sides and
    are equal piece by piece, the window is equal. *)
Lemma queue_step_equal (w : Z * Z * Z * Z) (queue : list (Z * Z * Z * Z)) :
  window_ok w ->
  Forall window_equal (queue_step sm w queue) ->
  list_sum_Z (map a_span (queue_step sm w queue))
  + size (let '(alo, ahi, blo, bhi) := w in find_longest_match sm alo ahi blo bhi)
  = list_sum_Z (map a_span (w :: queue)) ->
  list_sum_Z (map b_span (queue_step sm w queue))
  + size (let '(alo, ahi, blo, bhi) := w in find_longest_match sm alo ahi blo bhi)
  = list_sum_Z (map b_span (w :: queue)) ->
  window_equal w /\ Forall window_equal queue.
Proof.
  destruct w as [[[alo ahi] blo] bhi]. intros (Ha & Hb).
  pose proof (find_longest_match_ok sm alo ahi blo bhi Ha Hb) as Hbest.
  pose proof (find_longest_match_agree alo ahi blo bhi Ha) as Hagree.
  unfold queue_step. destruct (find_longest_match sm alo ahi blo bhi) as [[i j] k].
  unfold best_ok in Hbest. unfold agree in Hagree. simpl size.
  destruct (k =? 0) eqn:Hk.
  - apply Z.eqb_eq in Hk. simpl. intros Hq Hsa Hsb. split; [| exact Hq].
    split; [lia | intros x Hx; lia].
  - apply Z.eqb_neq in Hk. intros Hq Hsa Hsb.
    assert (Hparts :
              (i - alo = j - blo
               /\ forall x, 0 <= x < i - alo -> item (a sm) (alo + x) = item (b sm) (blo + x))
              /\ (ahi - (i + k) = bhi - (j + k)
                  /\ forall x, 0 <= x < ahi - (i + k) ->
                       item (a sm) (i + k + x) = item (b sm) (j + k + x))
              /\ Forall window_equal queue).
    { destruct ((alo <? i) && (blo <? j)) eqn:Hleft;
        destruct ((i + k <? ahi) && (j + k <? bhi)) eqn:Hright;
        simpl in Hsa, Hsb;
        repeat match goal with
               | Hf : Forall window_equal (_ :: _) |- _ =>
                   let Hw := fresh "Hw" in
                   inversion Hf as [| ? ? Hw ?]; subst; clear Hf; unfold window_equal in Hw
               end;
        repeat match goal with
               | Hc : _ && _ = true |- _ =>
                   apply andb_true_iff in Hc; destruct Hc as (?Hc1 & ?Hc2);
                   rewrite Z.ltb_lt in *
               end;
        (split; [| split]);
        try assumption;
        try (split; [lia | intros x Hx; lia]). }
    destruct Hparts as ((Hl & Hleft) & (Hr & Hright) & Hqueue).
    split; [| exact Hqueue]. split; [lia |]. intros x Hx.
    destruct (Z.lt_ge_cases x (i - alo)) as [Hx1 | Hx1]; [apply Hleft; lia |].
    destruct (Z.lt_ge_cases x (i - alo + k)) as [Hx2 | Hx2].
    + replace (alo + x) with (i + (x - (i - alo))) by lia.
      replace (blo + x) with (j + (x - (i - alo))) by lia. apply Hagree. lia.
    + replace (alo + x) with (i + k + (x - (i - alo + k))) by lia.
      replace (blo + x) with (j + k + (x - (i - alo + k))) by lia. apply Hright. lia.
Qed.

(** When the blocks found from a queue of windows add up to the whole of
    the windows on both sides, each window is equal. *)
Lemma blocks_loop_full (fuel : nat) :
  forall queue matching_blocks,
    Forall window_ok queue ->
    0 <= total_size matching_blocks ->
    total_size (blocks_loop fuel sm queue matching_blocks)
    = total_size matching_blocks + list_sum_Z (map a_span queue) ->
    total_size (blocks_loop fuel sm queue matching_blocks)
    = total_size matching_blocks + list_sum_Z (map b_span queue) ->
    Forall window_equal queue.
Proof.
  induction fuel as [| fuel IH]; intros queue mb Hq Hmb Ha Hb.
  - simpl in Ha, Hb. apply empty_windows_equal; [exact Hq | lia | lia].
  - destruct queue as [| w queue]; [constructor |].
    inversion Hq as [| ? ? Hw Hq']; subst.
    destruct (queue_step_ok sm w queue Hw Hq') as (Hok & _ & Hsa & Hsb & Hk).
    rewrite blocks_loop_step in Ha, Hb.
    set (x := let '(alo, ahi, blo, bhi) := w in find_longest_match sm alo ahi blo bhi) in *.
    assert (Hmb' : total_size (if size x =? 0 then mb else mb ++ [x]) = total_size mb + size x).
    { destruct (size x =? 0) eqn:Hz; [apply Z.eqb_eq in Hz; lia |].
      unfold total_size. rewrite map_app, list_sum_Z_app. simpl. lia. }
    destruct (blocks_loop_total sm fuel (queue_step sm w queue)
                (if size x =? 0 then mb else mb ++ [x]) Hok) as (_ & H1 & H2); [lia |].
    rewrite Hmb' in H1, H2.
    assert (Hfull : Forall window_equal (queue_step sm w queue)).
    { apply (IH _ (if size x =? 0 then mb else mb ++ [x])); [exact Hok | lia | lia | lia]. }
    destruct (queue_step_equal w queue Hw Hfull) as (Hwe & Hqe);
      [fold x; lia | fold x; lia |].
    now constructor.
Qed.

End MatchAgree.

Lemma new_b2j_ok (a b : list ascii) (c : ascii) (j : Z) :
  In j (difflib.b2j_get (difflib.b2j (difflib.new a b)) c) -> difflib.item b j = c.
Proof.
  simpl. destruct (chain_b_get b c) as [-> | ->]; [intros [] |].
  intros Hj. apply positions_In in Hj as (_ & Hc).
  now replace (j - 0) with j in Hc by lia.
Qed.

(** Below [2 ** 53] the two ints convert exactly, and the quotient is 1.0
    only when it is 1. *)
Lemma calculate_ratio_one (matches length : Z) :
  0 <= matches -> 2 * matches <= length -> length <= 2 ^ 53 -> length <> 0 ->
  (difflib._calculate_ratio matches length == 1)%Q -> 2 * matches = length.
Proof.
  intros Hm Hl Hsmall Hz. unfold difflib._calculate_ratio.
  replace (length =? 0) with false by (symmetry; now apply Z.eqb_neq). cbn [negb].
  unfold fdiv, fmul.
  assert (Hrm : (rnd (inject_Z matches) == inject_Z matches)%Q) by (apply rnd_inject_Z; lia).
  assert (Hrl : (rnd (inject_Z length) == inject_Z length)%Q) by (apply rnd_inject_Z; lia).
  assert (Hq : (rnd (2 * rnd (inject_Z matches)) / rnd (inject_Z length)
                == inject_Z (2 * matches) / inject_Z length)%Q).
  { rewrite rnd_double, Hrm, Hrl, inject_Z_mult. reflexivity. }
  rewrite (rnd_comp _ _ Hq). intros Hone.
  destruct (Z.eq_dec (2 * matches) length) as [Heq | Hne]; [exact Heq | exfalso].
  destruct (Z.eq_dec matches 0) as [-> | Hm0].
  - vm_compute in Hone. discriminate.
  - destruct (rnd_ratio_strict (2 * matches) length) as (_ & Hlt); [lia | lia |].
    rewrite Hone in Hlt. discriminate.
Qed.

(** Beyond [2 ** 53] the conversion to float loses the difference. *)
Lemma large_ratio_rounds_to_one :
  (difflib._calculate_ratio (2 ^ 53) (2 ^ 54 + 2) == 1)%Q.
Proof. vm_compute. reflexivity. Qed.

(** A ratio of 1 is reached by equal sequences only (for sequences of no
    more than [2 ** 53] elements together). *)
Lemma ratio_one_equal (a b : list ascii) :
  Z.of_nat (List.length a + List.length b) <= 2 ^ 53 ->
  (difflib.ratio (difflib.new a b) == 1)%Q -> a = b.
Proof.
  intros Hsmall.
  unfold difflib.ratio. rewrite matches_total. cbn [difflib.a difflib.b difflib.new].
  set (la := Z.of_nat (List.length a)). set (lb := Z.of_nat (List.length b)).
  set (blocks := difflib.blocks_loop _ _ _ _).
  destruct (blocks_loop_total (difflib.new a b) (difflib.queue_fuel la) [(0, la, 0, lb)] [])
    as (H0 & Ha & Hb); [repeat constructor; lia | unfold total_size; simpl; lia |].
  fold blocks in H0, Ha, Hb. unfold total_size at 2 in Ha. unfold total_size at 2 in Hb.
  simpl in Ha, Hb. intros Hratio.
  assert (Hlen : total_size blocks = la /\ total_size blocks = lb).
  { destruct (Z.eq_dec (la + lb) 0) as [Hz | Hz]; [lia |].
    assert (Heq : 2 * total_size blocks = la + lb).
    { apply calculate_ratio_one; [lia | lia | unfold la, lb; lia | exact Hz | exact Hratio]. }
    lia. }
  destruct Hlen as (Hla & Hlb).
  assert (Hfull : Forall (window_equal (difflib.new a b)) [(0, la, 0, lb)]).
  { apply (blocks_loop_full (difflib.new a b) (new_b2j_ok a b) (difflib.queue_fuel la) _ []).
    - repeat constructor; lia.
    - unfold total_size; simpl; lia.
    - fold blocks. unfold total_size at 2. simpl. lia.
    - fold blocks. unfold total_size at 2. simpl. lia. }
  apply Forall_inv in Hfull. unfold window_equal in Hfull.
  destruct Hfull as (Hsame & Hitems). cbn [difflib.a difflib.b difflib.new] in Hitems.
  apply (nth_ext a b "000"%char "000"%char); [lia |].
  intros n Hn. specialize (Hitems (Z.of_nat n) ltac:(lia)). unfold difflib.item in Hitems.
  replace (Z.to_nat (0 + Z.of_nat n)) with n in Hitems by lia. exact Hitems.
Qed.

Lemma chars_length (s : string) : List.length (chars s) = String.length s.
Proof. induction s as [| c s IH]; simpl; [reflexivity | now rewrite IH]. Qed.

Section RatioLaws.

Context `{PyLib}.

(** X24. With both values present, [cmp_ratio] scores 1.0 when the two
    normalized texts are the same text.  For texts of no more than
    [2 ** 53] characters together the converse holds: any difference
    between them, however small, gives a score below 1.0.  (Longer texts
    could differ in so small a part that the quotient rounds to 1.0.) *)
Theorem cmp_ratio_one_iff_same_text (left right : Value) (context : option Context)
  (params : option (PyDict Value)) (li ri : string) :
  _normalize_text left (case_flag params) true = Some li ->
  _normalize_text right (case_flag params) true = Some ri ->
  exists s d,
    cmp_ratio left right context params = Ok (s, d)
    /\ (li = ri -> (s == 1)%Q)
    /\ (len li + len ri <= 2 ^ 53 ->
        ((s == 1)%Q -> li = ri) /\ (li <> ri -> (s < 1)%Q)).
Proof.
  unfold cmp_ratio, case_flag. intros -> ->. do 2 eexists. split; [reflexivity |].
  split; [intros ->; apply ratio_self |]. intros Hsmall.
  assert (Hconv : (difflib.ratio (difflib.new (chars li) (chars ri)) == 1)%Q -> li = ri).
  { intros Hone. apply ratio_one_equal in Hone.
    - rewrite <- (string_of_chars li), <- (string_of_chars ri). now rewrite Hone.
    - rewrite !chars_length. unfold len in Hsmall. lia. }
  split; [exact Hconv |]. intros Hne.
  destruct (ratio_bounds (difflib.new (chars li) (chars ri))) as (_ & Hle).
  apply Qnot_le_lt. intros Hge. apply Hne, Hconv. lra.
Qed.

End RatioLaws.

Lemma cmp_ratio_one_iff_same_text_witness :
  exists s d,
    cmp_ratio (VStr " Ann Lee") (VStr "ann  lee") None None = Ok (s, d)
    /\ (s < 1)%Q.
Proof.
  destruct (cmp_ratio_one_iff_same_text (VStr " Ann Lee") (VStr "ann  lee") None None
              "ann lee" "ann  lee" eq_refl eq_refl) as (s & d & Hrun & _ & Hconv).
  exists s, d. split; [exact Hrun |].
  destruct Hconv as (_ & Hlt); [vm_compute; discriminate |]. apply Hlt. discriminate.
Defined.

(** ** Normalization in the text comparators *)

Section PaddingLaws.

Context `{PyLib}.

Lemma normalize_text_padding (s t pre post : string) (flag : bool) :
  blank pre -> blank post -> (if flag then lower t = lower s else t = s) ->
  _normalize_text (VStr (String.append pre (String.append t post))) flag true
  = _normalize_text (VStr s) flag true.
Proof.
  intros Hpre Hpost Hst. unfold _normalize_text, _to_string. cbn [str].
  rewrite (strip_pad _ _ _ Hpre Hpost). destruct flag.
  - now rewrite !lower_strip, Hst.
  - now rewrite Hst.
Qed.

(** X25. The text comparators see a value only through its normalized
    text: padding a text with whitespace on either end changes no result of
    [cmp_icase_exact], [cmp_ratio], [cmp_jaccard] or [cmp_contains], on
    whichever side the value stands, and neither does a change of letter
    case unless [case_insensitive] is switched off. *)
Theorem text_comparators_ignore_padding (s t pre post : string) (other : Value)
  (context : option Context) (params : option (PyDict Value)) :
  blank pre -> blank post ->
  (if case_flag params then lower t = lower s else t = s) ->
  let padded := VStr (String.append pre (String.append t post)) in
  (cmp_icase_exact padded other context params = cmp_icase_exact (VStr s) other context params
   /\ cmp_icase_exact other padded context params
      = cmp_icase_exact other (VStr s) context params)
  /\ (cmp_ratio padded other context params = cmp_ratio (VStr s) other context params
      /\ cmp_ratio other padded context params = cmp_ratio other (VStr s) context params)
  /\ (cmp_jaccard padded other context params = cmp_jaccard (VStr s) other context params
      /\ cmp_jaccard other padded context params = cmp_jaccard other (VStr s) context params)
  /\ (cmp_contains padded other context params = cmp_contains (VStr s) other context params
      /\ cmp_contains other padded context params
         = cmp_contains other (VStr s) context params).
Proof.
  intros Hpre Hpost Hst padded.
  assert (Hlow : lower t = lower s) by (destruct (case_flag params); congruence).
  pose proof (normalize_text_padding s t pre post true Hpre Hpost Hlow) as Htrue.
  pose proof (normalize_text_padding s t pre post (case_flag params) Hpre Hpost Hst) as Hflag.
  unfold case_flag in Hflag. fold padded in Htrue, Hflag.
  unfold cmp_icase_exact, cmp_ratio, cmp_jaccard, cmp_contains.
  rewrite Htrue, !Hflag. repeat split; reflexivity.
Qed.

End PaddingLaws.

Lemma text_comparators_ignore_padding_witness :
  cmp_ratio (VStr (String.append latin1_blank (String.append ecole_capitals " ")))
    (VStr "Ecole") None None
  = cmp_ratio (VStr ecole) (VStr "Ecole") None None
  /\ cmp_contains (VStr "Anne Lee") (VStr "  ANN LEE ") None None
     = cmp_contains (VStr "Anne Lee") (VStr "ann lee") None None.
Proof.
  assert (Hpre : blank "  ") by (repeat constructor).
  assert (Hpost : blank " ") by (repeat constructor).
  assert (Hpre' : blank latin1_blank) by (repeat constructor).
  destruct (text_comparators_ignore_padding "ann lee" "ANN LEE" "  " " " (VStr "Anne Lee")
              None None Hpre Hpost eq_refl) as (_ & _ & _ & (_ & Hcontains)).
  destruct (text_comparators_ignore_padding ecole ecole_capitals latin1_blank " "
              (VStr "Ecole") None None Hpre' Hpost eq_refl) as (_ & (Hratio & _) & _).
  split; [exact Hratio | exact Hcontains].
Defined.
